(** * botNEWSet: the deduplication, scoring and ranking pipeline

    A shallow embedding of [dedup.ts], [popularity.ts] and [ranker.ts],
    and of what [telegram.ts], [fetcher.ts], [index.ts], [money.ts] and
    [runner.js] build around them, followed by the properties of the
    pipeline stated in the design document and by further properties of
    the code.

    Conventions of the embedding.
    - A JavaScript string is the list of its UTF-16 code units ([list N]).
    - A [number] that the code only ever uses as an integer (epoch
      milliseconds, scores, counts) is a [Z] or a [nat]; a quotient of two
      such numbers is an exact rational ([Q]).  The code compares these
      quotients with decimal literals in double precision; both sides are
      correctly rounded, so the comparison agrees with the exact one as
      long as the operands stay below 2^48, which word counts and epoch
      milliseconds do.
      The recency score multiplies and rounds such a quotient, and there
      the rounding of every operation counts: it is computed in the
      arithmetic of doubles, [double] of each exact result.
    - A [Date] is its time value in milliseconds, an integer; [validDate]
      is the range it can hold.  An Invalid Date is not represented.
    - [String.prototype.toLowerCase] is a table where the tokenizers apply
      it, which erase what the table leaves out, and a parameter where the
      code applies it to links.
    - A JavaScript [Set] is the duplicate-free list of its elements in
      insertion order; a [Map] is a [gmap].
    - [Date.now()] is a parameter [now]; the reads of the clock within one
      call are taken to give the same millisecond.
    - The file system and the network are parameters: the state of the
      cache file, the answers of the two search providers, the settled
      outcomes of the fetches, and which calls of [bot.sendMessage]
      succeed.  A [Map] that the code iterates is the list of its entries
      in insertion order. *)

From Stdlib Require Import ZArith QArith Qround Qabs Qpower Lia Lqa String Ascii
  DecimalString.
From stdpp Require Import base list sorting gmap sets fin_sets.

(** ** JavaScript values and built-ins used by the pipeline *)

Module JS.

Abbreviation jsstring := (list N).

(** Literals: the UTF-8 bytes of a Rocq string, decoded into code units
    (one-, two- and three-byte sequences, which covers every literal of
    the sources). *)
Fixpoint utf8_decode (bs : list N) : list N :=
  match bs with
  | [] => []
  | b :: r =>
      if (b <? 128)%N then b :: utf8_decode r
      else if (b <? 224)%N then
        match r with
        | c :: r' => ((b mod 32) * 64 + c mod 64)%N :: utf8_decode r'
        | [] => []
        end
      else
        match r with
        | c :: d :: r' =>
            ((b mod 16) * 4096 + (c mod 64) * 64 + d mod 64)%N :: utf8_decode r'
        | _ => []
        end
  end.

Definition js (s : string) : list N :=
  utf8_decode (map N_of_ascii (list_ascii_of_string s)).

(** [String.prototype.toLowerCase] as the tokenizers use it: on the Basic
    Latin and Latin-1 blocks, and on the two code points outside them whose
    lower-case form contains a letter of the tokenizers' alphabet (U+0130,
    U+212A).  Other cased letters are left as they are: the tokenizers
    replace every unit outside their alphabet by a space right after, and
    the lower-case form of such a letter is outside the alphabet as the
    letter is. *)
Definition isUpper (c : N) : bool :=
  ((65 <=? c) && (c <=? 90) || (192 <=? c) && (c <=? 222) && negb (c =? 215))%N.

Definition lowerUnit (c : N) : list N :=
  if isUpper c then [(c + 32)%N]
  else if (c =? 304)%N then [105%N; 775%N]
  else if (c =? 8490)%N then [107%N]
  else [c].

Definition toLowerCase (s : list N) : list N := flat_map lowerUnit s.

(** On a text of any letters [String.prototype.toLowerCase] follows the
    case mappings of the Unicode Character Database, on code points and
    with the rule of the final sigma.  Where the code applies it to links,
    whose letters are kept, it is a parameter of the embedding, of which
    nothing is assumed. *)
Class CaseMapping := String_toLowerCase : list N -> list N.

(** The class [\s] of regular expressions, which is also what [trim]
    strips. *)
Definition isSpace (c : N) : bool :=
  ((9 <=? c) && (c <=? 13) || (c =? 32) || (c =? 160) || (c =? 5760)
   || (8192 <=? c) && (c <=? 8202) || (c =? 8232) || (c =? 8233)
   || (c =? 8239) || (c =? 8287) || (c =? 12288) || (c =? 65279))%N.

(** [s.replace(/<class>/g, ' ')] for a class of single code units. *)
Definition replaceClass (cls : N -> bool) (s : list N) : list N :=
  map (fun c => if cls c then 32%N else c) s.

(** [s.replace(/\s+/g, ' ')]: every maximal run of white space becomes
    one space. *)
Fixpoint collapseFrom (inRun : bool) (s : list N) : list N :=
  match s with
  | [] => []
  | c :: r =>
      if isSpace c
      then (if inRun then collapseFrom true r else 32%N :: collapseFrom true r)
      else c :: collapseFrom false r
  end.

Definition collapseSpaces (s : list N) : list N := collapseFrom false s.

Fixpoint trimStart (s : list N) : list N :=
  match s with
  | [] => []
  | c :: r => if isSpace c then trimStart r else s
  end.

Definition trim (s : list N) : list N :=
  rev (trimStart (rev (trimStart s))).

(** [s.split(sep)] for a one-unit separator; never empty: [''.split(' ')]
    is [['']]. *)
Fixpoint split (sep : N) (s : list N) : list (list N) :=
  match s with
  | [] => [[]]
  | c :: r =>
      if (c =? sep)%N then [] :: split sep r
      else match split sep r with
           | w :: ws => (c :: w) :: ws
           | [] => [[c]]
           end
  end.

(** [s.split(/\s+/)]: the pieces between maximal runs of white space. *)
Definition splitSpaces (s : list N) : list (list N) :=
  split 32 (collapseSpaces s).

(** [s.replace(/\/+$/, '')]. *)
Fixpoint stripSlashes (r : list N) : list N :=
  match r with
  | [] => []
  | c :: r' => if (c =? 47)%N then stripSlashes r' else r
  end.

Definition stripTrailingSlashes (s : list N) : list N :=
  rev (stripSlashes (rev s)).

(** *** Sets, in insertion order *)

Definition Set_has (s : list (list N)) (x : list N) : bool :=
  bool_decide (x ∈ s).

Definition Set_add (s : list (list N)) (x : list N) : list (list N) :=
  if Set_has s x then s else s ++ [x].

(** [new Set(iterable)] *)
Definition Set_new (l : list (list N)) : list (list N) :=
  foldl Set_add [] l.

Definition Set_size (s : list (list N)) : nat := length s.

(** *** Arrays *)

(** [arr.some((x, idx) => f(x, idx))] *)
Fixpoint someFrom {A} (f : A -> nat -> bool) (i : nat) (arr : list A) : bool :=
  match arr with
  | [] => false
  | x :: r => f x i || someFrom f (S i) r
  end.

Definition some {A} (f : A -> nat -> bool) (arr : list A) : bool :=
  someFrom f 0 arr.

(** [for (let j = 0; j < arr.length; j++) body(j, arr[j])], threading the
    state the body updates. *)
Fixpoint forFrom {A S} (body : nat -> A -> S -> S) (j : nat) (arr : list A) (s : S) : S :=
  match arr with
  | [] => s
  | x :: r => forFrom body (Datatypes.S j) r (body j x s)
  end.

Definition forEachIndexed {A S} (body : nat -> A -> S -> S) (arr : list A) (s : S) : S :=
  forFrom body 0 arr s.

(** [arr.sort((a, b) => key(b) - key(a))]: the sort is stable, so the
    result is the one of insertion sort, where an element goes in front of
    the first one whose key is not greater. *)
Fixpoint insertDesc {A} (key : A -> Z) (x : A) (l : list A) : list A :=
  match l with
  | [] => [x]
  | y :: r => if (key x <? key y)%Z then y :: insertDesc key x r else x :: l
  end.

Definition sortDesc {A} (key : A -> Z) (l : list A) : list A :=
  foldr (insertDesc key) [] l.

(** [arr.slice(from, to)] for indices within [0, +oo). *)
Definition slice {A} (from to : nat) (l : list A) : list A :=
  take (to - from) (drop from l).

(** Numbers. *)
Definition num (n : nat) : Q := inject_Z (Z.of_nat n).

(** A [number] is a double (IEEE 754 binary64).  A finite double is a
    rational, and an arithmetic operation gives the exact result rounded to
    the nearest double, ties to the even significand: [double] of the exact
    result.  The range of the exponent is not modelled (no overflow, no
    subnormal numbers).

    [ilog2 x] is the exponent of a positive [x], the integer [e] with
    [2^e <= x < 2^(e+1)]; [roundEven] rounds to the nearest integer, ties
    to even; [roundPos] rounds a positive number to 53 significant bits. *)
Definition ilog2 (x : Q) : Z :=
  let k := (Z.log2 (Qnum x) - Z.log2 (Zpos (Qden x)))%Z in
  if Qle_bool (2 ^ k)%Q x then k else (k - 1)%Z.

Definition roundEven (q : Q) : Z :=
  let f := Qfloor q in
  match (q - inject_Z f ?= 1 # 2)%Q with
  | Lt => f
  | Gt => (f + 1)%Z
  | Eq => if Z.even f then f else (f + 1)%Z
  end.

Definition roundPos (x : Q) : Q :=
  let ulp := (2 ^ (ilog2 x - 52))%Q in
  (inject_Z (roundEven (x / ulp)) * ulp)%Q.

Definition double (x : Q) : Q :=
  match (x ?= 0)%Q with
  | Eq => 0%Q
  | Gt => roundPos x
  | Lt => (- roundPos (- x))%Q
  end.

(** [x >= y] and [x > y] on numbers. *)
Definition geq (x y : Q) : bool := Qle_bool y x.
Definition gt (x y : Q) : bool := negb (Qle_bool x y).

Definition Math_max (x y : Q) : Q := if Qle_bool x y then y else x.

(** [Math.round]: the nearest integer, ties towards +oo. *)
Definition Math_round (x : Q) : Z := Qfloor (x + (1 # 2))%Q.

End JS.

Import JS.

(** ** types.ts *)

Module Types.

Record ScoreBreakdown := mkScoreBreakdown {
  crossFeedScore : Z;
  recencyScore : Z;
  trendingScore : Z;
  socialScore : Z;
  totalScore : Z
}.

(** [publishedAt] is the time value of the [Date], in milliseconds since
    the epoch.  An Invalid Date (time value [NaN], which [new Date] gives
    for a text it cannot parse) is not represented: the documents of the
    embedding have a date. *)
Record NewsItem := mkNewsItem {
  title : list N;
  link : list N;
  source : list N;
  publishedAt : Z;
  description : list N;
  relevanceScore : Z;
  scoreBreakdown : ScoreBreakdown
}.

(** The time values that a [Date] can hold: 100 million days on either
    side of the epoch. *)
Definition validDate (t : Z) : Prop :=
  (- 8640000000000000 <= t <= 8640000000000000)%Z.

End Types.

Import Types.

(** ** dedup.ts *)

Module Dedup.

(** The class of the first replacement of [normalizeTitle]: quotes and
    dashes.  Whatever it leaves of such marks falls to the second
    replacement, which keeps letters, digits and white space only. *)
Definition quoteOrDash (c : N) : bool :=
  ((c =? 39) || (c =? 34) || (c =? 45) || (c =? 8211) || (c =? 8212))%N.

(** The class [[a-záàâãéèêíïóôõöúçñ0-9\s]] under the flag [i]. *)
Definition inAlphabet (c : N) : bool :=
  let d := if isUpper c then (c + 32)%N else c in
  ((97 <=? d) && (d <=? 122))%N
  || bool_decide (d ∈ js "áàâãéèêíïóôõöúçñ")
  || ((48 <=? d) && (d <=? 57))%N
  || isSpace c.

Definition normalizeTitle (title : list N) : list N :=
  trim
    (collapseSpaces
       (replaceClass (fun c => negb (inAlphabet c))
          (replaceClass quoteOrDash (toLowerCase title)))).

Definition DEDUP_STOP_WORDS : list (list N) :=
  Set_new (map js [
    (* EN *)
    "a"; "an"; "the"; "is"; "are"; "was"; "were"; "be"; "been"; "to"; "of";
    "in"; "for"; "on"; "with"; "at"; "by"; "from"; "as"; "and"; "but"; "or";
    "it"; "its"; "this"; "that"; "has"; "have"; "had"; "will"; "not"; "no";
    "can"; "do"; "does"; "did"; "says"; "said"; "new"; "how"; "what"; "why";
    "who"; "when"; "where"; "after"; "over"; "up"; "out"; "into"; "about";
    (* PT *)
    "de"; "da"; "do"; "dos"; "das"; "em"; "no"; "na"; "nos"; "nas";
    "um"; "uma"; "por"; "para"; "com"; "sem"; "que"; "se"; "mais"; "mas";
    "seu"; "sua"; "foi"; "ser"; "ter"; "diz"; "são"; "tem"; "vai";
    "sobre"; "entre"; "como"; "já"; "até"; "não"; "há"; "os"; "as"
  ]%string).

Definition extractSignificantWords (title : list N) : list (list N) :=
  List.filter
    (fun w => (2 <? length w) && negb (Set_has DEDUP_STOP_WORDS w))
    (split 32 (normalizeTitle title)).

(** The loop [for (const w of setA) if (setB.has(w)) intersection++]. *)
Definition countShared (setA setB : list (list N)) : nat :=
  foldl (fun n w => if Set_has setB w then S n else n) 0 setA.

Definition jaccardSimilarity (wordsA wordsB : list (list N)) : Q :=
  let setA := Set_new wordsA in
  let setB := Set_new wordsB in
  if (Set_size setA =? 0) || (Set_size setB =? 0) then 0
  else
    let intersection := countShared setA setB in
    let union := Set_size (Set_new (setA ++ setB)) in
    if 0 <? union then num intersection / num union else 0.

Definition overlapCoefficient (wordsA wordsB : list (list N)) : Q :=
  let setA := Set_new wordsA in
  let setB := Set_new wordsB in
  if (Set_size setA =? 0) || (Set_size setB =? 0) then 0
  else
    let intersection := countShared setA setB in
    num intersection / num (Set_size setA `min` Set_size setB).

Definition areSimilar (titleA titleB : list N) : bool :=
  let wordsA := extractSignificantWords titleA in
  let wordsB := extractSignificantWords titleB in
  if (length wordsA <=? 2) || (length wordsB <=? 2) then
    geq (jaccardSimilarity wordsA wordsB) 0.6
  else
    let jaccard := jaccardSimilarity wordsA wordsB in
    let overlap := overlapCoefficient wordsA wordsB in
    if geq jaccard 0.35 then true
    else if geq overlap 0.65 then true
    else if geq jaccard 0.25 && geq overlap 0.5 then true
    else false.

(** One iteration of the loop of [deduplicateBySimilarity] over the
    arrays [kept] and [keptWords]. *)
Definition dedupStep (st : list NewsItem * list (list (list N))) (item : NewsItem)
  : list NewsItem * list (list (list N)) :=
  let '(kept, keptWords) := st in
  let words := extractSignificantWords (title item) in
  let isDuplicate :=
    some (fun _ idx =>
            match kept !! idx with
            | Some k => areSimilar (title item) (title k)
            | None => false
            end) kept in
  if isDuplicate then (kept, keptWords)
  else (kept ++ [item], keptWords ++ [words]).

Definition deduplicateBySimilarity (items : list NewsItem) : list NewsItem :=
  if length items =? 0 then []
  else
    let sorted := sortDesc relevanceScore items in
    fst (foldl dedupStep ([], []) sorted).

(** The duplicate test of [finalDedup] on two word lists. *)
Definition finalDuplicate (words existingWords : list (list N)) : bool :=
  let jaccard := jaccardSimilarity words existingWords in
  let overlap := overlapCoefficient words existingWords in
  geq jaccard 0.3 || geq overlap 0.6 || (geq jaccard 0.2 && geq overlap 0.45).

(** One iteration of the loop of [finalDedup]; reading [resultWords]
    past its end gives [undefined], from which [new Set] builds the empty
    set. *)
Definition finalStep (st : list NewsItem * list (list (list N))) (item : NewsItem)
  : list NewsItem * list (list (list N)) :=
  let '(result, resultWords) := st in
  let words := extractSignificantWords (title item) in
  let isDuplicate :=
    some (fun _ idx => finalDuplicate words (default [] (resultWords !! idx))) result in
  if isDuplicate then (result, resultWords)
  else (result ++ [item], resultWords ++ [words]).

Definition finalDedup (items : list NewsItem) : list NewsItem :=
  if length items =? 0 then []
  else fst (foldl finalStep ([], []) items).

End Dedup.

Import Dedup.

(** ** popularity.ts *)

Module Popularity.

Definition STOP_WORDS : list (list N) :=
  Set_new (map js [
    "a"; "an"; "the"; "is"; "are"; "was"; "were"; "be"; "been"; "being";
    "have"; "has"; "had"; "do"; "does"; "did"; "will"; "would"; "could";
    "should"; "may"; "might"; "shall"; "can"; "need"; "dare"; "ought";
    "used"; "to"; "of"; "in"; "for"; "on"; "with"; "at"; "by"; "from";
    "as"; "into"; "through"; "during"; "before"; "after"; "above"; "below";
    "between"; "out"; "off"; "over"; "under"; "again"; "further"; "then";
    "once"; "and"; "but"; "or"; "nor"; "not"; "so"; "yet"; "both";
    "either"; "neither"; "each"; "every"; "all"; "any"; "few"; "more";
    "most"; "other"; "some"; "such"; "no"; "only"; "own"; "same"; "than";
    "too"; "very"; "just"; "because"; "about"; "up"; "it"; "its"; "this";
    "that"; "these"; "those"; "he"; "she"; "they"; "we"; "you"; "i"; "me";
    "my"; "your"; "his"; "her"; "their"; "our"; "what"; "which"; "who";
    "when"; "where"; "why"; "how"; "if"; "while"; "new"; "says"; "said";
    (* PT-BR stop words *)
    "de"; "da"; "do"; "dos"; "das"; "em"; "no"; "na"; "nos"; "nas";
    "um"; "uma"; "uns"; "umas"; "por"; "para"; "com"; "sem"; "sob";
    "sobre"; "entre"; "que"; "se"; "mais"; "mas"; "como"; "seu"; "sua";
    "seus"; "suas"; "ele"; "ela"; "eles"; "elas"; "isso"; "isto";
    "aquilo"; "este"; "esta"; "esse"; "essa"; "já"; "ainda"; "também";
    "foi"; "ser"; "ter"; "está"; "são"; "tem"; "vai"; "pode"; "diz";
    "após"; "ano"; "dia"; "vez"; "até"; "não"; "há"
  ]%string).

Definition extractKeywords (text : list N) : list (list N) :=
  List.filter
    (fun w => (2 <? length w) && negb (Set_has STOP_WORDS w))
    (splitSpaces
       (replaceClass (fun c => negb (inAlphabet c)) (toLowerCase text))).

(** *** 1. Cross-feed *)

(** The body of the loop over [j], on the pair [crossCount],
    [matchedSources]. *)
Definition crossFeedStep (i : nat) (itemI : NewsItem) (kwA : list (list N))
    (j : nat) (itemJ : NewsItem) (st : nat * list (list N))
  : nat * list (list N) :=
  let '(crossCount, matchedSources) := st in
  if (i =? j) || bool_decide (source itemJ = source itemI) then st
  else if Set_has matchedSources (source itemJ) then st
  else
    let kwB := extractKeywords (title itemJ) in
    let overlap := length (List.filter (fun w => Set_has kwA w) kwB) in
    let similarity : Q :=
      if 0 <? Set_size kwA then (num overlap / num (Set_size kwA))%Q else 0%Q in
    if geq similarity 0.4
    then (S crossCount, Set_add matchedSources (source itemJ))
    else st.

Definition crossFeedTier (crossCount : nat) : Z :=
  if 3 <=? crossCount then 50
  else if 2 <=? crossCount then 40
  else if 1 <=? crossCount then 30
  else 0.

(** The value of [crossCount] when the loop over [j] ends. *)
Definition crossCountOf (items : list NewsItem) (i : nat) (itemI : NewsItem) : nat :=
  let kwA := Set_new (extractKeywords (title itemI)) in
  fst (forEachIndexed (crossFeedStep i itemI kwA) items
         (0, Set_add [] (source itemI))).

Definition computeCrossFeedScores (items : list NewsItem) : gmap nat Z :=
  forEachIndexed
    (fun i itemI (scores : gmap nat Z) =>
       <[i := crossFeedTier (crossCountOf items i itemI)]> scores)
    items ∅.

(** *** 2. Trending keywords *)

Definition bump (keywordFreq : gmap (list N) nat) (kw : list N) : gmap (list N) nat :=
  <[kw := default 0 (keywordFreq !! kw) + 1]> keywordFreq.

Definition computeTrendingScores (items : list NewsItem) : gmap nat Z :=
  let '(keywordFreq, itemKeywords) :=
    foldl (fun '(keywordFreq, itemKeywords) item =>
             let kws := Set_new (extractKeywords (title item ++ js " " ++ description item)) in
             (foldl bump keywordFreq kws, itemKeywords ++ [kws]))
          (∅, []) items in
  let trendingKeywords : gset (list N) :=
    dom (filter (fun kc : list N * nat => 3 <= kc.2) keywordFreq) in
  forEachIndexed
    (fun i (_ : NewsItem) (scores : gmap nat Z) =>
       let kws := default [] (itemKeywords !! i) in
       let trendingHits :=
         length (List.filter (fun kw => bool_decide (kw ∈ trendingKeywords)) kws) in
       <[i := Z.min (Z.of_nat trendingHits * 5) 30]> scores)
    items ∅.

(** *** 3. Recency *)

(** The age of a document in hours, as the exact quotient: what the
    filters compare with a whole number of hours. *)
Definition ageHours (now : Z) (item : NewsItem) : Q :=
  (inject_Z (now - publishedAt item) / 3600000)%Q.

(** The body of the loop of [computeRecencyScores], in the arithmetic of
    doubles: every operation rounds its result. *)
Definition recencyScore (now : Z) (item : NewsItem) : Z :=
  let ageHours :=
    double (double (inject_Z (now - publishedAt item)) / 3600000)%Q in
  let score :=
    Math_max 0 (double (20 * double (1 - double (ageHours / 24))))%Q in
  Math_round score.

Definition computeRecencyScores (now : Z) (items : list NewsItem) : gmap nat Z :=
  forEachIndexed
    (fun i item (scores : gmap nat Z) => <[i := recencyScore now item]> scores)
    items ∅.

(** *** 4. Social score *)

(** The providers are the environment: the answer of [axios.get] to a
    search is [None] when the request throws (network error, timeout, bad
    status) and otherwise the list of hits, each one its points and its
    number of comments. *)
Record Hits := mkHits { score : Z; comments : Z }.

Definition bestHit (hits : list Hits) : Hits :=
  foldl (fun best hit =>
           if (score best <? score hit)%Z then hit else best)
        (mkHits 0 0) hits.

Definition checkProvider (answer : option (list Hits)) : Hits :=
  match answer with
  | Some hits => bestHit hits
  | None => mkHits 0 0
  end.

Section Social.

Variable hackerNews : list N -> option (list Hits).
Variable reddit : list N -> option (list Hits).

Definition checkHackerNews (url : list N) : Hits := checkProvider (hackerNews url).
Definition checkReddit (url : list N) : Hits := checkProvider (reddit url).

Definition getSocialScore (url : list N) : Z :=
  let hn := checkHackerNews url in
  let rd := checkReddit url in
  let raw := (score hn + comments hn * 2 + score rd + comments rd * 2)%Z in
  Z.min raw 50.

(** *** Pipeline *)

Record PreScored := mkPreScored { item : NewsItem; index : nat; localScore : Z }.

(** The outcome of a promise under [Promise.allSettled]. *)
Inductive Settled (A : Type) := fulfilled (value : A) | rejected.
Arguments fulfilled {A} value.
Arguments rejected {A}.

Definition preScore (crossFeed trending recency : gmap nat Z)
    (items : list NewsItem) : list PreScored :=
  imap (fun i item =>
          mkPreScored item i
            (default 0 (crossFeed !! i) + default 0 (trending !! i)
             + default 0 (recency !! i))%Z)
       items.

Definition topCandidates (preScored : list PreScored) : list PreScored :=
  slice 0 20 (sortDesc localScore preScored).

Definition settleBatch (batch : list PreScored) : list (Settled (nat * Z)) :=
  map (fun c => fulfilled (index c, getSocialScore (link (item c)))) batch.

Definition recordResults (socialScores : gmap nat Z)
    (results : list (Settled (nat * Z))) : gmap nat Z :=
  foldl (fun m r =>
           match r with
           | fulfilled (idx, sc) => <[idx := sc]> m
           | rejected => m
           end)
        socialScores results.

(** The loop [for (let i = 0; i < topCandidates.length; i += 5)]; every
    round advances [i], so [length topCandidates] rounds are enough.  The
    pause between two batches has no effect on the scores and is left
    out. *)
Fixpoint socialLoop (rounds : nat) (i : nat) (top : list PreScored)
    (socialScores : gmap nat Z) : gmap nat Z :=
  match rounds with
  | O => socialScores
  | S rounds' =>
      if i <? length top then
        let batch := slice i (i + 5) top in
        let results := settleBatch batch in
        socialLoop rounds' (i + 5) top (recordResults socialScores results)
      else socialScores
  end.

Definition enrich (crossFeed trending recency socialScores : gmap nat Z)
    (i : nat) (item : NewsItem) : NewsItem :=
  let cf := default 0%Z (crossFeed !! i) in
  let tr := default 0%Z (trending !! i) in
  let rc := default 0%Z (recency !! i) in
  let sc := default 0%Z (socialScores !! i) in
  let total := (cf + tr + rc + sc)%Z in
  mkNewsItem (title item) (link item) (source item) (publishedAt item)
    (description item) total
    (mkScoreBreakdown cf rc tr sc total).

(** The social scores found for the candidates of a run. *)
Definition socialScoresOf (now : Z) (items : list NewsItem) : gmap nat Z :=
  let crossFeed := computeCrossFeedScores items in
  let trending := computeTrendingScores items in
  let recency := computeRecencyScores now items in
  let top := topCandidates (preScore crossFeed trending recency items) in
  socialLoop (length top) 0 top ∅.

(** The array [enriched] as [items.map] builds it. *)
Definition enriched (now : Z) (items : list NewsItem) : list NewsItem :=
  imap (enrich (computeCrossFeedScores items) (computeTrendingScores items)
          (computeRecencyScores now items) (socialScoresOf now items))
       items.

(** The log line at the end sorts [enriched] in place, so the array
    returned is in descending order of relevance. *)
Definition computeRelevance (now : Z) (items : list NewsItem) : list NewsItem :=
  if length items =? 0 then []
  else sortDesc relevanceScore (enriched now items).

End Social.

Arguments fulfilled {A} value.
Arguments rejected {A}.

End Popularity.

Import Popularity.

(** ** ranker.ts *)

Module Ranker.

(** The record kept in [.sent-cache.json]. *)
Record SentCacheData := mkSentCacheData {
  urls : list (list N);
  timestamp : Z
}.

(** What [loadSentCache] can meet on disk: no file; a file that
    [readFileSync] fails to read; a file that [JSON.parse] rejects, or
    whose value has no fields to read ([null]); a stored record of the
    declared type. *)
Inductive CacheFile :=
| Absent
| Unreadable
| Malformed
| Stored (data : SentCacheData).

Definition loadSentCache (now : Z) (file : CacheFile) : list (list N) :=
  match file with
  | Stored data =>
      if (now - timestamp data >? 48 * 60 * 60 * 1000)%Z then Set_new []
      else Set_new (urls data)
  | Absent | Unreadable | Malformed => Set_new []
  end.

(** [writeFileSync] either replaces the file or throws, which is
    ignored. *)
Definition saveSentCache (writable : bool) (now : Z) (urls : list (list N))
    (file : CacheFile) : CacheFile :=
  if writable then Stored (mkSentCacheData urls now) else file.

Section Links.

Context {caseMapping : CaseMapping}.

Definition normalizeUrl (url : list N) : list N :=
  String_toLowerCase (stripTrailingSlashes url).

(** The loop of [diversifiedPick] over what is left of [sorted]. *)
Fixpoint pickLoop (maxItems : Z) (maxPerSource : nat) (sorted : list NewsItem)
    (result : list NewsItem) (sourceCount : gmap (list N) nat) : list NewsItem :=
  match sorted with
  | [] => result
  | item :: rest =>
      if (Z.of_nat (length result) >=? maxItems)%Z then result
      else
        let count := default 0 (sourceCount !! source item) in
        if maxPerSource <=? count
        then pickLoop maxItems maxPerSource rest result sourceCount
        else pickLoop maxItems maxPerSource rest
               (result ++ [item]) (<[source item := count + 1]> sourceCount)
  end.

Definition diversifiedPick (sorted : list NewsItem) (maxItems : Z)
    (maxPerSource : nat) : list NewsItem :=
  pickLoop maxItems maxPerSource sorted [] ∅.

(** The callback of the filter of [rankNews]. *)
Definition fresh (sentCache : list (list N)) (now maxAgeHours : Z)
    (item : NewsItem) : bool :=
  let normalized := normalizeUrl (link item) in
  if Set_has sentCache normalized then false
  else if gt (ageHours now item) (inject_Z maxAgeHours) then false
  else if bool_decide (link item = []) then false
  else true.

(** [rankNews] reads the clock and the cache file and leaves a new cache
    file behind. *)
Definition rankNews (now : Z) (file : CacheFile) (writable : bool)
    (items : list NewsItem) (maxItems maxAgeHours : Z)
  : list NewsItem * CacheFile :=
  let sentCache := loadSentCache now file in
  let filtered := List.filter (fresh sentCache now maxAgeHours) items in
  let unique := deduplicateBySimilarity filtered in
  let sorted := sortDesc relevanceScore unique in
  let topItems := diversifiedPick sorted maxItems 3 in
  let sentCache' :=
    foldl (fun cache item => Set_add cache (normalizeUrl (link item)))
          sentCache topItems in
  (topItems, saveSentCache writable now sentCache' file).

End Links.

Definition getTopOfDay (now : Z) (items : list NewsItem) (count : Z)
  : list NewsItem :=
  let last24h :=
    List.filter
      (fun item => geq 24 (ageHours now item)
                   && negb (bool_decide (link item = [])))
      items in
  let unique := deduplicateBySimilarity last24h in
  let sorted := sortDesc relevanceScore unique in
  diversifiedPick sorted count 3.

End Ranker.

Import Ranker.

(** ** telegram.ts *)

Module Telegram.

(** [s.replace(/c/g, by)] for a single code unit [c]. *)
Definition replaceAll (c : N) (replacement : list N) (s : list N) : list N :=
  flat_map (fun x => if (x =? c)%N then replacement else [x]) s.

Definition escapeHtml (text : list N) : list N :=
  replaceAll 62 (js "&gt;")
    (replaceAll 60 (js "&lt;")
       (replaceAll 38 (js "&amp;") text)).

(** The decimal text of an integer, as a template literal prints it. *)
Definition Number_toString (n : Z) : list N :=
  js (NilZero.string_of_int (Z.to_int n)).

(** [timeAgo(date)] at the time [now]; both in epoch milliseconds. *)
Definition timeAgo (now date : Z) : list N :=
  let seconds := ((now - date) / 1000)%Z in
  if (seconds <? 60)%Z then Number_toString seconds ++ js "s atrás"
  else
    let minutes := (seconds / 60)%Z in
    if (minutes <? 60)%Z then Number_toString minutes ++ js "min atrás"
    else
      let hours := (minutes / 60)%Z in
      if (hours <? 24)%Z then Number_toString hours ++ js "h atrás"
      else
        let days := (hours / 24)%Z in
        Number_toString days ++ js "d atrás".

(** [s.repeat(count)]; a negative count is a [RangeError]. *)
Definition String_repeat (s : list N) (count : Z) : option (list N) :=
  if (count <? 0)%Z then None
  else Some (concat (replicate (Z.to_nat count) s)).

(** [scoreBar(score, max)] for [max <> 0]; [None] when [repeat] throws. *)
Definition scoreBar (score max : Z) : option (list N) :=
  let filled :=
    Math_round (inject_Z (Z.min score max) / inject_Z max * 5)%Q in
  match String_repeat (js "█") filled, String_repeat (js "░") (5 - filled) with
  | Some full, Some empty => Some (full ++ empty)
  | _, _ => None
  end.

(** [parts.join(sep)] *)
Definition join (sep : list N) (parts : list (list N)) : list N :=
  match parts with
  | [] => []
  | p :: ps => p ++ flat_map (fun q => sep ++ q) ps
  end.

(** One round of the loop that cuts a long message: [chunks] and
    [current], then the entry of the round. *)
Definition chunkStep (st : list (list N) * list N) (entry : list N)
  : list (list N) * list N :=
  let '(chunks, current) := st in
  let '(chunks, current) :=
    if 4000 <? length current + length entry
    then (chunks ++ [current], [])
    else (chunks, current) in
  (chunks, current ++ entry).

(** The chunks built when the message is too long; [formatted] is
    [items.map(formatNewsItem)]. *)
Definition chunkMessage (header : list N) (formatted : list (list N))
  : list (list N) :=
  let '(chunks, current) :=
    foldl chunkStep ([], header)
      (map (fun f => f ++ [10; 10]%N) formatted) in
  if bool_decide (trim current = []) then chunks else chunks ++ [current].

(** The texts that [sendNews], [sendLatestNews] and [sendMoneyNews] pass to
    [safeSend], in order, for a header, the text sent when there is nothing
    to show, and the formatted items. *)
Definition newsMessages (header nothing : list N) (formatted : list (list N))
  : list (list N) :=
  if length formatted =? 0 then [nothing]
  else
    let message := header ++ join [10; 10]%N formatted in
    if length message <=? 4096 then [message]
    else chunkMessage header formatted.

(** [safeSend]: [sendMessage i] tells whether the call number [i] of
    [bot.sendMessage] succeeds.  The result says whether [safeSend] returns
    (rather than throws) and how many calls it made. *)
Fixpoint safeSendFrom (sendMessage : nat -> bool) (remaining i : nat)
  : bool * nat :=
  if sendMessage i then (true, S i)
  else
    match remaining with
    | O => (false, S i)
    | S r => safeSendFrom sendMessage r (S i)
    end.

Definition safeSend (sendMessage : nat -> bool) (retries : nat) : bool * nat :=
  safeSendFrom sendMessage retries 0.

(** The argument of [sendSourcesList]. *)
Record SourceEntry := mkSourceEntry {
  name : list N;
  category : list N
}.

(** A [Map] that is iterated: its entries in the order of insertion. *)
Definition Map_get {V} (m : list (list N * V)) (k : list N) : option V :=
  snd <$> List.find (fun e => bool_decide (e.1 = k)) m.

Fixpoint Map_set {V} (m : list (list N * V)) (k : list N) (v : V)
  : list (list N * V) :=
  match m with
  | [] => [(k, v)]
  | e :: r => if bool_decide (e.1 = k) then (k, v) :: r else e :: Map_set r k v
  end.

(** The map [byCategory] that [sendSourcesList] builds. *)
Definition groupByCategory (sources : list SourceEntry)
  : list (list N * list (list N)) :=
  foldl (fun byCategory s =>
           let list := default [] (Map_get byCategory (category s)) in
           Map_set byCategory (category s) (list ++ [name s]))
        [] sources.

End Telegram.

(** ** fetcher.ts *)

Module Fetcher.

Inductive FeedType := rss | http | reddit.

Record FeedSource := mkFeedSource {
  name : list N;
  url : list N;
  type : FeedType;
  category : list N
}.

Section Links.

Context {caseMapping : CaseMapping}.

(** The callback of the filter of [deduplicateByUrl], with the set [seen]
    it updates. *)
Definition seenStep (st : list (list N) * list NewsItem) (item : NewsItem)
  : list (list N) * list NewsItem :=
  let '(seen, kept) := st in
  let normalized := String_toLowerCase (stripTrailingSlashes (link item)) in
  if Set_has seen normalized then (seen, kept)
  else (Set_add seen normalized, kept ++ [item]).

Definition deduplicateByUrl (items : list NewsItem) : list NewsItem :=
  snd (foldl seenStep ([], []) items).

(** [fetchAll]; the three fetchers are the environment, each giving the
    settled outcome of its promise for a source. *)
Definition fetchAll
    (fetchRSS fetchReddit fetchHTTP : FeedSource -> Settled (list NewsItem))
    (sources : list FeedSource) : list NewsItem :=
  let promises :=
    map (fun source =>
           match type source with
           | rss => fetchRSS source
           | reddit => fetchReddit source
           | http => fetchHTTP source
           end) sources in
  let allItems :=
    foldl (fun allItems result =>
             match result with
             | fulfilled value => allItems ++ value
             | rejected => allItems
             end) [] promises in
  deduplicateByUrl allItems.

End Links.

End Fetcher.

(** ** index.ts *)

Module Index.

Definition LATEST_MAX_AGE_HOURS : Z := 1.
Definition LATEST_MAX_ITEMS : nat := 15.

(** [fetchLatest], from the items that [fetchAll] returned. *)
Definition fetchLatest (now : Z) (rawItems : list NewsItem) : list NewsItem :=
  let recent :=
    sortDesc publishedAt
      (List.filter
         (fun item =>
            geq (inject_Z LATEST_MAX_AGE_HOURS) (ageHours now item)
            && geq (ageHours now item) 0
            && negb (bool_decide (link item = [])))
         rawItems) in
  let clean := finalDedup recent in
  slice 0 LATEST_MAX_ITEMS clean.

(** [runTrendingPipeline], from the items that [fetchAll] returned, with
    the two settings it reads from the configuration.  The time limits put
    around the two stages are left out. *)
Definition runTrendingPipeline {caseMapping : CaseMapping}
    (hackerNews reddit : list N -> option (list Hits))
    (now : Z) (file : CacheFile) (writable : bool)
    (maxNewsPerSend newsMaxAgeHours : Z) (rawItems : list NewsItem)
  : list NewsItem * CacheFile :=
  let recent :=
    sortDesc publishedAt
      (List.filter
         (fun item =>
            geq (inject_Z newsMaxAgeHours) (ageHours now item)
            && negb (bool_decide (link item = [])))
         rawItems) in
  let enriched := computeRelevance hackerNews reddit now recent in
  let '(ranked, file') :=
    rankNews now file writable enriched maxNewsPerSend newsMaxAgeHours in
  let clean := finalDedup ranked in
  (clean, file').

(** [arr.slice(0, end)]: a negative [end] counts from the end. *)
Definition sliceTo {A} (end_ : Z) (l : list A) : list A :=
  if (end_ <? 0)%Z then take (length l - Z.to_nat (- end_)) l
  else take (Z.to_nat end_) l.

End Index.

(** ** money.ts *)

Module Money.

(** The list [result] of [sendMoneyNews], from the list [scored].  Its loop
    of diversification is the one of [diversifiedPick], with the limit
    [count + 5]. *)
Definition selectNews (scored : list NewsItem) (count : Z) : list NewsItem :=
  let unique := sortDesc relevanceScore (deduplicateBySimilarity scored) in
  let diversified := diversifiedPick unique (count + 5) 3 in
  Index.sliceTo count (finalDedup diversified).

End Money.

(** ** runner.js *)

Module Runner.

Definition MIN_RESTART_DELAY : Z := 3000.
Definition MAX_RESTART_DELAY : Z := 60000.
Definition BACKOFF_MULTIPLIER : Z := 2.
Definition CRASH_WINDOW : Z := 60000.
Definition MAX_CRASHES_IN_WINDOW : nat := 5.

(** The two variables the supervisor keeps between crashes. *)
Record State := mkState {
  currentDelay : Z;
  crashTimestamps : list Z
}.

Definition initial : State := mkState MIN_RESTART_DELAY [].

(** The handler of the [exit] event of the bot process, when the runner is
    not quitting: the state it leaves; the restart is scheduled after the
    new [currentDelay]. *)
Definition onExit (now : Z) (st : State) : State :=
  let stamps :=
    List.filter (fun t => (now - t <? CRASH_WINDOW)%Z)
      (crashTimestamps st ++ [now]) in
  if MAX_CRASHES_IN_WINDOW <=? length stamps
  then mkState (Z.min (currentDelay st * BACKOFF_MULTIPLIER) MAX_RESTART_DELAY) stamps
  else mkState MIN_RESTART_DELAY stamps.

(** The state after the crashes at the given times, first to last. *)
Definition afterCrashes (times : list Z) : State :=
  foldl (fun st now => onExit now st) initial times.

End Runner.

(** * Notions used to state the properties *)

(** Descending order of the keys: what [sortDesc] establishes. *)
Definition descending {A} (key : A -> Z) (x y : A) : Prop := (key y <= key x)%Z.

(** The two metrics of the design document, on finite sets of words. *)
Definition Jaccard (X Y : gset (list N)) : Q :=
  if decide (X = ∅ ∨ Y = ∅) then 0
  else num (size (X ∩ Y)) / num (size (X ∪ Y)).

Definition Overlap (X Y : gset (list N)) : Q :=
  if decide (X = ∅ ∨ Y = ∅) then 0
  else num (size (X ∩ Y)) / num (size X `min` size Y).

(** The set of significant words of a title. *)
Definition wordSet (title : list N) : gset (list N) :=
  list_to_set (extractSignificantWords title).

(** The duplicate tests of the two passes, on items. *)
Definition similarItems (x y : NewsItem) : bool :=
  areSimilar (title x) (title y).

Definition finalDuplicateItems (x y : NewsItem) : bool :=
  finalDuplicate (extractSignificantWords (title x))
                 (extractSignificantWords (title y)).

(** Greedy selection: an element is kept when it is no duplicate of an
    element kept before it. *)
Definition keepNew {A} (dup : A -> A -> bool) (kept : list A) (x : A) : list A :=
  if existsb (dup x) kept then kept else kept ++ [x].

Definition greedy {A} (dup : A -> A -> bool) (kept l : list A) : list A :=
  foldl (keepNew dup) kept l.

(** No element is a duplicate of an element before it. *)
Definition duplicateFree {A} (dup : A -> A -> bool) (l : list A) : Prop :=
  StronglySorted (fun x y => dup y x = false) l.

(** Cross-feed corroboration as the design document has it.  The keyword
    set of a title; the number of keywords that two titles share; the title
    overlap of [itemJ] with [itemI], that number over the size of the
    keyword set of [itemI]; and the sources other than the one of [itemI]
    with a document whose overlap reaches 0.4. *)
Definition keywordSet (title : list N) : gset (list N) :=
  list_to_set (extractKeywords title).

Definition sharedKeywords (itemI itemJ : NewsItem) : nat :=
  size (keywordSet (title itemI) ∩ keywordSet (title itemJ)).

Definition titleOverlap (itemI itemJ : NewsItem) : Q :=
  if decide (size (keywordSet (title itemI)) = 0) then 0
  else num (sharedKeywords itemI itemJ) / num (size (keywordSet (title itemI))).

Definition corroborates (itemI itemJ : NewsItem) : bool :=
  bool_decide (source itemJ ≠ source itemI) && geq (titleOverlap itemI itemJ) 0.4.

Definition corroboratingSources (items : list NewsItem) (itemI : NewsItem)
  : gset (list N) :=
  list_to_set (map source (List.filter (corroborates itemI) items)).

(** What the code counts instead.  The number of keywords of the title of
    [itemJ], counted as often as they occur there, that are keywords of the
    title of [itemI]; that number over the size of the keyword set of
    [itemI]; and the sources other than the one of [itemI] with a document
    for which this ratio reaches 0.4. *)
Definition keywordHits (itemI itemJ : NewsItem) : nat :=
  length (List.filter (fun w => bool_decide (w ∈ keywordSet (title itemI)))
            (extractKeywords (title itemJ))).

Definition hitRatio (itemI itemJ : NewsItem) : Q :=
  if decide (size (keywordSet (title itemI)) = 0) then 0
  else num (keywordHits itemI itemJ) / num (size (keywordSet (title itemI))).

Definition matches (itemI itemJ : NewsItem) : bool :=
  bool_decide (source itemJ ≠ source itemI) && geq (hitRatio itemI itemJ) 0.4.

Definition matchingSources (items : list NewsItem) (itemI : NewsItem)
  : gset (list N) :=
  list_to_set (map source (List.filter (matches itemI) items)).

(** What the loop over [j] of [computeCrossFeedScores] maintains for
    document [itemI], once it has gone through the documents [pre]:
    [matchedSources] holds, once each, the source of [itemI] and the
    matching sources met so far, and [crossCount] counts the latter. *)
Definition matchedUpTo (itemI : NewsItem) (pre : list NewsItem)
    (st : nat * list (list N)) : Prop :=
  NoDup st.2 ∧ st.1 + 1 = length st.2
  ∧ ∀ s, s ∈ st.2
         <-> s = source itemI
             ∨ ∃ x, x ∈ pre ∧ matches itemI x = true ∧ source x = s.

(** The duplicate test of the final pass as the design document words it,
    on sets of words. *)
Definition finalPassDuplicate (X Y : gset (list N)) : bool :=
  geq (Jaccard X Y) 0.3 || geq (Overlap X Y) 0.6
  || (geq (Jaccard X Y) 0.2 && geq (Overlap X Y) 0.45).

(** The candidates of a run of [computeRelevance], and the social score a
    settled look-up leaves in [socialScores] for a candidate. *)
Definition candidates (now : Z) (items : list NewsItem) : list PreScored :=
  preScore (computeCrossFeedScores items) (computeTrendingScores items)
    (computeRecencyScores now items) items.

Definition recordScore (hackerNews reddit : list N -> option (list Hits))
    (socialScores : gmap nat Z) (c : PreScored) : gmap nat Z :=
  <[index c := getSocialScore hackerNews reddit (link (item c))]> socialScores.

(** The number of items of a list that come from a source. *)
Definition countSource (s : list N) (l : list NewsItem) : nat :=
  length (List.filter (fun item => bool_decide (source item = s)) l).

(** The code units a significant word is made of: lower-case letters of
    the alphabet of [normalizeTitle] and digits. *)
Definition wordUnit (c : N) : Prop :=
  (97 <= c <= 122)%N ∨ (48 <= c <= 57)%N ∨ c ∈ js "áàâãéèêíïóôõöúçñ".

(** Trending keywords.  The keywords of a document, each once; the number
    of documents of a list that have a keyword; and the number of keywords
    of a document that at least three documents of the list have. *)
Definition documentKeywords (item : NewsItem) : list (list N) :=
  Set_new (extractKeywords (title item ++ js " " ++ description item)).

Definition documentFrequency (items : list NewsItem) (kw : list N) : nat :=
  length (List.filter (fun item => bool_decide (kw ∈ documentKeywords item)) items).

Definition trendingHitsOf (items : list NewsItem) (item : NewsItem) : nat :=
  length (List.filter (fun kw => bool_decide (3 <= documentFrequency items kw))
            (documentKeywords item)).

(** What [escapeHtml] makes of one code unit. *)
Definition escapeUnit (c : N) : list N :=
  if (c =? 38)%N then js "&amp;"
  else if (c =? 60)%N then js "&lt;"
  else if (c =? 62)%N then js "&gt;"
  else [c].

(** The bar of [scoreBar] with [filled] full cells out of five. *)
Definition barOf (filled : Z) : list N :=
  replicate (Z.to_nat filled) 9608%N ++ replicate (Z.to_nat (5 - filled)) 9617%N.

(** The entries that the loop of [sendNews] appends: every formatted item
    followed by an empty line. *)
Definition entriesOf (formatted : list (list N)) : list (list N) :=
  map (fun f => f ++ [10; 10]%N) formatted.

(** The names of the sources of a category, in the order of the list. *)
Definition namesIn (c : list N) (sources : list Telegram.SourceEntry)
  : list (list N) :=
  map Telegram.name
    (List.filter (fun s => bool_decide (Telegram.category s = c)) sources).

(** The key by which [deduplicateByUrl] tells links apart. *)
Definition linkKey {caseMapping : CaseMapping} (item : NewsItem) : list N :=
  normalizeUrl (link item).

(** What a settled fetch contributes to [allItems]. *)
Definition valuesOf {A} (result : Settled (list A)) : list A :=
  match result with
  | fulfilled value => value
  | rejected => []
  end.

(** The fetcher that [fetchAll] calls for a source. *)
Definition fetcherOf
    (fetchRSS fetchReddit fetchHTTP : Fetcher.FeedSource -> Settled (list NewsItem))
    (source : Fetcher.FeedSource) : Settled (list NewsItem) :=
  match Fetcher.type source with
  | Fetcher.rss => fetchRSS source
  | Fetcher.reddit => fetchReddit source
  | Fetcher.http => fetchHTTP source
  end.

(** Crashes that are all within one window of each other. *)
Definition burst (times : list Z) : Prop :=
  ∀ t t', t ∈ times -> t' ∈ times -> (t' - t < Runner.CRASH_WINDOW)%Z.

(** The delay before the restart after the [n]-th crash of a burst. *)
Definition burstDelay (n : nat) : Z :=
  if n <? 5 then 3000%Z
  else Z.min (3000 * 2 ^ (Z.of_nat n - 4)) 60000.

(** The age in milliseconds of a document, and the decay of the recency
    score before [Math.max] and [Math.round], as a function of that age. *)
Definition ageOf (now : Z) (item : NewsItem) : Z := (now - publishedAt item)%Z.

Definition decayOf (d : Z) : Q :=
  double (20 * double (1 - double (double (double (inject_Z d) / 3600000) / 24))).

(** The decay of the design document, in exact arithmetic. *)
Definition linearDecay (d : Z) : Q := (20 * (1 - inject_Z d / 3600000 / 24))%Q.

(** The case mapping on texts of Basic Latin and Latin-1 units, which is
    [toLowerCase] there; the links of the sample documents are such
    texts. *)
Definition latinCase : CaseMapping := toLowerCase.

(** Sample documents, to instantiate the properties: a document published
    at a given time, and one with a given title, source and score. *)
Definition newsAt (t : Z) : NewsItem :=
  mkNewsItem (js "Markets rally after surprise rate cut")
    (js "https://example.com/markets/") (js "Example Wire") t []
    0 (mkScoreBreakdown 0 0 0 0 0).

Definition story (t src : string) (relevance : Z) : NewsItem :=
  mkNewsItem (js t) (js ("https://example.com/" ++ t)) (js src) 0 []
    relevance (mkScoreBreakdown 0 0 0 0 relevance).

(** * Properties *)

(** ** Arrays and sets *)

Section ArrayFacts.

Context {A B : Type}.

(** A [some] whose callback only reads a parallel array at the index is
    an [existsb] over the elements. *)
Lemma someFrom_parallel (g : option B -> bool) (h : A -> B) (pre l : list A) :
  someFrom (fun _ idx => g (map h (pre ++ l) !! idx)) (length pre) l
  = existsb (fun x => g (Some (h x))) l.
Proof.
  revert pre. induction l as [|x r IH]; intros pre; simpl; [done|].
  f_equal.
  - rewrite list_lookup_fmap, lookup_app_r, Nat.sub_diag by lia. done.
  - specialize (IH (pre ++ [x])).
    rewrite length_app, <- app_assoc in IH. simpl in IH.
    rewrite Nat.add_1_r in IH. exact IH.
Qed.

Lemma some_parallel (g : option B -> bool) (h : A -> B) (l : list A) :
  some (fun _ idx => g (map h l !! idx)) l
  = existsb (fun x => g (Some (h x))) l.
Proof. exact (someFrom_parallel g h [] l). Qed.

Lemma existsb_false_Forall (p : A -> bool) (l : list A) :
  existsb p l = false <-> Forall (fun x => p x = false) l.
Proof.
  induction l as [|x r IH]; simpl.
  - split; [constructor | done].
  - rewrite orb_false_iff, IH, Forall_cons. done.
Qed.

Lemma existsb_pointwise (p q : A -> bool) (l : list A) :
  (∀ x, p x = q x) -> existsb p l = existsb q l.
Proof.
  intros Hpq. induction l as [|x r IH]; simpl; [done|]. by rewrite Hpq, IH.
Qed.

End ArrayFacts.

Section SortFacts.

Context {A : Type} (key : A -> Z).

Lemma insertDesc_Permutation x l : insertDesc key x l ≡ₚ x :: l.
Proof.
  induction l as [|y r IH]; simpl; [done|].
  destruct (key x <? key y)%Z; [|done].
  rewrite IH. apply Permutation_swap.
Qed.

Lemma sortDesc_Permutation l : sortDesc key l ≡ₚ l.
Proof.
  induction l as [|x r IH]; simpl; [done|].
  rewrite insertDesc_Permutation. by f_equiv.
Qed.

Lemma insertDesc_sorted x l :
  StronglySorted (descending key) l -> StronglySorted (descending key) (insertDesc key x l).
Proof.
  induction l as [|y r IH]; intros Hs; simpl.
  - repeat constructor.
  - apply StronglySorted_inv in Hs as [Hr Hy].
    destruct (key x <? key y)%Z eqn:E.
    + constructor; [by apply IH|].
      rewrite insertDesc_Permutation. constructor; [|done].
      unfold descending. lia.
    + constructor; [by constructor|].
      constructor; [unfold descending; lia|].
      eapply Forall_impl; [exact Hy|]. unfold descending. intros; simpl in *. lia.
Qed.

Lemma sortDesc_sorted l : StronglySorted (descending key) (sortDesc key l).
Proof.
  induction l as [|x r IH]; simpl; [constructor|]. by apply insertDesc_sorted.
Qed.

(** The sort leaves an array alone that is in descending order already:
    this is where stability shows. *)
Lemma sortDesc_fixed l : StronglySorted (descending key) l -> sortDesc key l = l.
Proof.
  induction l as [|x r IH]; intros Hs; simpl; [done|].
  apply StronglySorted_inv in Hs as [Hr Hx].
  rewrite IH by done.
  destruct r as [|y r']; simpl; [done|].
  apply Forall_cons in Hx as [Hxy _]. unfold descending in Hxy.
  destruct (key x <? key y)%Z eqn:E; [lia|done].
Qed.

Lemma sublist_descending l k :
  l `sublist_of` k -> StronglySorted (descending key) k -> StronglySorted (descending key) l.
Proof.
  intros Hsub. induction Hsub as [|x l k Hlk IH|x l k Hlk IH]; intros Hs.
  - constructor.
  - apply StronglySorted_inv in Hs as [Hk Hx].
    constructor; [by apply IH|].
    apply Forall_forall. intros y Hy.
    rewrite Forall_forall in Hx. apply Hx.
    by apply (sublist_subseteq _ _ Hlk).
  - apply StronglySorted_inv in Hs as [Hk _]. by apply IH.
Qed.

End SortFacts.

Section SetFacts.

Implicit Types (s l : list (list N)) (x y : list N).

Lemma Set_has_true s x : Set_has s x = true <-> x ∈ s.
Proof. unfold Set_has. apply bool_decide_eq_true. Qed.

Lemma Set_add_elem s x y : y ∈ Set_add s x <-> y ∈ s ∨ y = x.
Proof.
  unfold Set_add. destruct (Set_has s x) eqn:E.
  - apply Set_has_true in E. split; [by left|]. intros [?| ->]; done.
  - rewrite elem_of_app, list_elem_of_singleton. done.
Qed.

Lemma Set_add_nil x : Set_add [] x = [x].
Proof.
  unfold Set_add, Set_has. rewrite bool_decide_false; [done|]. apply not_elem_of_nil.
Qed.

Lemma Set_add_NoDup s x : NoDup s -> NoDup (Set_add s x).
Proof.
  intros Hs. unfold Set_add. destruct (Set_has s x) eqn:E; [done|].
  apply NoDup_app. split; [done|]. split; [|apply NoDup_singleton].
  intros y Hy Hx. apply list_elem_of_singleton in Hx as ->.
  apply Set_has_true in Hy. congruence.
Qed.

Lemma foldl_Set_add_elem l s y : y ∈ foldl Set_add s l <-> y ∈ s ∨ y ∈ l.
Proof.
  revert s. induction l as [|x r IH]; intros s; simpl.
  - rewrite elem_of_nil. tauto.
  - rewrite IH, Set_add_elem, elem_of_cons. tauto.
Qed.

Lemma foldl_Set_add_NoDup l s : NoDup s -> NoDup (foldl Set_add s l).
Proof.
  revert s. induction l as [|x r IH]; intros s Hs; simpl; [done|].
  by apply IH, Set_add_NoDup.
Qed.

Lemma Set_new_elem l y : y ∈ Set_new l <-> y ∈ l.
Proof. unfold Set_new. rewrite foldl_Set_add_elem, elem_of_nil. tauto. Qed.

Lemma Set_new_NoDup l : NoDup (Set_new l).
Proof. apply foldl_Set_add_NoDup, NoDup_nil_2. Qed.

Lemma Set_new_to_set l : list_to_set (Set_new l) =@{gset (list N)} list_to_set l.
Proof. apply set_eq. intros y. rewrite !elem_of_list_to_set. apply Set_new_elem. Qed.

Lemma Set_size_new l : Set_size (Set_new l) = size (list_to_set l : gset (list N)).
Proof.
  unfold Set_size. rewrite <- Set_new_to_set.
  symmetry. apply size_list_to_set, Set_new_NoDup.
Qed.

Lemma filter_decide (P : list N -> Prop) `{!∀ x, Decision (P x)} l :
  List.filter (fun x => bool_decide (P x)) l = filter P l.
Proof.
  induction l as [|x r IH]; simpl; [done|].
  rewrite filter_cons, IH. destruct (decide (P x)) as [HP|HP].
  - by rewrite bool_decide_true.
  - by rewrite bool_decide_false.
Qed.

Lemma foldl_count (p : list N -> bool) l n :
  foldl (fun n w => if p w then S n else n) n l = n + length (List.filter p l).
Proof.
  revert n. induction l as [|x r IH]; intros n; simpl; [lia|].
  rewrite IH. destruct (p x); simpl; lia.
Qed.

(** The counting loop of the two metrics computes the size of the
    intersection. *)
Lemma countShared_size l k :
  countShared (Set_new l) (Set_new k)
  = size (list_to_set l ∩ list_to_set k : gset (list N)).
Proof.
  unfold countShared, Set_has. rewrite foldl_count, filter_decide. simpl.
  rewrite <- (size_list_to_set (C:=gset (list N)))
    by apply NoDup_filter, Set_new_NoDup.
  f_equal. apply set_eq. intros y.
  rewrite elem_of_list_to_set, list_elem_of_filter, elem_of_intersection,
    !elem_of_list_to_set, !Set_new_elem. tauto.
Qed.

Lemma union_size l k :
  Set_size (Set_new (Set_new l ++ Set_new k))
  = size (list_to_set l ∪ list_to_set k : gset (list N)).
Proof.
  rewrite Set_size_new, list_to_set_app_L, !Set_new_to_set. done.
Qed.

Lemma size_zero_empty (X : gset (list N)) : size X = 0 <-> X = ∅.
Proof. rewrite size_empty_iff. apply leibniz_equiv_iff. Qed.

Lemma empty_test l k :
  (Set_size (Set_new l) =? 0) || (Set_size (Set_new k) =? 0) = true
  <-> list_to_set l = (∅ : gset (list N)) ∨ list_to_set k = (∅ : gset (list N)).
Proof.
  rewrite orb_true_iff, !Nat.eqb_eq, !Set_size_new, !size_zero_empty. done.
Qed.

(** [jaccardSimilarity] and [overlapCoefficient] compute the two metrics
    on the sets of the words they are given. *)
Lemma jaccardSimilarity_spec l k :
  jaccardSimilarity l k = Jaccard (list_to_set l) (list_to_set k).
Proof.
  unfold jaccardSimilarity, Jaccard. cbv zeta.
  destruct (decide _) as [He|Hne].
  - apply empty_test in He. by rewrite He.
  - rewrite <- empty_test in Hne. apply not_true_is_false in Hne. rewrite Hne.
    rewrite countShared_size, union_size.
    destruct (0 <? _) eqn:E; [done|].
    apply Nat.ltb_ge in E. apply orb_false_iff in Hne as [Hl _].
    apply Nat.eqb_neq in Hl. rewrite Set_size_new in Hl.
    assert (size (list_to_set l : gset (list N))
            <= size (list_to_set l ∪ list_to_set k : gset (list N)))
      by (apply subseteq_size; set_solver).
    lia.
Qed.

Lemma overlapCoefficient_spec l k :
  overlapCoefficient l k = Overlap (list_to_set l) (list_to_set k).
Proof.
  unfold overlapCoefficient, Overlap. cbv zeta.
  destruct (decide _) as [He|Hne].
  - apply empty_test in He. by rewrite He.
  - rewrite <- empty_test in Hne. apply not_true_is_false in Hne. rewrite Hne.
    by rewrite countShared_size, !Set_size_new.
Qed.

Lemma Jaccard_sym X Y : Jaccard X Y = Jaccard Y X.
Proof.
  unfold Jaccard.
  rewrite (comm_L (∩) X Y), (comm_L (∪) X Y).
  destruct (decide (X = ∅ ∨ Y = ∅)), (decide (Y = ∅ ∨ X = ∅)); tauto || done.
Qed.

Lemma Overlap_sym X Y : Overlap X Y = Overlap Y X.
Proof.
  unfold Overlap.
  rewrite (comm_L (∩) X Y), (Nat.min_comm (size X)).
  destruct (decide (X = ∅ ∨ Y = ∅)), (decide (Y = ∅ ∨ X = ∅)); tauto || done.
Qed.

Lemma geq_true (p q : Q) : geq p q = true <-> (q <= p)%Q.
Proof. apply Qle_bool_iff. Qed.

End SetFacts.

(** ** The duplicate tests *)

Lemma finalDuplicate_sym l k : finalDuplicate l k = finalDuplicate k l.
Proof.
  unfold finalDuplicate.
  by rewrite !jaccardSimilarity_spec, !overlapCoefficient_spec,
    (Jaccard_sym (list_to_set l)), (Overlap_sym (list_to_set l)).
Qed.

Lemma areSimilar_sym a b : areSimilar a b = areSimilar b a.
Proof.
  unfold areSimilar. cbv zeta.
  rewrite !jaccardSimilarity_spec, !overlapCoefficient_spec.
  rewrite (orb_comm (length (extractSignificantWords a) <=? 2)).
  by rewrite (Jaccard_sym (list_to_set (extractSignificantWords a))),
    (Overlap_sym (list_to_set (extractSignificantWords a))).
Qed.

(** ** Greedy selection *)

Section GreedyFacts.

Context {A : Type} (dup : A -> A -> bool).

Lemma duplicateFree_snoc kept x :
  duplicateFree dup (kept ++ [x])
  <-> duplicateFree dup kept ∧ existsb (dup x) kept = false.
Proof.
  unfold duplicateFree. rewrite StronglySorted_app, existsb_false_Forall, Forall_forall.
  split.
  - intros (H & Hk & _). split; [done|]. intros y Hy.
    apply (H y x); [done | by apply list_elem_of_singleton].
  - intros (Hk & H). split; [|split; [done|repeat constructor]].
    intros y z Hy Hz. apply list_elem_of_singleton in Hz as ->.
    by apply H.
Qed.

Lemma keepNew_duplicateFree kept x :
  duplicateFree dup kept -> duplicateFree dup (keepNew dup kept x).
Proof.
  intros Hk. unfold keepNew. destruct (existsb _ _) eqn:E; [done|].
  by apply duplicateFree_snoc.
Qed.

Lemma greedy_duplicateFree kept l :
  duplicateFree dup kept -> duplicateFree dup (greedy dup kept l).
Proof.
  revert kept. induction l as [|x r IH]; intros kept Hk; simpl; [done|].
  by apply IH, keepNew_duplicateFree.
Qed.

(** On a list without duplicates the selection keeps everything. *)
Lemma greedy_fixed kept l :
  duplicateFree dup (kept ++ l) -> greedy dup kept l = kept ++ l.
Proof.
  revert kept. induction l as [|x r IH]; intros kept Hk; simpl.
  - by rewrite app_nil_r.
  - assert (Hx : duplicateFree dup (kept ++ [x])).
    { unfold duplicateFree in *. rewrite (assoc_L (++) kept [x] r : kept ++ x :: r = _) in Hk.
      by apply StronglySorted_app_1_l in Hk. }
    apply duplicateFree_snoc in Hx as [_ Hx].
    unfold keepNew. rewrite Hx.
    rewrite IH; [by rewrite <- app_assoc|].
    by rewrite <- app_assoc.
Qed.

Lemma greedy_app kept l l' :
  greedy dup kept (l ++ l') = greedy dup (greedy dup kept l) l'.
Proof. unfold greedy. apply foldl_app. Qed.

Lemma greedy_snoc kept l x :
  greedy dup kept (l ++ [x]) = keepNew dup (greedy dup kept l) x.
Proof. unfold greedy. by rewrite foldl_snoc. Qed.

(** The selection extends what is kept by a subsequence of the input. *)
Lemma greedy_sublist kept l :
  ∃ l', greedy dup kept l = kept ++ l' ∧ l' `sublist_of` l.
Proof.
  revert kept. induction l as [|x r IH]; intros kept; simpl.
  - exists []. by rewrite app_nil_r.
  - destruct (IH (keepNew dup kept x)) as (l' & -> & Hsub).
    unfold keepNew. destruct (existsb _ _).
    + exists l'. split; [done|]. by apply sublist_cons.
    + exists (x :: l'). rewrite <- app_assoc. split; [done|]. by apply sublist_skip.
Qed.

(** In a list without duplicates, an element is no duplicate of any
    element before it. *)
Lemma duplicateFree_lookup l i j a b :
  duplicateFree dup l -> i < j -> l !! i = Some a -> l !! j = Some b ->
  dup b a = false.
Proof.
  intros Hl Hij Ha Hb.
  rewrite <- (take_drop j l) in Hl. unfold duplicateFree in Hl.
  apply (StronglySorted_app_1_elem_of _ _ _ a b) in Hl; [done| |].
  - apply list_elem_of_lookup. exists i. by rewrite lookup_take_lt.
  - apply list_elem_of_lookup. exists 0. by rewrite lookup_drop, Nat.add_0_r.
Qed.

End GreedyFacts.

(** ** The loops of the two passes are greedy selections *)

Lemma some_self {A} (g : option A -> bool) (l : list A) :
  some (fun _ idx => g (l !! idx)) l = existsb (fun x => g (Some x)) l.
Proof.
  pose proof (some_parallel g id l) as H. by rewrite map_id in H.
Qed.

Lemma dedupStep_keepNew kept keptWords x :
  fst (dedupStep (kept, keptWords) x) = keepNew similarItems kept x.
Proof.
  unfold dedupStep, keepNew.
  rewrite (some_self (fun o => match o with
                               | Some k => areSimilar (title x) (title k)
                               | None => false
                               end) kept).
  fold (similarItems x). by destruct (existsb _ _).
Qed.

Lemma dedup_loop l kept keptWords :
  fst (foldl dedupStep (kept, keptWords) l) = greedy similarItems kept l.
Proof.
  revert kept keptWords. induction l as [|x r IH]; intros kept keptWords; [done|].
  change (foldl dedupStep (kept, keptWords) (x :: r))
    with (foldl dedupStep (dedupStep (kept, keptWords) x) r).
  change (greedy similarItems kept (x :: r))
    with (greedy similarItems (keepNew similarItems kept x) r).
  rewrite <- dedupStep_keepNew with (keptWords := keptWords).
  destruct (dedupStep (kept, keptWords) x) as [kept' keptWords']. apply IH.
Qed.

Lemma finalStep_keepNew result x :
  finalStep (result, map (fun k => extractSignificantWords (title k)) result) x
  = (keepNew finalDuplicateItems result x,
     map (fun k => extractSignificantWords (title k))
       (keepNew finalDuplicateItems result x)).
Proof.
  unfold finalStep, keepNew.
  rewrite (some_parallel
             (fun o => finalDuplicate (extractSignificantWords (title x)) (default [] o))
             (fun k => extractSignificantWords (title k)) result).
  simpl. fold (finalDuplicateItems x).
  destruct (existsb _ _); [done|]. by rewrite map_app.
Qed.

Lemma final_loop l result :
  fst (foldl finalStep
         (result, map (fun k => extractSignificantWords (title k)) result) l)
  = greedy finalDuplicateItems result l.
Proof.
  revert result. induction l as [|x r IH]; intros result; [done|].
  change (foldl finalStep ?st (x :: r)) with (foldl finalStep (finalStep st x) r).
  rewrite finalStep_keepNew. apply IH.
Qed.

Lemma deduplicateBySimilarity_greedy items :
  deduplicateBySimilarity items
  = greedy similarItems [] (sortDesc relevanceScore items).
Proof.
  unfold deduplicateBySimilarity. destruct items as [|x r]; [done|].
  cbn [length Nat.eqb]. apply dedup_loop.
Qed.

Lemma finalDedup_greedy items :
  finalDedup items = greedy finalDuplicateItems [] items.
Proof.
  unfold finalDedup. destruct items as [|x r]; [done|].
  cbn [length Nat.eqb]. apply (final_loop _ []).
Qed.

Lemma deduplicateBySimilarity_duplicateFree items :
  duplicateFree similarItems (deduplicateBySimilarity items).
Proof.
  rewrite deduplicateBySimilarity_greedy. apply greedy_duplicateFree. constructor.
Qed.

Lemma finalDedup_duplicateFree items :
  duplicateFree finalDuplicateItems (finalDedup items).
Proof.
  rewrite finalDedup_greedy. apply greedy_duplicateFree. constructor.
Qed.

Lemma deduplicateBySimilarity_sorted items :
  StronglySorted (descending relevanceScore) (deduplicateBySimilarity items).
Proof.
  rewrite deduplicateBySimilarity_greedy.
  destruct (greedy_sublist similarItems [] (sortDesc relevanceScore items))
    as (l' & -> & Hsub).
  simpl. eapply sublist_descending; [exact Hsub|]. apply sortDesc_sorted.
Qed.

Lemma deduplicateBySimilarity_subset items x :
  x ∈ deduplicateBySimilarity items -> x ∈ items.
Proof.
  rewrite deduplicateBySimilarity_greedy.
  destruct (greedy_sublist similarItems [] (sortDesc relevanceScore items))
    as (l' & -> & Hsub).
  simpl. intros Hx. apply (sublist_subseteq _ _ Hsub) in Hx.
  by rewrite sortDesc_Permutation in Hx.
Qed.

Lemma pairwise_distinct {A} (dup : A -> A -> bool) (l : list A) :
  (∀ x y, dup x y = dup y x) -> duplicateFree dup l ->
  ∀ i j a b, i ≠ j -> l !! i = Some a -> l !! j = Some b -> dup a b = false.
Proof.
  intros Hsym Hl i j a b Hij Ha Hb.
  destruct (decide (i < j)) as [Hlt|Hge].
  - rewrite Hsym. by eapply duplicateFree_lookup.
  - eapply duplicateFree_lookup; [exact Hl| |exact Hb|exact Ha]. lia.
Qed.

(** ** C3 *)

(** C3. Both deduplication passes are idempotent, and in the output of
    either pass no two items at distinct positions satisfy the duplicate
    test of the pass, in either direction. *)
Theorem dedup_passes_idempotent (x : list NewsItem) :
  deduplicateBySimilarity (deduplicateBySimilarity x) = deduplicateBySimilarity x
  ∧ finalDedup (finalDedup x) = finalDedup x
  ∧ (∀ i j a b, i ≠ j ->
       deduplicateBySimilarity x !! i = Some a ->
       deduplicateBySimilarity x !! j = Some b ->
       areSimilar (title a) (title b) = false)
  ∧ (∀ i j a b, i ≠ j ->
       finalDedup x !! i = Some a ->
       finalDedup x !! j = Some b ->
       finalDuplicate (extractSignificantWords (title a))
         (extractSignificantWords (title b)) = false).
Proof.
  split; [|split; [|split]].
  - rewrite (deduplicateBySimilarity_greedy (deduplicateBySimilarity x)).
    rewrite sortDesc_fixed by apply deduplicateBySimilarity_sorted.
    apply (greedy_fixed similarItems []), deduplicateBySimilarity_duplicateFree.
  - rewrite (finalDedup_greedy (finalDedup x)).
    apply (greedy_fixed finalDuplicateItems []), finalDedup_duplicateFree.
  - apply (pairwise_distinct similarItems).
    + intros a b. apply areSimilar_sym.
    + apply deduplicateBySimilarity_duplicateFree.
  - apply (pairwise_distinct finalDuplicateItems).
    + intros a b. apply finalDuplicate_sym.
    + apply finalDedup_duplicateFree.
Qed.

(** ** The decision surface of [areSimilar] *)

Lemma areSimilar_eq a b :
  areSimilar a b
  = if (length (extractSignificantWords a) <=? 2)
       || (length (extractSignificantWords b) <=? 2)
    then geq (Jaccard (wordSet a) (wordSet b)) 0.6
    else geq (Jaccard (wordSet a) (wordSet b)) 0.35
         || geq (Overlap (wordSet a) (wordSet b)) 0.65
         || (geq (Jaccard (wordSet a) (wordSet b)) 0.25
             && geq (Overlap (wordSet a) (wordSet b)) 0.5).
Proof.
  unfold areSimilar, wordSet. cbv zeta.
  rewrite !jaccardSimilarity_spec, !overlapCoefficient_spec.
  destruct (_ || _); [done|].
  destruct (geq (Jaccard _ _) 0.35); [done|].
  destruct (geq (Overlap _ _) 0.65); [done|].
  by destruct (_ && _).
Qed.

Lemma short_test (wordsA wordsB : list (list N)) :
  (length wordsA <=? 2) || (length wordsB <=? 2) = true
  <-> length wordsA <= 2 ∨ length wordsB <= 2.
Proof. by rewrite orb_true_iff, !Nat.leb_le. Qed.

(** C4. [areSimilar] decides the surface of the design document: with at
    most two significant words on either side, Jaccard >= 0.6; otherwise
    Jaccard >= 0.35, or Overlap >= 0.65, or Jaccard >= 0.25 together with
    Overlap >= 0.5.  The two metrics are those of the sets of significant
    words, and are 0 when either set is empty. *)
Theorem areSimilar_surface (titleA titleB : list N) :
  let wordsA := extractSignificantWords titleA in
  let wordsB := extractSignificantWords titleB in
  let J := Jaccard (wordSet titleA) (wordSet titleB) in
  let O := Overlap (wordSet titleA) (wordSet titleB) in
  (areSimilar titleA titleB = true <->
   if decide (length wordsA <= 2 ∨ length wordsB <= 2)
   then (0.6 <= J)%Q
   else (0.35 <= J)%Q ∨ (0.65 <= O)%Q ∨ ((0.25 <= J)%Q ∧ (0.5 <= O)%Q))
  ∧ jaccardSimilarity wordsA wordsB = J
  ∧ overlapCoefficient wordsA wordsB = O
  ∧ (if decide (wordSet titleA = ∅ ∨ wordSet titleB = ∅)
     then J = 0%Q ∧ O = 0%Q
     else J = (num (size (wordSet titleA ∩ wordSet titleB))
               / num (size (wordSet titleA ∪ wordSet titleB)))%Q
          ∧ O = (num (size (wordSet titleA ∩ wordSet titleB))
                 / num (size (wordSet titleA) `min` size (wordSet titleB)))%Q).
Proof.
  intros wordsA wordsB J O. split; [|split; [|split]].
  - rewrite areSimilar_eq. fold wordsA wordsB J O.
    destruct (decide _) as [Hs|Hl].
    + apply short_test in Hs. rewrite Hs. apply geq_true.
    + rewrite <- short_test in Hl. apply not_true_is_false in Hl. rewrite Hl.
      rewrite !orb_true_iff, andb_true_iff, !geq_true. tauto.
  - apply jaccardSimilarity_spec.
  - apply overlapCoefficient_spec.
  - subst J O. unfold Jaccard, Overlap. by destruct (decide _).
Qed.

(** ** Identical titles *)

Lemma num_ratio_one n : n ≠ 0 -> (num n / num n == 1)%Q.
Proof.
  intros Hn. apply Qmult_inv_r. unfold num, Qeq. simpl. lia.
Qed.

Lemma Jaccard_self X : X ≠ ∅ -> (Jaccard X X == 1)%Q.
Proof.
  intros HX. unfold Jaccard. destruct (decide _) as [[?|?]|_]; [done..|].
  rewrite (idemp_L (∩) X), (idemp_L (∪) X).
  apply num_ratio_one. by rewrite size_zero_empty.
Qed.

Lemma wordSet_empty t : wordSet t = ∅ <-> extractSignificantWords t = [].
Proof.
  unfold wordSet. split.
  - intros H. destruct (extractSignificantWords t) as [|w ws]; [done|].
    exfalso. assert (w ∈ (∅ : gset (list N))) by (rewrite <- H; set_solver).
    set_solver.
  - by intros ->.
Qed.

(** C2, as the code has it. For every title with at least one significant
    word, [areSimilar] holds between the title and itself, also when there
    are only one or two such words. *)
Theorem areSimilar_identical_titles (title : list N) :
  extractSignificantWords title ≠ [] -> areSimilar title title = true.
Proof.
  intros Hne. rewrite areSimilar_eq.
  assert (HJ : (Jaccard (wordSet title) (wordSet title) == 1)%Q)
    by (apply Jaccard_self; by rewrite wordSet_empty).
  assert (H6 : geq (Jaccard (wordSet title) (wordSet title)) 0.6 = true)
    by (apply geq_true; rewrite HJ; done).
  assert (H35 : geq (Jaccard (wordSet title) (wordSet title)) 0.35 = true)
    by (apply geq_true; rewrite HJ; done).
  rewrite H6, H35. by destruct (_ || _).
Qed.

Lemma areSimilar_identical_titles_witness :
  areSimilar (js "Trump tariffs") (js "Trump tariffs") = true.
Proof. apply areSimilar_identical_titles. vm_compute. discriminate. Defined.

(** C2 as stated fails: a title without significant words is not similar
    to itself. *)
Lemma areSimilar_identical_titles_counterexample :
  extractSignificantWords (js "Is it over?") = []
  ∧ areSimilar (js "Is it over?") (js "Is it over?") = false.
Proof. split; vm_compute; reflexivity. Qed.

(** ** The final pass *)

Lemma finalDuplicateItems_spec x k :
  finalDuplicateItems x k
  = finalPassDuplicate (wordSet (title x)) (wordSet (title k)).
Proof.
  unfold finalDuplicateItems, finalDuplicate, finalPassDuplicate, wordSet.
  cbv zeta. by rewrite !jaccardSimilarity_spec, !overlapCoefficient_spec.
Qed.

Lemma finalDedup_snoc pre x :
  finalDedup (pre ++ [x])
  = if existsb
         (fun k => finalPassDuplicate (wordSet (title x)) (wordSet (title k)))
         (finalDedup pre)
    then finalDedup pre
    else finalDedup pre ++ [x].
Proof.
  rewrite !finalDedup_greedy, greedy_snoc. unfold keepNew.
  rewrite (existsb_pointwise _ _ _ (finalDuplicateItems_spec x)). done.
Qed.

Lemma finalDedup_prefix pre post :
  finalDedup pre `prefix_of` finalDedup (pre ++ post).
Proof.
  rewrite !finalDedup_greedy, greedy_app.
  destruct (greedy_sublist finalDuplicateItems
              (greedy finalDuplicateItems [] pre) post) as (l' & -> & _).
  by exists l'.
Qed.

(** C7. [finalDedup] returns a subsequence of its input, in the order of
    the input.  When the loop reaches an item [x], after the items [pre],
    it keeps [x] exactly when no item kept from [pre] has, against the
    words of [x], Jaccard >= 0.3, or Overlap >= 0.6, or Jaccard >= 0.2
    together with Overlap >= 0.45; and what has been decided by then is not
    revised by the items that follow. *)
Theorem finalDedup_keeps_input_order (items : list NewsItem) :
  finalDedup items `sublist_of` items
  ∧ ∀ pre x post, items = pre ++ x :: post ->
      finalDedup (pre ++ [x])
      = (if existsb
              (fun k =>
                 let J := Jaccard (wordSet (title x)) (wordSet (title k)) in
                 let O := Overlap (wordSet (title x)) (wordSet (title k)) in
                 geq J 0.3 || geq O 0.6 || (geq J 0.2 && geq O 0.45))
              (finalDedup pre)
         then finalDedup pre
         else finalDedup pre ++ [x])
      ∧ finalDedup (pre ++ [x]) `prefix_of` finalDedup items.
Proof.
  split.
  - rewrite finalDedup_greedy.
    by destruct (greedy_sublist finalDuplicateItems [] items) as (l' & -> & Hsub).
  - intros pre x post ->. split.
    + apply finalDedup_snoc.
    + rewrite (cons_middle x pre post), app_assoc. apply finalDedup_prefix.
Qed.

(** ** Cross-feed scores *)

Section LoopFacts.

Context {A : Type}.

(** A loop that stores one value per index fills exactly the indices of
    the array. *)
Lemma forFrom_insert (f : nat -> A -> Z) (start : nat) (arr : list A)
    (m : gmap nat Z) (k : nat) :
  forFrom (fun i x (scores : gmap nat Z) => <[i := f i x]> scores) start arr m !! k
  = if decide (start <= k < start + length arr)
    then f k <$> arr !! (k - start)
    else m !! k.
Proof.
  revert start m. induction arr as [|x r IH]; intros start m; simpl.
  - destruct (decide _); [lia|done].
  - rewrite IH. destruct (decide (S start <= k < S start + length r)) as [H1|H1].
    + destruct (decide _) as [_|H2]; [|lia].
      replace (k - start) with (S (k - S start)) by lia. done.
    + destruct (decide (start <= k < start + S (length r))) as [H2|H2].
      * assert (k = start) as -> by lia.
        rewrite Nat.sub_diag, lookup_insert_eq. done.
      * rewrite lookup_insert_ne by lia. done.
Qed.

Lemma forEachIndexed_insert (f : nat -> A -> Z) (arr : list A) (k : nat) :
  forEachIndexed (fun i x (scores : gmap nat Z) => <[i := f i x]> scores) arr ∅ !! k
  = f k <$> arr !! k.
Proof.
  unfold forEachIndexed. rewrite forFrom_insert, Nat.sub_0_r.
  destruct (decide _) as [_|H]; [done|].
  rewrite lookup_empty, lookup_ge_None_2 by lia. done.
Qed.

End LoopFacts.

Section CrossFeedFacts.

Variables (i : nat) (itemI : NewsItem).

Local Abbreviation kwA := (Set_new (extractKeywords (title itemI))).

(** The test of the loop body is the matching test. *)
Lemma similarity_test itemJ :
  source itemJ ≠ source itemI ->
  geq (if 0 <? Set_size kwA
       then (num (length (List.filter (fun w => Set_has kwA w)
                            (extractKeywords (title itemJ))))
             / num (Set_size kwA))%Q
       else 0%Q) 0.4
  = matches itemI itemJ.
Proof.
  intros Hsrc. unfold matches, hitRatio, keywordHits.
  rewrite bool_decide_true by done. simpl.
  rewrite Set_size_new. fold (keywordSet (title itemI)).
  rewrite (List.filter_ext (fun w => Set_has (Set_new (extractKeywords (title itemI))) w)
             (fun w => bool_decide (w ∈ keywordSet (title itemI)))).
  - destruct (decide _) as [->|Hn]; [done|].
    destruct (0 <? _) eqn:E; [done|]. apply Nat.ltb_ge in E. lia.
  - intros w. unfold Set_has, keywordSet. apply bool_decide_ext.
    by rewrite Set_new_elem, elem_of_list_to_set.
Qed.

Lemma crossFeedStep_matched pre j itemJ st :
  (i = j -> source itemJ = source itemI) ->
  matchedUpTo itemI pre st ->
  matchedUpTo itemI (pre ++ [itemJ]) (crossFeedStep i itemI kwA j itemJ st).
Proof.
  intros Hij (Hnd & Hlen & Hel). destruct st as [crossCount matched].
  simpl in *.
  assert (Hmore : ∀ s, (∃ x, x ∈ pre ++ [itemJ] ∧ matches itemI x = true ∧ source x = s)
                       <-> (∃ x, x ∈ pre ∧ matches itemI x = true ∧ source x = s)
                           ∨ (matches itemI itemJ = true ∧ source itemJ = s)).
  { intros s. split.
    - intros (x & Hx & Hc & Hs). apply elem_of_app in Hx as [Hx|Hx].
      + left. eauto.
      + apply list_elem_of_singleton in Hx as ->. by right.
    - intros [(x & Hx & Hc & Hs)|[Hc Hs]].
      + exists x. rewrite elem_of_app. eauto.
      + exists itemJ. rewrite elem_of_app, list_elem_of_singleton. eauto. }
  assert (Hsame : ∀ s, matches itemI itemJ = false ->
                       (s ∈ matched <-> s = source itemI
                          ∨ ∃ x, x ∈ pre ++ [itemJ] ∧ matches itemI x = true ∧ source x = s)).
  { intros s Hc. rewrite Hel, Hmore, Hc. intuition congruence. }
  unfold crossFeedStep, matchedUpTo.
  destruct ((i =? j) || bool_decide (source itemJ = source itemI)) eqn:Eskip.
  - simpl. split; [done|]. split; [done|]. intros s. apply Hsame.
    unfold matches. apply andb_false_iff. left.
    apply bool_decide_eq_false. intros Hne. apply Hne.
    apply orb_true_iff in Eskip as [E|E].
    + apply Hij. by apply Nat.eqb_eq.
    + by apply bool_decide_eq_true in E.
  - apply orb_false_iff in Eskip as [_ Esrc].
    apply bool_decide_eq_false in Esrc.
    destruct (Set_has matched (source itemJ)) eqn:Ehas.
    + simpl. split; [done|]. split; [done|]. intros s.
      rewrite Hel, Hmore. apply Set_has_true in Ehas. apply Hel in Ehas.
      split; [tauto|]. intros [?|[?|[_ <-]]]; tauto.
    + rewrite similarity_test by done.
      destruct (matches itemI itemJ) eqn:Ec.
      * simpl. split; [by apply Set_add_NoDup|].
        unfold Set_add. rewrite Ehas, length_app. simpl.
        split; [lia|]. intros s.
        rewrite elem_of_app, list_elem_of_singleton, Hel, Hmore.
        intuition congruence.
      * simpl. split; [done|]. split; [done|]. intros s. by apply Hsame.
Qed.

Lemma crossFeed_loop rest pre start st :
  (∀ k x, rest !! k = Some x -> i = start + k -> source x = source itemI) ->
  matchedUpTo itemI pre st ->
  matchedUpTo itemI (pre ++ rest)
    (forFrom (crossFeedStep i itemI kwA) start rest st).
Proof.
  revert pre start st. induction rest as [|x r IH]; intros pre start st Hi Hst; simpl.
  - by rewrite app_nil_r.
  - rewrite (cons_middle x pre r), app_assoc. apply IH.
    + intros k y Hk Hik. apply (Hi (S k) y); [done|lia].
    + apply crossFeedStep_matched; [|done].
      intros Hij. apply (Hi 0 x); [done|lia].
Qed.

Lemma crossCountOf_size items :
  items !! i = Some itemI ->
  crossCountOf items i itemI = size (matchingSources items itemI).
Proof.
  intros Hi. unfold crossCountOf. unfold forEachIndexed.
  rewrite Set_add_nil.
  destruct (crossFeed_loop items [] 0 (0, [source itemI]))
    as (Hnd & Hlen & Hel).
  - intros k x Hk ->. simpl in Hi. congruence.
  - split; [|split]; simpl.
    + apply NoDup_singleton.
    + done.
    + intros s. rewrite list_elem_of_singleton. split; [by left|].
      intros [?|(x & Hx & _)]; [done|]. by apply elem_of_nil in Hx.
  - simpl in *.
    destruct (forFrom _ 0 items _) as [crossCount matched]. simpl in *.
    assert (Hset : list_to_set matched
                   = {[ source itemI ]} ∪ matchingSources items itemI).
    { apply set_eq. intros s.
      rewrite elem_of_list_to_set, Hel, elem_of_union, elem_of_singleton.
      unfold matchingSources.
      rewrite elem_of_list_to_set, list_elem_of_In, in_map_iff.
      apply or_iff_compat_l. split.
      - intros (x & Hx & Hc & Hs). exists x. split; [done|].
        apply filter_In. by rewrite <- list_elem_of_In.
      - intros (x & Hs & Hx). apply filter_In in Hx as [Hx Hc].
        exists x. by rewrite list_elem_of_In. }
    assert (Hsize : length matched = size (list_to_set matched : gset (list N)))
      by (symmetry; by apply size_list_to_set).
    rewrite Hset, size_union, size_singleton in Hsize; [lia|].
    apply disjoint_singleton_l. unfold matchingSources.
    rewrite elem_of_list_to_set, list_elem_of_In, in_map_iff.
    intros (x & Hs & Hx). apply filter_In in Hx as [_ Hc].
    unfold matches in Hc. apply andb_true_iff in Hc as [Hc _].
    by apply bool_decide_eq_true in Hc.
Qed.

End CrossFeedFacts.

(** When no keyword occurs twice in the other title, the shared keywords
    are the intersection of the two keyword sets. *)
Lemma keywordHits_distinct a b :
  NoDup (extractKeywords (title b)) ->
  keywordHits a b = size (keywordSet (title a) ∩ keywordSet (title b)).
Proof.
  intros Hnd. unfold keywordHits. rewrite filter_decide.
  rewrite <- (size_list_to_set (C:=gset (list N))) by by apply NoDup_filter.
  f_equal. apply set_eq. intros w.
  rewrite elem_of_list_to_set, list_elem_of_filter, elem_of_intersection.
  unfold keywordSet at 3. by rewrite elem_of_list_to_set.
Qed.

Lemma crossFeedTier_cases n :
  crossFeedTier n = match n with 0 => 0%Z | 1 => 30%Z | 2 => 40%Z | _ => 50%Z end.
Proof. by destruct n as [|[|[|n]]]. Qed.

Lemma crossFeedTier_mono n m : n <= m -> (crossFeedTier n <= crossFeedTier m)%Z.
Proof.
  intros Hnm. rewrite !crossFeedTier_cases.
  destruct n as [|[|[|n]]], m as [|[|[|m]]]; lia.
Qed.

Lemma computeCrossFeedScores_lookup items i :
  computeCrossFeedScores items !! i
  = (fun itemI => crossFeedTier (size (matchingSources items itemI)))
      <$> items !! i.
Proof.
  unfold computeCrossFeedScores.
  rewrite (forEachIndexed_insert
             (fun i itemI => crossFeedTier (crossCountOf items i itemI))).
  destruct (items !! i) as [itemI|] eqn:Hi; [|done].
  simpl. by rewrite crossCountOf_size.
Qed.

(** What [computeCrossFeedScores] computes.  The cross-feed score of
    document [i] is 0, 30, 40 or 50 according to whether 0, 1, 2 or at least
    3 distinct sources, other than its own, have a document that matches
    [i]: the number of keywords of the other title found in the keyword set
    of [i], over the size of that set, is at least 0.4.  A source counts
    once.  Hence the score does not decrease when the number of matching
    sources grows, and it is 0 when no document reaches 0.4.  The keywords
    of the other title are counted as they occur; when none occurs twice
    the count is the number of keywords that the two titles share. *)
Theorem crossFeed_score_tiers (items : list NewsItem) (i : nat) :
  computeCrossFeedScores items !! i
  = (fun itemI =>
       match size (matchingSources items itemI) with
       | 0 => 0%Z | 1 => 30%Z | 2 => 40%Z | _ => 50%Z
       end) <$> items !! i
  ∧ (∀ items' i' a b,
       items !! i = Some a -> items' !! i' = Some b ->
       size (matchingSources items a) <= size (matchingSources items' b) ->
       (default 0 (computeCrossFeedScores items !! i)
        <= default 0 (computeCrossFeedScores items' !! i'))%Z)
  ∧ (∀ a, items !! i = Some a ->
       (∀ b, b ∈ items -> source b ≠ source a ->
             geq (hitRatio a b) 0.4 = false) ->
       computeCrossFeedScores items !! i = Some 0%Z)
  ∧ (∀ a b, NoDup (extractKeywords (title b)) ->
       keywordHits a b = sharedKeywords a b).
Proof.
  split; [|split; [|split]]; [| | |apply keywordHits_distinct].
  - rewrite computeCrossFeedScores_lookup.
    destruct (items !! i); [|done]. simpl. by rewrite crossFeedTier_cases.
  - intros items' i' a b Ha Hb Hle.
    rewrite !computeCrossFeedScores_lookup, Ha, Hb. simpl.
    by apply crossFeedTier_mono.
  - intros a Ha Hnone. rewrite computeCrossFeedScores_lookup, Ha. simpl.
    replace (matchingSources items a) with (∅ : gset (list N)); [done|].
    unfold matchingSources.
    rewrite (List.filter_ext_in (matches a) (fun _ => false)).
    + by rewrite List.filter_false.
    + intros b Hb. apply list_elem_of_In in Hb. unfold matches.
      destruct (decide (source b = source a)) as [Heq|Hne].
      * by rewrite bool_decide_false by (intros Hn; by apply Hn).
      * rewrite (Hnone b Hb Hne). apply andb_false_r.
Qed.

(** C5. The code does not do what the claim says when a keyword occurs
    twice in the other title: [kwB] is an array, not a set, and the keyword
    is counted twice.  Of the five keywords of the first title below the
    second title shares one, an overlap of 0.2, so that no source
    corroborates the first document and the claim gives it 0; the code
    counts 2 hits, a ratio of 0.4, and gives it 30. *)
Theorem crossFeed_counts_repeats :
  let a := story "Ukraine peace talks resume Geneva" "Alpha" 0 in
  let b := story "Talks about talks" "Beta" 0 in
  extractKeywords (title a)
  = map js ["ukraine"; "peace"; "talks"; "resume"; "geneva"]%string
  ∧ extractKeywords (title b) = map js ["talks"; "talks"]%string
  ∧ sharedKeywords a b = 1
  ∧ (titleOverlap a b == 0.2)%Q
  ∧ crossFeedTier (size (corroboratingSources [a; b] a)) = 0%Z
  ∧ keywordHits a b = 2
  ∧ (hitRatio a b == 0.4)%Q
  ∧ computeCrossFeedScores [a; b] !! 0 = Some 30%Z.
Proof.
  cbv zeta.
  split; [vm_compute; reflexivity|]. split; [vm_compute; reflexivity|].
  split; [vm_compute; reflexivity|]. split; [vm_compute; reflexivity|].
  split; [vm_compute; reflexivity|]. split; [vm_compute; reflexivity|].
  split; [vm_compute; reflexivity|]. vm_compute. reflexivity.
Qed.

(** ** Doubles *)

Section DoubleFacts.

Local Open Scope Q_scope.

Lemma pow2_pos (z : Z) : 0 < 2 ^ z.
Proof. apply Qpower_0_lt. reflexivity. Qed.

Lemma pow2_add (a b : Z) : 2 ^ (a + b) == 2 ^ a * 2 ^ b.
Proof. apply Qpower_plus. discriminate. Qed.

Lemma pow2_succ (a : Z) : 2 ^ (a + 1) == 2 * 2 ^ a.
Proof. rewrite pow2_add. change (2 ^ 1) with 2. ring. Qed.

Lemma pow2_pred (a : Z) : 2 ^ (a - 1) == 2 ^ a / 2.
Proof.
  assert (H : 2 ^ a == 2 * 2 ^ (a - 1)).
  { rewrite <- pow2_succ. replace (a - 1 + 1)%Z with a by lia. reflexivity. }
  rewrite H. field.
Qed.

Lemma pow2_le (a b : Z) : (a <= b)%Z -> 2 ^ a <= 2 ^ b.
Proof.
  intros Hab. replace b with (a + (b - a))%Z by lia. rewrite pow2_add.
  assert (H1 : 1 <= 2 ^ (b - a)).
  { apply Qpower_1_le; [discriminate|lia]. }
  pose proof (pow2_pos a). nra.
Qed.

Lemma quotient_bounds (A B N D : Q) :
  0 < A -> 0 < B -> A <= N -> N < 2 * A -> B <= D -> D < 2 * B ->
  A / (2 * B) < N / D /\ N / D < 2 * A / B.
Proof.
  intros HA HB H1 H2 H3 H4.
  assert (HD : 0 < D) by lra.
  split.
  - apply Qlt_shift_div_l; [exact HD|].
    setoid_replace (A / (2 * B) * D) with (A * D / (2 * B))
      using relation Qeq by (field; lra).
    apply Qlt_shift_div_r; [lra|]. nra.
  - apply Qlt_shift_div_r; [exact HD|].
    setoid_replace (2 * A / B * D) with (2 * A * D / B)
      using relation Qeq by (field; lra).
    apply Qlt_shift_div_l; [exact HB|]. nra.
Qed.

Lemma ilog2_spec (x : Q) :
  0 < x -> 2 ^ ilog2 x <= x /\ x < 2 ^ (ilog2 x + 1).
Proof.
  intros Hx. unfold ilog2.
  destruct x as [n d]. cbn [Qnum Qden].
  assert (Hn : (0 < n)%Z) by (revert Hx; unfold Qlt; simpl; lia).
  set (ln := Z.log2 n). set (ld := Z.log2 (Z.pos d)).
  assert (Hln : (0 <= ln)%Z) by apply Z.log2_nonneg.
  assert (Hld : (0 <= ld)%Z) by apply Z.log2_nonneg.
  destruct (Z.log2_spec n Hn) as [Hn1 Hn2]. fold ln in Hn1, Hn2.
  destruct (Z.log2_spec (Z.pos d) eq_refl) as [Hd1 Hd2]. fold ld in Hd1, Hd2.
  assert (Hx' : n # d == inject_Z n / inject_Z (Z.pos d)) by apply Qmake_Qdiv.
  assert (HA : inject_Z (2 ^ ln) == 2 ^ ln) by (by apply Zpower_Qpower).
  assert (HB : inject_Z (2 ^ ld) == 2 ^ ld) by (by apply Zpower_Qpower).
  assert (HA2 : inject_Z (2 ^ Z.succ ln) == 2 * 2 ^ ln).
  { rewrite Zpower_Qpower by lia. unfold Z.succ. apply pow2_succ. }
  assert (HB2 : inject_Z (2 ^ Z.succ ld) == 2 * 2 ^ ld).
  { rewrite Zpower_Qpower by lia. unfold Z.succ. apply pow2_succ. }
  rewrite Zle_Qle in Hn1, Hd1. rewrite Zlt_Qlt in Hn2, Hd2.
  rewrite HA in Hn1. rewrite HA2 in Hn2. rewrite HB in Hd1. rewrite HB2 in Hd2.
  destruct (quotient_bounds (2 ^ ln) (2 ^ ld) (inject_Z n) (inject_Z (Z.pos d)))
    as [Hlow Hhigh]; try assumption; try apply pow2_pos.
  rewrite <- Hx' in Hlow, Hhigh.
  assert (Hk : 2 ^ (ln - ld) == 2 ^ ln / 2 ^ ld).
  { apply Qpower_minus. discriminate. }
  pose proof (pow2_pos ld) as Hpd.
  destruct (Qle_bool (2 ^ (ln - ld)) (n # d)) eqn:E.
  - apply Qle_bool_iff in E. split; [exact E|].
    rewrite pow2_succ, Hk.
    setoid_replace (2 * (2 ^ ln / 2 ^ ld)) with (2 * 2 ^ ln / 2 ^ ld)
      using relation Qeq by (field; lra).
    exact Hhigh.
  - assert (E' : n # d < 2 ^ (ln - ld)).
    { apply Qnot_le_lt. intros H. apply Qle_bool_iff in H. congruence. }
    replace (ln - ld - 1 + 1)%Z with (ln - ld)%Z by lia.
    split; [|exact E'].
    apply Qlt_le_weak. rewrite pow2_pred, Hk.
    setoid_replace (2 ^ ln / 2 ^ ld / 2) with (2 ^ ln / (2 * 2 ^ ld))
      using relation Qeq by (field; lra).
    exact Hlow.
Qed.

Lemma ilog2_unique (x : Q) (e : Z) :
  2 ^ e <= x -> x < 2 ^ (e + 1) -> ilog2 x = e.
Proof.
  intros H1 H2.
  assert (Hx : 0 < x) by (pose proof (pow2_pos e); lra).
  destruct (ilog2_spec x Hx) as [H3 H4].
  destruct (Z.lt_trichotomy (ilog2 x) e) as [Hlt|[Heq|Hgt]]; [|exact Heq|].
  - assert (2 ^ (ilog2 x + 1) <= 2 ^ e) by (apply pow2_le; lia). lra.
  - assert (2 ^ (e + 1) <= 2 ^ ilog2 x) by (apply pow2_le; lia). lra.
Qed.

(** Rounding to an integer, ties to even. *)

Lemma roundEven_cases (q : Q) :
  (roundEven q = Qfloor q /\ q - inject_Z (Qfloor q) <= 1 # 2)
  \/ (roundEven q = (Qfloor q + 1)%Z /\ 1 # 2 <= q - inject_Z (Qfloor q)).
Proof.
  unfold roundEven.
  destruct (Qcompare_spec (q - inject_Z (Qfloor q)) (1 # 2)) as [H|H|H].
  - destruct (Z.even (Qfloor q)); [left|right]; (split; [reflexivity|]); lra.
  - left. split; [reflexivity|lra].
  - right. split; [reflexivity|lra].
Qed.

Lemma Qfloor_bounds (q : Q) : inject_Z (Qfloor q) <= q /\ q < inject_Z (Qfloor q) + 1.
Proof.
  split; [apply Qfloor_le|].
  pose proof (Qlt_floor q) as H. rewrite inject_Z_plus in H. exact H.
Qed.

Lemma roundEven_near (q : Q) :
  q - (1 # 2) <= inject_Z (roundEven q) /\ inject_Z (roundEven q) <= q + (1 # 2).
Proof.
  destruct (Qfloor_bounds q) as [H1 H2].
  destruct (roundEven_cases q) as [[-> H]|[-> H]].
  - lra.
  - rewrite inject_Z_plus. change (inject_Z 1) with 1. lra.
Qed.

Lemma roundEven_mono (p q : Q) : p <= q -> (roundEven p <= roundEven q)%Z.
Proof.
  intros Hpq. pose proof (Qfloor_resp_le _ _ Hpq) as Hf.
  destruct (Z.eq_dec (Qfloor p) (Qfloor q)) as [Heq|Hne].
  - unfold roundEven. rewrite Heq.
    destruct (Qcompare_spec (p - inject_Z (Qfloor q)) (1 # 2)) as [H|H|H];
      destruct (Qcompare_spec (q - inject_Z (Qfloor q)) (1 # 2)) as [H'|H'|H'];
      try lra; try lia; destruct (Z.even (Qfloor q)); lia.
  - destruct (roundEven_cases p) as [[-> _]|[-> _]];
      destruct (roundEven_cases q) as [[-> _]|[-> _]]; lia.
Qed.

Lemma roundEven_Z (k : Z) : roundEven (inject_Z k) = k.
Proof.
  unfold roundEven. rewrite Qfloor_Z.
  destruct (Qcompare_spec (inject_Z k - inject_Z k) (1 # 2)) as [H|H|H];
    [lra|reflexivity|lra].
Qed.

(** Rounding a positive number to 53 significant bits. *)

Lemma scaled_bounds (x : Q) :
  0 < x ->
  inject_Z (2 ^ 52) <= x / 2 ^ (ilog2 x - 52)
  /\ x / 2 ^ (ilog2 x - 52) <= inject_Z (2 ^ 53).
Proof.
  intros Hx. destruct (ilog2_spec x Hx) as [H1 H2].
  set (e := ilog2 x) in *.
  pose proof (pow2_pos (e - 52)) as Hu.
  assert (He : 2 ^ e == inject_Z (2 ^ 52) * 2 ^ (e - 52)).
  { change (inject_Z (2 ^ 52)) with (2 ^ 52). rewrite <- pow2_add.
    replace (52 + (e - 52))%Z with e by lia. reflexivity. }
  assert (He' : 2 ^ (e + 1) == inject_Z (2 ^ 53) * 2 ^ (e - 52)).
  { change (inject_Z (2 ^ 53)) with (2 ^ 53). rewrite <- pow2_add.
    replace (53 + (e - 52))%Z with (e + 1)%Z by lia. reflexivity. }
  split.
  - apply Qle_shift_div_l; [exact Hu|]. rewrite <- He. exact H1.
  - apply Qle_shift_div_r; [exact Hu|]. rewrite <- He'. lra.
Qed.

Lemma roundPos_binade (x : Q) :
  0 < x -> 2 ^ ilog2 x <= roundPos x /\ roundPos x <= 2 ^ (ilog2 x + 1).
Proof.
  intros Hx. destruct (scaled_bounds x Hx) as [H1 H2].
  unfold roundPos. cbv zeta.
  set (e := ilog2 x) in *. set (q := x / 2 ^ (e - 52)) in *.
  pose proof (pow2_pos (e - 52)) as Hu.
  apply roundEven_mono in H1, H2. rewrite roundEven_Z in H1, H2.
  rewrite Zle_Qle in H1, H2.
  assert (He : 2 ^ e == inject_Z (2 ^ 52) * 2 ^ (e - 52)).
  { change (inject_Z (2 ^ 52)) with (2 ^ 52). rewrite <- pow2_add.
    replace (52 + (e - 52))%Z with e by lia. reflexivity. }
  assert (He' : 2 ^ (e + 1) == inject_Z (2 ^ 53) * 2 ^ (e - 52)).
  { change (inject_Z (2 ^ 53)) with (2 ^ 53). rewrite <- pow2_add.
    replace (53 + (e - 52))%Z with (e + 1)%Z by lia. reflexivity. }
  rewrite He, He'. split; nra.
Qed.

Lemma roundPos_mono (x y : Q) : 0 < x -> x <= y -> roundPos x <= roundPos y.
Proof.
  intros Hx Hxy. assert (Hy : 0 < y) by lra.
  destruct (ilog2_spec x Hx) as [Hx1 Hx2].
  destruct (ilog2_spec y Hy) as [Hy1 Hy2].
  destruct (roundPos_binade x Hx) as [Bx1 Bx2].
  destruct (roundPos_binade y Hy) as [By1 By2].
  destruct (Z.lt_trichotomy (ilog2 x) (ilog2 y)) as [Hlt|[Heq|Hgt]].
  - assert (2 ^ (ilog2 x + 1) <= 2 ^ ilog2 y) by (apply pow2_le; lia). lra.
  - unfold roundPos. cbv zeta. rewrite Heq.
    pose proof (pow2_pos (ilog2 y - 52)) as Hu.
    assert (Hq : x / 2 ^ (ilog2 y - 52) <= y / 2 ^ (ilog2 y - 52)).
    { apply Qle_shift_div_l; [exact Hu|].
      setoid_replace (x / 2 ^ (ilog2 y - 52) * 2 ^ (ilog2 y - 52)) with x
      using relation Qeq by (field; lra). exact Hxy. }
    apply roundEven_mono in Hq. rewrite Zle_Qle in Hq. nra.
  - assert (2 ^ (ilog2 y + 1) <= 2 ^ ilog2 x) by (apply pow2_le; lia). lra.
Qed.

Lemma roundPos_pos (x : Q) : 0 < x -> 0 < roundPos x.
Proof.
  intros Hx. destruct (roundPos_binade x Hx) as [H _].
  pose proof (pow2_pos (ilog2 x)). lra.
Qed.

Lemma roundPos_error (x : Q) :
  0 < x ->
  x * (1 - (1 # 2 ^ 53)) <= roundPos x /\ roundPos x <= x * (1 + (1 # 2 ^ 53)).
Proof.
  intros Hx. destruct (ilog2_spec x Hx) as [H1 _].
  unfold roundPos. cbv zeta.
  set (e := ilog2 x) in *.
  pose proof (pow2_pos (e - 52)) as Hu.
  destruct (roundEven_near (x / 2 ^ (e - 52))) as [N1 N2].
  set (m := inject_Z (roundEven (x / 2 ^ (e - 52)))) in *.
  assert (Hq : x / 2 ^ (e - 52) * 2 ^ (e - 52) == x) by (field; lra).
  assert (He : 2 ^ e == inject_Z (2 ^ 52) * 2 ^ (e - 52)).
  { change (inject_Z (2 ^ 52)) with (2 ^ 52). rewrite <- pow2_add.
    replace (52 + (e - 52))%Z with e by lia. reflexivity. }
  set (u := 2 ^ (e - 52)) in *. set (q := x / u) in *.
  assert (Hu2 : u * inject_Z (2 ^ 52) <= x) by lra.
  change (inject_Z (2 ^ 52)) with (4503599627370496 # 1) in Hu2.
  change (1 # 2 ^ 53) with (1 # 9007199254740992).
  split; nra.
Qed.

(** Rounding to the nearest double. *)

Lemma double_pos (x : Q) : 0 < x -> double x = roundPos x.
Proof. intros Hx. unfold double. destruct (Qcompare_spec x 0); [lra|lra|done]. Qed.

Lemma double_neg (x : Q) : x < 0 -> double x = - roundPos (- x).
Proof. intros Hx. unfold double. destruct (Qcompare_spec x 0); [lra|done|lra]. Qed.

Lemma double_zero (x : Q) : x == 0 -> double x = 0.
Proof. intros Hx. unfold double. destruct (Qcompare_spec x 0); [done|lra|lra]. Qed.

Lemma double_cases (x : Q) :
  (x == 0 /\ double x = 0)
  \/ (0 < x /\ double x = roundPos x)
  \/ (x < 0 /\ double x = - roundPos (- x)).
Proof.
  destruct (Qcompare_spec x 0) as [H|H|H].
  - left. split; [done|by apply double_zero].
  - right. right. split; [done|by apply double_neg].
  - right. left. split; [done|by apply double_pos].
Qed.

Lemma double_mono (x y : Q) : x <= y -> double x <= double y.
Proof.
  intros Hxy.
  destruct (double_cases x) as [[Hx ->]|[[Hx ->]|[Hx ->]]];
    destruct (double_cases y) as [[Hy ->]|[[Hy ->]|[Hy ->]]]; try lra.
  - pose proof (roundPos_pos y Hy). lra.
  - by apply roundPos_mono.
  - assert (H : 0 < - x) by lra. pose proof (roundPos_pos _ H). lra.
  - assert (H : 0 < - x) by lra. pose proof (roundPos_pos _ H).
    pose proof (roundPos_pos y Hy). lra.
  - assert (H : 0 < - y) by lra.
    assert (H' : - y <= - x) by lra.
    pose proof (roundPos_mono _ _ H H'). lra.
Qed.

Lemma double_comp (x y : Q) : x == y -> double x == double y.
Proof.
  intros Hxy. apply Qle_antisym; apply double_mono; lra.
Qed.

Lemma double_error (x M : Q) :
  - M <= x -> x <= M ->
  x - M * (1 # 2 ^ 53) <= double x /\ double x <= x + M * (1 # 2 ^ 53).
Proof.
  intros H1 H2.
  change (1 # 2 ^ 53) with (1 # 9007199254740992).
  destruct (double_cases x) as [[Hx ->]|[[Hx ->]|[Hx ->]]].
  - lra.
  - destruct (roundPos_error x Hx) as [E1 E2].
    change (1 # 2 ^ 53) with (1 # 9007199254740992) in E1, E2. lra.
  - assert (H : 0 < - x) by lra.
    destruct (roundPos_error _ H) as [E1 E2].
    change (1 # 2 ^ 53) with (1 # 9007199254740992) in E1, E2. lra.
Qed.


Lemma roundEven_comp (p q : Q) : p == q -> roundEven p = roundEven q.
Proof.
  intros Hpq. apply Z.le_antisymm; apply roundEven_mono; lra.
Qed.

Lemma roundPos_comp (x y : Q) : 0 < x -> x == y -> roundPos x == roundPos y.
Proof.
  intros Hx Hxy. apply Qle_antisym; apply roundPos_mono; lra.
Qed.

Lemma roundPos_integer (n : Z) :
  (0 < n < 2 ^ 53)%Z -> roundPos (inject_Z n) == inject_Z n.
Proof.
  intros [Hn1 Hn2].
  destruct (Z.log2_spec n Hn1) as [L1 L2].
  assert (Hlog : (0 <= Z.log2 n < 53)%Z).
  { split; [apply Z.log2_nonneg|]. apply Z.log2_lt_pow2; lia. }
  assert (He : ilog2 (inject_Z n) = Z.log2 n).
  { assert (Z1 : inject_Z (2 ^ Z.log2 n) == 2 ^ Z.log2 n)
      by (apply Zpower_Qpower; lia).
    assert (Z2 : inject_Z (2 ^ Z.succ (Z.log2 n)) == 2 ^ (Z.log2 n + 1))
      by (apply Zpower_Qpower; lia).
    rewrite Zle_Qle in L1. rewrite Zlt_Qlt in L2.
    apply ilog2_unique; lra. }
  unfold roundPos. cbv zeta. rewrite He.
  set (k := (52 - Z.log2 n)%Z).
  assert (Hk : (0 <= k)%Z) by (subst k; lia).
  replace (Z.log2 n - 52)%Z with (- k)%Z by (subst k; lia).
  pose proof (pow2_pos k) as Hp.
  assert (Hu : 2 ^ (- k) == / 2 ^ k) by apply Qpower_opp.
  assert (Hz : inject_Z (2 ^ k) == 2 ^ k) by (by apply Zpower_Qpower).
  assert (Hq : inject_Z n / 2 ^ (- k) == inject_Z (n * 2 ^ k)).
  { rewrite inject_Z_mult, Hz, Hu. field. lra. }
  rewrite (roundEven_comp _ _ Hq), roundEven_Z.
  rewrite inject_Z_mult, Hz, Hu. field. lra.
Qed.

Lemma double_integer (n : Z) :
  (Z.abs n < 2 ^ 53)%Z -> double (inject_Z n) == inject_Z n.
Proof.
  intros Hn.
  destruct (Z.lt_trichotomy n 0) as [Hneg|[->|Hpos]].
  - assert (H : inject_Z n < 0) by (by rewrite (Zlt_Qlt n 0) in Hneg).
    rewrite (double_neg _ H).
    assert (Hopp : - inject_Z n == inject_Z (- n)) by (by rewrite inject_Z_opp).
    assert (Hp : 0 < - inject_Z n) by lra.
    rewrite (roundPos_comp _ _ Hp Hopp).
    rewrite roundPos_integer by lia. rewrite inject_Z_opp. ring.
  - reflexivity.
  - assert (H : 0 < inject_Z n) by (by rewrite (Zlt_Qlt 0 n) in Hpos).
    rewrite (double_pos _ H). apply roundPos_integer. lia.
Qed.

Ltac divisions :=
  unfold Qdiv in *;
  change (/ 3600000) with (1 # 3600000) in *;
  change (/ 24) with (1 # 24) in *;
  change (/ 4320000) with (1 # 4320000) in *.

(** The decay of the recency score, in doubles. *)

Lemma decayOf_mono (d1 d2 : Z) : (d1 <= d2)%Z -> decayOf d2 <= decayOf d1.
Proof.
  intros Hd. unfold decayOf. rewrite Zle_Qle in Hd.
  apply double_mono in Hd.
  assert (H1 : double (inject_Z d1) / 3600000 <= double (inject_Z d2) / 3600000)
    by (divisions; lra).
  apply double_mono in H1.
  assert (H2 : double (double (inject_Z d1) / 3600000) / 24
               <= double (double (inject_Z d2) / 3600000) / 24) by (divisions; lra).
  apply double_mono in H2.
  apply double_mono.
  assert (H3 : 1 - double (double (double (inject_Z d2) / 3600000) / 24)
               <= 1 - double (double (double (inject_Z d1) / 3600000) / 24)) by lra.
  apply double_mono in H3. lra.
Qed.

Lemma decayOf_close (d : Z) :
  (- 2 ^ 54 <= d <= 2 ^ 54)%Z ->
  (86400000 - d # 4320000) - (1 # 100000) <= decayOf d
  /\ decayOf d <= (86400000 - d # 4320000) + (1 # 100000).
Proof.
  intros [Hd1 Hd2]. unfold decayOf.
  rewrite Zle_Qle in Hd1, Hd2.
  change (inject_Z (- 2 ^ 54)) with (- (18014398509481984 # 1)) in Hd1.
  change (inject_Z (2 ^ 54)) with (18014398509481984 # 1) in Hd2.
  assert (Hx : 86400000 - d # 4320000 == 20 - inject_Z d * (1 # 4320000)).
  { rewrite Qmake_Qdiv. unfold Z.sub. rewrite inject_Z_plus, inject_Z_opp.
    change (inject_Z 86400000) with (86400000 # 1).
    change (inject_Z (Z.pos 4320000)) with (4320000 # 1). field. }
  rewrite Hx. clear Hx.
  set (D := inject_Z d) in *.
  destruct (double_error D (18014398509481984 # 1)) as [A1 A2]; [lra|lra|].
  set (d' := double D) in *.
  change (1 # 2 ^ 53) with (1 # 9007199254740992) in *.
  destruct (double_error (d' / 3600000) (5100000000 # 1)) as [B1 B2];
    [divisions; lra|divisions; lra|].
  set (a := double (d' / 3600000)) in *.
  change (1 # 2 ^ 53) with (1 # 9007199254740992) in *.
  destruct (double_error (a / 24) (220000000 # 1)) as [C1 C2];
    [divisions; lra|divisions; lra|].
  set (b := double (a / 24)) in *.
  change (1 # 2 ^ 53) with (1 # 9007199254740992) in *.
  destruct (double_error (1 - b) (220000002 # 1)) as [E1 E2];
    [divisions; lra|divisions; lra|].
  set (c := double (1 - b)) in *.
  change (1 # 2 ^ 53) with (1 # 9007199254740992) in *.
  destruct (double_error (20 * c) (4500000000 # 1)) as [F1 F2];
    [divisions; lra|divisions; lra|].
  set (s := double (20 * c)) in *.
  change (1 # 2 ^ 53) with (1 # 9007199254740992) in *.
  divisions. split; lra.
Qed.

(** The filters compare the age in hours with a whole number of hours.
    The double that the code compares and the exact quotient compare alike,
    for an age below 2^53 milliseconds. *)
Lemma age_comparison (d m : Z) :
  (Z.abs d < 2 ^ 53)%Z -> (Z.abs m < 2 ^ 53)%Z ->
  let a := double (double (inject_Z d) / 3600000) in
  (inject_Z m < a <-> inject_Z m < inject_Z d / 3600000)
  /\ (a < inject_Z m <-> inject_Z d / 3600000 < inject_Z m).
Proof.
  intros Hd Hm a.
  assert (Ha : a == double (inject_Z d / 3600000)).
  { subst a. apply double_comp. rewrite (double_integer d Hd). reflexivity. }
  assert (Hmm : double (inject_Z m) == inject_Z m) by (by apply double_integer).
  assert (Hrange : - (9007199254740991 # 3600000) <= inject_Z d / 3600000
                   /\ inject_Z d / 3600000 <= 9007199254740991 # 3600000).
  { assert (H1 : (- 9007199254740991 <= d)%Z) by lia.
    assert (H2 : (d <= 9007199254740991)%Z) by lia.
    rewrite Zle_Qle in H1, H2.
    change (inject_Z (-9007199254740991)) with (- (9007199254740991 # 1)) in H1.
    change (inject_Z 9007199254740991) with (9007199254740991 # 1) in H2.
    divisions. split; lra. }
  destruct Hrange as [R1 R2].
  destruct (double_error _ _ R1 R2) as [E1 E2].
  change (1 # 2 ^ 53) with (1 # 9007199254740992) in E1, E2.
  rewrite <- Ha in E1, E2.
  assert (Hstep : forall k : Z, (k < d)%Z -> inject_Z k + 1 <= inject_Z d).
  { intros k Hk. assert (H : (k + 1 <= d)%Z) by lia.
    rewrite Zle_Qle, inject_Z_plus in H. exact H. }
  assert (Hstep' : forall k : Z, (d < k)%Z -> inject_Z d + 1 <= inject_Z k).
  { intros k Hk. assert (H : (d + 1 <= k)%Z) by lia.
    rewrite Zle_Qle, inject_Z_plus in H. exact H. }
  assert (Hprod : inject_Z (3600000 * m) == 3600000 * inject_Z m)
    by (by rewrite inject_Z_mult).
  split; split; intros H.
  - apply Qnot_le_lt. intros Hle.
    assert (Hmono : double (inject_Z d / 3600000) <= double (inject_Z m))
      by (by apply double_mono).
    lra.
  - assert (Hz : (3600000 * m < d)%Z).
    { rewrite Zlt_Qlt, Hprod. divisions. lra. }
    apply Hstep in Hz. rewrite Hprod in Hz. divisions. lra.
  - apply Qnot_le_lt. intros Hle.
    assert (Hmono : double (inject_Z m) <= double (inject_Z d / 3600000))
      by (by apply double_mono).
    lra.
  - assert (Hz : (d < 3600000 * m)%Z).
    { rewrite Zlt_Qlt, Hprod. divisions. lra. }
    apply Hstep' in Hz. rewrite Hprod in Hz. divisions. lra.
Qed.

End DoubleFacts.

(** ** Recency *)

Lemma Math_max_0_cases (x : Q) :
  ((0 <= x)%Q ∧ Math_max 0 x = x) ∨ ((x < 0)%Q ∧ Math_max 0 x = 0%Q).
Proof.
  unfold Math_max. destruct (Qle_bool 0 x) eqn:E.
  - left. by apply Qle_bool_iff in E.
  - right. split; [|done]. apply Qnot_le_lt. intros H.
    apply Qle_bool_iff in H. congruence.
Qed.

Lemma Math_max_0_mono (x y : Q) :
  (x <= y)%Q -> (Math_max 0 x <= Math_max 0 y)%Q.
Proof.
  intros Hxy.
  destruct (Math_max_0_cases x) as [[Hx ->]|[Hx ->]];
    destruct (Math_max_0_cases y) as [[Hy ->]|[Hy ->]]; lra.
Qed.

Lemma Math_round_mono (x y : Q) : (x <= y)%Q -> (Math_round x <= Math_round y)%Z.
Proof. intros Hxy. unfold Math_round. apply Qfloor_resp_le. lra. Qed.

Lemma Math_round_near (x : Q) :
  (x - (1 # 2) < inject_Z (Math_round x))%Q
  ∧ (inject_Z (Math_round x) <= x + (1 # 2))%Q.
Proof.
  unfold Math_round. destruct (Qfloor_bounds (x + (1 # 2))) as [H1 H2].
  split; lra.
Qed.

(** The score of a document is the decay at its age, cut at 0 and
    rounded. *)
Lemma recencyScore_decay now item :
  recencyScore now item = Math_round (Math_max 0 (decayOf (ageOf now item))).
Proof. reflexivity. Qed.

Lemma linearDecay_closed (d : Z) :
  (linearDecay d == (86400000 - d) # 4320000)%Q.
Proof. unfold linearDecay, Qeq. cbn. lia. Qed.

Lemma decayOf_near (d : Z) :
  (- 2 ^ 54 <= d <= 2 ^ 54)%Z ->
  (linearDecay d - (1 # 100000) <= decayOf d)%Q
  ∧ (decayOf d <= linearDecay d + (1 # 100000))%Q.
Proof.
  intros Hd. destruct (decayOf_close d Hd) as [H1 H2].
  rewrite linearDecay_closed. by split.
Qed.

Lemma validDate_age now item :
  validDate now -> validDate (publishedAt item) ->
  (- 2 ^ 54 <= ageOf now item <= 2 ^ 54)%Z.
Proof. unfold validDate, ageOf. lia. Qed.

Lemma computeRecencyScores_lookup now items i :
  computeRecencyScores now items !! i = recencyScore now <$> items !! i.
Proof.
  unfold computeRecencyScores.
  apply (forEachIndexed_insert (fun _ item => recencyScore now item)).
Qed.

Lemma recencyScore_mono now a b :
  (ageOf now a <= ageOf now b)%Z ->
  (recencyScore now b <= recencyScore now a)%Z.
Proof.
  intros Hab. rewrite !recencyScore_decay.
  by apply Math_round_mono, Math_max_0_mono, decayOf_mono.
Qed.

Lemma recencyScore_nonneg now item : (0 <= recencyScore now item)%Z.
Proof.
  rewrite recencyScore_decay.
  assert (H : (Math_round 0 <= Math_round (Math_max 0 (decayOf (ageOf now item))))%Z).
  { apply Math_round_mono.
    destruct (Math_max_0_cases (decayOf (ageOf now item))) as [[H ->]|[H ->]]; lra. }
  exact H.
Qed.

Lemma recencyScore_near now item :
  (- 2 ^ 54 <= ageOf now item <= 2 ^ 54)%Z ->
  let exact := Math_max 0 (linearDecay (ageOf now item)) in
  (exact - (1 # 2) - (1 # 100000) <= inject_Z (recencyScore now item))%Q
  ∧ (inject_Z (recencyScore now item) <= exact + (1 # 2) + (1 # 100000))%Q.
Proof.
  intros Hd exact. subst exact. rewrite recencyScore_decay.
  destruct (decayOf_near _ Hd) as [H1 H2].
  destruct (Math_round_near (Math_max 0 (decayOf (ageOf now item)))) as [R1 R2].
  set (r := inject_Z (Math_round (Math_max 0 (decayOf (ageOf now item))))) in *.
  destruct (Math_max_0_cases (decayOf (ageOf now item))) as [[Hs E]|[Hs E]];
    rewrite E in R1, R2;
    destruct (Math_max_0_cases (linearDecay (ageOf now item))) as [[Hx ->]|[Hx ->]];
    split; lra.
Qed.

Lemma recencyScore_exact now item :
  (- 2 ^ 54 <= ageOf now item <= 2 ^ 54)%Z ->
  Math_round (Math_max 0 (linearDecay (ageOf now item) - (1 # 100000)))
  = Math_round (Math_max 0 (linearDecay (ageOf now item) + (1 # 100000))) ->
  recencyScore now item = Math_round (Math_max 0 (linearDecay (ageOf now item))).
Proof.
  intros Hd Hsame. rewrite recencyScore_decay.
  destruct (decayOf_near _ Hd) as [H1 H2].
  set (x := linearDecay (ageOf now item)) in *.
  set (s := decayOf (ageOf now item)) in *.
  assert (L1 : (Math_round (Math_max 0 (x - (1 # 100000)))
                <= Math_round (Math_max 0 s))%Z)
    by (by apply Math_round_mono, Math_max_0_mono).
  assert (L2 : (Math_round (Math_max 0 s)
                <= Math_round (Math_max 0 (x + (1 # 100000))))%Z)
    by (by apply Math_round_mono, Math_max_0_mono).
  assert (L3 : (Math_round (Math_max 0 (x - (1 # 100000)))
                <= Math_round (Math_max 0 x))%Z)
    by (apply Math_round_mono, Math_max_0_mono; lra).
  assert (L4 : (Math_round (Math_max 0 x)
                <= Math_round (Math_max 0 (x + (1 # 100000))))%Z)
    by (apply Math_round_mono, Math_max_0_mono; lra).
  lia.
Qed.

Lemma recencyScore_new now item :
  (ageOf now item = 0)%Z -> recencyScore now item = 20%Z.
Proof. intros Hd. rewrite recencyScore_decay, Hd. vm_compute. reflexivity. Qed.

Lemma recencyScore_old now item :
  (24 * 3600000 <= ageOf now item)%Z -> recencyScore now item = 0%Z.
Proof.
  intros Hd. pose proof (recencyScore_nonneg now item) as H0.
  assert (H1 : (recencyScore now item <= Math_round (Math_max 0 (decayOf 86400000)))%Z).
  { rewrite recencyScore_decay.
    apply Math_round_mono, Math_max_0_mono, decayOf_mono. lia. }
  assert (H2 : Math_round (Math_max 0 (decayOf 86400000)) = 0%Z)
    by (vm_compute; reflexivity).
  lia.
Qed.

(** C6, as the code has it. The recency score of a document is
    max(0, round(20 x (1 - ageHours/24))) evaluated in doubles, where every
    operation rounds.  It lies within 1/2 + 10^-5 of the exact decay cut at
    0, and it is the exact decay cut at 0 and rounded wherever that is not
    within 10^-5 of a half-integer.  It is 20 at age 0 and 0 at every age
    of 24 hours or more.  The exact decay is strictly decreasing in the
    age; the score itself, being rounded, never increases with the age but
    stays the same over stretches of it. *)
Theorem recency_score_decay (now : Z) (items : list NewsItem) (i : nat) :
  computeRecencyScores now items !! i = recencyScore now <$> items !! i
  ∧ (∀ item, validDate now -> validDate (publishedAt item) ->
       let exact := Math_max 0 (20 * (1 - ageHours now item / 24)) in
       (exact - (1 # 2) - (1 # 100000) <= inject_Z (recencyScore now item))%Q
       ∧ (inject_Z (recencyScore now item) <= exact + (1 # 2) + (1 # 100000))%Q
       ∧ (Math_round (Math_max 0 (20 * (1 - ageHours now item / 24) - (1 # 100000)))
          = Math_round (Math_max 0 (20 * (1 - ageHours now item / 24) + (1 # 100000))) ->
          recencyScore now item = Math_round exact))
  ∧ (∀ item, (now - publishedAt item = 0)%Z -> recencyScore now item = 20%Z)
  ∧ (∀ item, (24 * 3600000 <= now - publishedAt item)%Z ->
             recencyScore now item = 0%Z)
  ∧ (∀ a b, (now - publishedAt a <= now - publishedAt b)%Z ->
            (recencyScore now b <= recencyScore now a)%Z)
  ∧ (∀ a b, (now - publishedAt a < now - publishedAt b)%Z ->
            (20 * (1 - ageHours now b / 24) < 20 * (1 - ageHours now a / 24))%Q).
Proof.
  split; [|split; [|split; [|split; [|split]]]].
  - apply computeRecencyScores_lookup.
  - intros item Hnow Hdate exact.
    pose proof (validDate_age now item Hnow Hdate) as Hd.
    destruct (recencyScore_near now item Hd) as [H1 H2].
    split; [exact H1|]. split; [exact H2|].
    apply (recencyScore_exact now item Hd).
  - apply recencyScore_new.
  - apply recencyScore_old.
  - apply recencyScore_mono.
  - intros a b Hab.
    change (20 * (1 - ageHours now b / 24))%Q with (linearDecay (ageOf now b)).
    change (20 * (1 - ageHours now a / 24))%Q with (linearDecay (ageOf now a)).
    rewrite !linearDecay_closed. unfold ageOf, Qlt. simpl. lia.
Qed.

(** C6 as stated fails.  Of two documents less than 24 hours old, the older
    one need not score strictly less: at 0 and at 15 minutes the score is
    20.  And the score is not always the exact decay rounded: at 11.4 hours
    the exact decay is 10.5, which rounds to 11, while the doubles give
    10. *)
Lemma recency_score_decay_counterexample :
  let now := 900000%Z in
  let newer := newsAt 900000 in
  let older := newsAt 0 in
  (0 <= ageHours now newer)%Q
  ∧ (ageHours now newer < ageHours now older)%Q
  ∧ (ageHours now older < 24)%Q
  ∧ recencyScore now newer = 20%Z
  ∧ recencyScore now older = 20%Z
  ∧ (20 * (1 - ageHours 41040000 older / 24) == 10.5)%Q
  ∧ Math_round (Math_max 0 (20 * (1 - ageHours 41040000 older / 24))) = 11%Z
  ∧ recencyScore 41040000 older = 10%Z.
Proof. repeat split; vm_compute; congruence. Qed.

(** ** Future-dated documents *)

Lemma ageHours_le now item (m : Z) :
  (ageHours now item <= inject_Z m)%Q
  <-> (now - publishedAt item <= m * 3600000)%Z.
Proof. unfold Qle, ageHours. cbn. lia. Qed.

Lemma fresh_false {caseMapping : CaseMapping} sentCache now maxAgeHours item :
  fresh sentCache now maxAgeHours item = false
  <-> normalizeUrl (link item) ∈ sentCache
      ∨ (inject_Z maxAgeHours < ageHours now item)%Q
      ∨ link item = [].
Proof.
  unfold fresh, gt. cbv zeta.
  destruct (Set_has _ _) eqn:Ehas.
  - apply Set_has_true in Ehas. tauto.
  - assert (Hn : ¬ normalizeUrl (link item) ∈ sentCache)
      by (rewrite <- Set_has_true; congruence).
    destruct (Qle_bool _ _) eqn:Eage; simpl.
    + apply Qle_bool_iff in Eage.
      assert (¬ (inject_Z maxAgeHours < ageHours now item)%Q) by (by apply Qle_not_lt).
      destruct (bool_decide (link item = [])) eqn:El.
      * apply bool_decide_eq_true in El. tauto.
      * apply bool_decide_eq_false in El. split; [done|]. tauto.
    + assert (inject_Z maxAgeHours < ageHours now item)%Q; [|tauto].
      apply Qnot_le_lt. rewrite <- Qle_bool_iff. congruence.
Qed.

Lemma Math_max_0_nonneg (x : Q) : (0 <= x)%Q -> Math_max 0 x = x.
Proof.
  intros Hx. destruct (Math_max_0_cases x) as [[_ E]|[H _]]; [exact E|lra].
Qed.

Lemma decayOf_future (d : Z) : (d <= 0)%Z -> (20 <= decayOf d)%Q.
Proof.
  intros Hd. apply decayOf_mono in Hd.
  assert (H : (decayOf 0 == 20)%Q) by (vm_compute; reflexivity).
  lra.
Qed.

Lemma recencyScore_future now item :
  (ageOf now item <= 0)%Z ->
  recencyScore now item = Math_round (decayOf (ageOf now item)).
Proof.
  intros Hd. rewrite recencyScore_decay.
  pose proof (decayOf_future _ Hd) as H.
  rewrite Math_max_0_nonneg; [done|lra].
Qed.

(** C10, as the code has it. The recency score has no cap at 20.  A
    document dated after the current time gets round(20 x (1 - ageHours/24))
    evaluated in doubles, with nothing cut off: a score within 1/2 + 10^-5
    of the exact value, and the exact value rounded wherever that is not
    within 10^-5 of a half-integer.  The score is at least 20, is strictly
    greater than 20 from 36 minutes in the future on, and never decreases
    as the date moves further ahead; the range of [Date] bounds it by
    4000000020.  The filter of [rankNews] rejects a document only for a
    delivered link, an age above [maxAgeHours] or an empty link, so that
    with [maxAgeHours >= 0] it keeps a future-dated document. *)
Theorem recency_future_dated {caseMapping : CaseMapping} (now : Z) (item : NewsItem) :
  validDate now -> validDate (publishedAt item) ->
  (now < publishedAt item)%Z ->
  let exact := (20 * (1 - ageHours now item / 24))%Q in
  recencyScore now item = Math_round (decayOf (ageOf now item))
  ∧ (∀ items i, items !! i = Some item ->
        computeRecencyScores now items !! i = Some (recencyScore now item))
  ∧ (exact - (1 # 2) - (1 # 100000) <= inject_Z (recencyScore now item))%Q
  ∧ (inject_Z (recencyScore now item) <= exact + (1 # 2) + (1 # 100000))%Q
  ∧ (Math_round (exact - (1 # 100000)) = Math_round (exact + (1 # 100000)) ->
     recencyScore now item = Math_round exact)
  ∧ (20 <= recencyScore now item)%Z
  ∧ ((36 * 60000 <= publishedAt item - now)%Z -> (20 < recencyScore now item)%Z)
  ∧ (∀ later, (publishedAt item <= publishedAt later)%Z ->
        (recencyScore now item <= recencyScore now later)%Z)
  ∧ (recencyScore now item <= 4000000020)%Z
  ∧ (∀ sentCache maxAgeHours x,
        fresh sentCache now maxAgeHours x = false
        <-> normalizeUrl (link x) ∈ sentCache
            ∨ (inject_Z maxAgeHours < ageHours now x)%Q
            ∨ link x = [])
  ∧ (∀ file writable maxItems maxAgeHours,
        (0 <= maxAgeHours)%Z -> (1 <= maxItems)%Z -> link item ≠ [] ->
        normalizeUrl (link item) ∉ loadSentCache now file ->
        fresh (loadSentCache now file) now maxAgeHours item = true
        ∧ fst (rankNews now file writable [item] maxItems maxAgeHours) = [item]).
Proof.
  intros Hnow Hdate Hfuture exact.
  pose proof (validDate_age now item Hnow Hdate) as Hrange.
  assert (Hd : (ageOf now item < 0)%Z) by (unfold ageOf; lia).
  assert (Hexact : (exact == (86400000 - ageOf now item) # 4320000)%Q).
  { subst exact.
    change (20 * (1 - ageHours now item / 24))%Q with (linearDecay (ageOf now item)).
    apply linearDecay_closed. }
  assert (Hbig : (20 < exact)%Q).
  { rewrite Hexact. unfold Qlt. simpl. lia. }
  assert (Hmax : ∀ e : Q, (0 <= exact + e)%Q -> Math_max 0 (exact + e) = (exact + e)%Q)
    by (intros e; apply Math_max_0_nonneg).
  destruct (recencyScore_near now item Hrange) as [N1 N2].
  fold (linearDecay (ageOf now item)) in exact.
  change (linearDecay (ageOf now item)) with exact in N1, N2.
  rewrite (Math_max_0_nonneg exact) in N1, N2 by lra.
  split; [|split; [|split; [|split; [|split; [|split; [|split; [|split;
    [|split; [|split]]]]]]]]].
  - apply recencyScore_future. lia.
  - intros items i Hi. by rewrite computeRecencyScores_lookup, Hi.
  - exact N1.
  - exact N2.
  - intros Hsame.
    pose proof (recencyScore_exact now item Hrange) as H.
    change (linearDecay (ageOf now item)) with exact in H.
    unfold Qminus in H, Hsame.
    rewrite !Hmax in H by lra.
    rewrite (Math_max_0_nonneg exact) in H by lra. by apply H.
  - rewrite recencyScore_future by lia.
    assert (H : (Math_round 20 <= Math_round (decayOf (ageOf now item)))%Z).
    { apply Math_round_mono, decayOf_future. lia. }
    exact H.
  - intros Hfar. rewrite recencyScore_future by lia.
    assert (H : (Math_round (decayOf (- 2160000))
                 <= Math_round (decayOf (ageOf now item)))%Z).
    { apply Math_round_mono, decayOf_mono. unfold ageOf. lia. }
    assert (H21 : Math_round (decayOf (- 2160000)) = 21%Z)
      by (vm_compute; reflexivity).
    lia.
  - intros later Hlater. apply recencyScore_mono. unfold ageOf. lia.
  - assert (Hx : (exact <= 4000000020)%Q).
    { rewrite Hexact. unfold Qle, validDate, ageOf in *. simpl. lia. }
    destruct (Z_le_gt_dec (recencyScore now item) 4000000020) as [?|Hgt]; [done|].
    assert (H : (inject_Z 4000000021 <= inject_Z (recencyScore now item))%Q)
      by (rewrite <- Zle_Qle; lia).
    change (inject_Z 4000000021) with (4000000021 # 1)%Q in H. lra.
  - intros sentCache maxAgeHours x. apply fresh_false.
  - intros file writable maxItems maxAgeHours Hmaxage Hitems Hlink Hcache.
    assert (Hfresh : fresh (loadSentCache now file) now maxAgeHours item = true).
    { apply not_false_iff_true. rewrite fresh_false.
      intros [?|[Hage|?]]; [done| |done].
      apply Qlt_not_le in Hage. apply Hage, ageHours_le. nia. }
    split; [done|].
    unfold rankNews. cbn [fst List.filter]. rewrite Hfresh.
    rewrite deduplicateBySimilarity_greedy. cbn.
    rewrite lookup_empty. simpl.
    assert ((Z.of_nat 0 >=? maxItems)%Z = false) as ->; [|done].
    rewrite Z.geb_leb. apply Z.leb_gt. simpl. lia.
Qed.

Lemma recency_future_dated_witness :
  (0 < publishedAt (newsAt 3600000))%Z
  ∧ (20 <= recencyScore 0 (newsAt 3600000))%Z.
Proof.
  split; [reflexivity|].
  apply (recency_future_dated (caseMapping := latinCase) 0 (newsAt 3600000));
    [unfold validDate; lia | unfold validDate; simpl; lia | reflexivity].
Defined.

(** C10 as stated fails: a document dated one millisecond ahead scores 20,
    not more.  And the score does not grow without bound: the last date
    that a [Date] can hold scores 2000000020 at the epoch. *)
Lemma recency_future_dated_counterexample :
  (0 < publishedAt (newsAt 1))%Z ∧ recencyScore 0 (newsAt 1) = 20%Z
  ∧ validDate (publishedAt (newsAt 8640000000000000))
  ∧ ¬ validDate (publishedAt (newsAt 8640000000000001))
  ∧ recencyScore 0 (newsAt 8640000000000000) = 2000000020%Z.
Proof.
  split; [reflexivity|]. split; [vm_compute; reflexivity|].
  split; [unfold validDate; simpl; lia|].
  split; [unfold validDate; simpl; lia|].
  vm_compute. reflexivity.
Qed.

(** ** The delivered set *)

Lemma Set_has_nil x : Set_has [] x = false.
Proof. unfold Set_has. apply bool_decide_false, not_elem_of_nil. Qed.

Lemma fresh_empty_cache {caseMapping : CaseMapping} now maxAgeHours item :
  fresh [] now maxAgeHours item
  = negb (gt (ageHours now item) (inject_Z maxAgeHours))
    && negb (bool_decide (link item = [])).
Proof.
  unfold fresh. cbv zeta. rewrite Set_has_nil.
  destruct (gt _ _); [done|]. by destruct (bool_decide _).
Qed.

(** ** Diversified selection *)

Lemma countSource_snoc s l item :
  countSource s (l ++ [item])
  = countSource s l + (if decide (source item = s) then 1 else 0).
Proof.
  unfold countSource. rewrite List.filter_app, length_app. simpl.
  destruct (decide (source item = s)) as [H|H].
  - by rewrite bool_decide_true.
  - by rewrite bool_decide_false.
Qed.

Section PickLoop.

Variables (maxItems : Z) (maxPerSource : nat).

(** What the loop of [diversifiedPick] maintains: [sourceCount] holds the
    number of accepted items of every source, none above the cap, and the
    number of accepted items is within the limit. *)
Lemma pickLoop_bounds (sorted result : list NewsItem)
    (sourceCount : gmap (list N) nat) :
  (∀ s, default 0 (sourceCount !! s) = countSource s result) ->
  (∀ s, countSource s result <= maxPerSource) ->
  (Z.of_nat (length result) <= Z.max 0 maxItems)%Z ->
  let out := pickLoop maxItems maxPerSource sorted result sourceCount in
  (∀ s, countSource s out <= maxPerSource)
  ∧ (Z.of_nat (length out) <= Z.max 0 maxItems)%Z
  ∧ ∃ l', out = result ++ l' ∧ l' `sublist_of` sorted.
Proof.
  revert result sourceCount.
  induction sorted as [|item rest IH]; intros result sourceCount Hsc Hcap Hlen; simpl.
  - split; [done|]. split; [done|]. exists []. by rewrite app_nil_r.
  - destruct (Z.of_nat (length result) >=? maxItems)%Z eqn:Efull.
    { split; [done|]. split; [done|]. exists []. rewrite app_nil_r.
      split; [done|]. apply sublist_nil_l. }
    rewrite Z.geb_leb in Efull. apply Z.leb_gt in Efull.
    destruct (maxPerSource <=? default 0 (sourceCount !! source item)) eqn:Ecap.
    + destruct (IH result sourceCount Hsc Hcap Hlen) as (H1 & H2 & l' & H3 & H4).
      split; [done|]. split; [done|]. exists l'. split; [done|].
      by apply sublist_cons.
    + apply Nat.leb_gt in Ecap. rewrite Hsc in Ecap.
      destruct (IH (result ++ [item])
                  (<[source item := default 0 (sourceCount !! source item) + 1]>
                     sourceCount)) as (H1 & H2 & l' & H3 & H4).
      * intros s. rewrite countSource_snoc.
        destruct (decide (source item = s)) as [<-|Hne].
        -- rewrite lookup_insert_eq. simpl. by rewrite Hsc.
        -- rewrite lookup_insert_ne by done. rewrite Hsc. lia.
      * intros s. rewrite countSource_snoc. specialize (Hcap s).
        destruct (decide (source item = s)) as [<-|Hne]; lia.
      * rewrite length_app. simpl. lia.
      * split; [done|]. split; [done|]. exists (item :: l').
        rewrite H3, <- app_assoc. split; [done|]. by apply sublist_skip.
Qed.

Lemma diversifiedPick_bounds (sorted : list NewsItem) :
  let out := diversifiedPick sorted maxItems maxPerSource in
  (∀ s, countSource s out <= maxPerSource)
  ∧ (Z.of_nat (length out) <= Z.max 0 maxItems)%Z
  ∧ out `sublist_of` sorted.
Proof.
  destruct (pickLoop_bounds sorted [] ∅) as (H1 & H2 & l' & H3 & H4).
  - intros s. by rewrite lookup_empty.
  - intros s. unfold countSource. simpl. lia.
  - simpl. lia.
  - unfold diversifiedPick. simpl. split; [done|]. split; [done|].
    by rewrite H3.
Qed.

End PickLoop.

Lemma rankNews_from_filtered {caseMapping : CaseMapping} now file writable items maxItems maxAgeHours item :
  item ∈ fst (rankNews now file writable items maxItems maxAgeHours) ->
  item ∈ items ∧ fresh (loadSentCache now file) now maxAgeHours item = true.
Proof.
  unfold rankNews. cbn [fst]. intros Hin.
  destruct (diversifiedPick_bounds maxItems 3
              (sortDesc relevanceScore
                 (deduplicateBySimilarity
                    (List.filter (fresh (loadSentCache now file) now maxAgeHours) items))))
    as (_ & _ & Hsub).
  apply (sublist_subseteq _ _ Hsub) in Hin.
  rewrite sortDesc_Permutation in Hin.
  apply deduplicateBySimilarity_subset in Hin.
  apply list_elem_of_In, filter_In in Hin as [Hin Hfresh].
  by rewrite <- list_elem_of_In in Hin.
Qed.

(** ** Loading the delivered set *)

Lemma rankNews_alone {caseMapping : CaseMapping} now file writable item maxItems maxAgeHours :
  (1 <= maxItems)%Z ->
  fresh (loadSentCache now file) now maxAgeHours item = true ->
  fst (rankNews now file writable [item] maxItems maxAgeHours) = [item].
Proof.
  intros Hmax Hfresh. unfold rankNews. cbn [fst List.filter]. rewrite Hfresh.
  rewrite deduplicateBySimilarity_greedy. cbn. rewrite lookup_empty. simpl.
  assert ((Z.of_nat 0 >=? maxItems)%Z = false) as ->; [|done].
  rewrite Z.geb_leb. apply Z.leb_gt. simpl. lia.
Qed.

Lemma rankNews_written {caseMapping : CaseMapping} now file items maxItems maxAgeHours :
  ∃ urls, snd (rankNews now file true items maxItems maxAgeHours)
          = Stored (mkSentCacheData urls now).
Proof. unfold rankNews, saveSentCache. cbn [snd]. eauto. Qed.

(** C9, as the code has it. [loadSentCache] returns the empty set when the
    stored timestamp is more than 48 hours old, when there is no file, and
    when the file cannot be read or parsed.  Ranking then goes on as with
    no delivered set: the items returned are those of a run without cache
    file.  The timestamp is the time of the last run that wrote the record:
    49 hours after a run has written it, the record loads as empty and a
    document that run delivered is returned again. *)
Theorem loadSentCache_empty {caseMapping : CaseMapping} (now : Z) (file : CacheFile) :
  file = Absent ∨ file = Unreadable ∨ file = Malformed
  ∨ (∃ data, file = Stored data ∧ (48 * 60 * 60 * 1000 < now - timestamp data)%Z) ->
  loadSentCache now file = []
  ∧ (∀ writable items maxItems maxAgeHours,
       fst (rankNews now file writable items maxItems maxAgeHours)
       = fst (rankNews now Absent writable items maxItems maxAgeHours))
  ∧ (∀ item maxAgeHours,
       fresh (loadSentCache now file) now maxAgeHours item
       = negb (gt (ageHours now item) (inject_Z maxAgeHours))
         && negb (bool_decide (link item = [])))
  ∧ (∀ before file0 items0 maxItems0 maxAgeHours0 delivered,
       delivered ∈ fst (rankNews before file0 true items0 maxItems0 maxAgeHours0) ->
       let later := (before + 49 * 60 * 60 * 1000)%Z in
       let written := snd (rankNews before file0 true items0 maxItems0 maxAgeHours0) in
       loadSentCache later written = []
       ∧ fst (rankNews later written true [delivered] 1 (maxAgeHours0 + 49))
         = [delivered]).
Proof.
  intros Hfile.
  assert (Hload : loadSentCache now file = []).
  { destruct Hfile as [->|[->|[->|(data & -> & Hold)]]]; try done.
    unfold loadSentCache. by rewrite (proj2 (Z.gtb_lt _ _) Hold). }
  split; [done|]. split; [|split].
  - intros writable items maxItems maxAgeHours. unfold rankNews.
    by rewrite Hload.
  - intros item maxAgeHours. rewrite Hload. apply fresh_empty_cache.
  - intros before file0 items0 maxItems0 maxAgeHours0 delivered Hin later written.
    destruct (rankNews_written before file0 items0 maxItems0 maxAgeHours0)
      as (urls & Hwritten).
    fold written in Hwritten.
    assert (Hstale : loadSentCache later written = []).
    { rewrite Hwritten. unfold loadSentCache. cbn [timestamp].
      replace (later - before)%Z with (49 * 60 * 60 * 1000)%Z by (subst later; lia).
      reflexivity. }
    split; [done|].
    apply rankNews_alone; [lia|]. rewrite Hstale.
    apply rankNews_from_filtered in Hin as [_ Hfresh].
    apply not_false_iff_true. apply not_false_iff_true in Hfresh.
    rewrite fresh_false in *. intros [Hc|[Hage|Hlink]].
    + by apply elem_of_nil in Hc.
    + apply Hfresh. right. left.
      apply Qnot_le_lt. intros Hle. apply (Qlt_not_le _ _ Hage).
      apply ageHours_le. apply ageHours_le in Hle. subst later. lia.
    + apply Hfresh. by right; right.
Qed.

Lemma loadSentCache_empty_witness :
  let now := (1700000000000 + 49 * 60 * 60 * 1000)%Z in
  let file := Stored (mkSentCacheData [js "https://example.com/markets"] 1700000000000) in
  loadSentCache now file = []
  ∧ fst (rankNews (caseMapping := latinCase) now file true
           [newsAt 1700000000000] 10 72)
    = fst (rankNews (caseMapping := latinCase) now Absent true
             [newsAt 1700000000000] 10 72).
Proof.
  intros now file.
  destruct (loadSentCache_empty (caseMapping := latinCase) now file)
    as (Hload & Hsame & _).
  - right. right. right. eexists. split; [reflexivity|]. vm_compute. reflexivity.
  - split; [exact Hload | apply Hsame].
Defined.

(** C9 as stated fails: an item delivered 49 hours ago is not eligible
    again when the record has been written since.  Every run writes the
    whole delivered set back with the time of the run: after a delivery, a
    run 47 hours later that has nothing to deliver, and a run 2 hours after
    that, the record is 2 hours old and still holds the link, and the item
    is withheld; without the record it would be returned. *)
Lemma loadSentCache_empty_counterexample :
  let delivery := 1700000000000%Z in
  let between := (delivery + 47 * 60 * 60 * 1000)%Z in
  let later := (delivery + 49 * 60 * 60 * 1000)%Z in
  let item := newsAt delivery in
  let first := rankNews (caseMapping := latinCase) delivery Absent true [item] 10 72 in
  let second := rankNews (caseMapping := latinCase) between first.2 true [] 10 72 in
  let third := rankNews (caseMapping := latinCase) later second.2 true [item] 10 72 in
  first.1 = [item]
  ∧ second.2
    = Stored (mkSentCacheData [js "https://example.com/markets"] between)
  ∧ loadSentCache later second.2 = [js "https://example.com/markets"]
  ∧ third.1 = []
  ∧ (rankNews (caseMapping := latinCase) later Absent true [item] 10 72).1 = [item].
Proof.
  cbv zeta. split; [|split; [|split; [|split]]]; vm_compute; reflexivity.
Qed.


(** C1, as the code has it. The list returned by [rankNews] has at most 3
    items of any one source, has at most [max(maxItems, 0)] items, and has
    no item whose normalized link is in the sent cache loaded at the start
    of the call. *)
Theorem rankNews_diversified {caseMapping : CaseMapping} (now : Z)
    (file : CacheFile) (writable : bool)
    (items : list NewsItem) (maxItems maxAgeHours : Z) :
  let topItems := fst (rankNews now file writable items maxItems maxAgeHours) in
  (∀ s, countSource s topItems <= 3)
  ∧ (Z.of_nat (length topItems) <= Z.max maxItems 0)%Z
  ∧ (∀ item, item ∈ topItems ->
       normalizeUrl (link item) ∉ loadSentCache now file).
Proof.
  intros topItems. split; [|split].
  - apply diversifiedPick_bounds.
  - rewrite Z.max_comm. apply diversifiedPick_bounds.
  - intros item Hin. apply rankNews_from_filtered in Hin as [_ Hfresh].
    intros Hcache. apply not_false_iff_true in Hfresh. apply Hfresh.
    apply fresh_false. by left.
Qed.

(** C1 as stated fails for a negative [maxItems]: the empty list returned
    has more than [maxItems] items. *)
Lemma rankNews_diversified_counterexample :
  let topItems :=
    fst (rankNews (caseMapping := latinCase) 0 Absent true [newsAt 0] (-1) 24) in
  topItems = [] ∧ ¬ (Z.of_nat (length topItems) <= -1)%Z.
Proof. split; [reflexivity | vm_compute; congruence]. Qed.

(** ** Social scores *)

Section SocialFacts.

Variables hackerNews reddit : list N -> option (list Hits).

Lemma recordResults_batch (batch : list PreScored) (m : gmap nat Z) :
  recordResults m (settleBatch hackerNews reddit batch)
  = foldl (recordScore hackerNews reddit) m batch.
Proof.
  revert m. induction batch as [|c r IH]; intros m; [done|].
  unfold recordResults, settleBatch in *. simpl. apply IH.
Qed.

(** The batches of five cover the candidates, in order. *)
Lemma socialLoop_all rounds i (top : list PreScored) (m : gmap nat Z) :
  length top <= i + 5 * rounds ->
  socialLoop hackerNews reddit rounds i top m
  = foldl (recordScore hackerNews reddit) m (drop i top).
Proof.
  revert i m. induction rounds as [|rounds IH]; intros i m Hlen; simpl.
  - by rewrite drop_ge by lia.
  - destruct (i <? length top) eqn:E.
    + rewrite IH by lia. rewrite recordResults_batch. unfold slice.
      replace (i + 5 - i) with 5 by lia.
      rewrite <- (take_drop 5 (drop i top)) at 2.
      by rewrite foldl_app, drop_drop.
    + apply Nat.ltb_ge in E. by rewrite drop_ge by lia.
Qed.

Lemma recordScore_other (l : list PreScored) (m : gmap nat Z) k :
  k ∉ map index l ->
  foldl (recordScore hackerNews reddit) m l !! k = m !! k.
Proof.
  revert m. induction l as [|c r IH]; intros m Hk; [done|].
  simpl. rewrite IH.
  - unfold recordScore. apply lookup_insert_ne. intros Heq. apply Hk.
    rewrite <- Heq. simpl. by left.
  - intros Hr. apply Hk. simpl. by right.
Qed.

Lemma recordScore_found (l : list PreScored) (m : gmap nat Z) k v :
  (∀ c, c ∈ l -> index c = k -> getSocialScore hackerNews reddit (link (item c)) = v) ->
  k ∈ map index l ->
  foldl (recordScore hackerNews reddit) m l !! k = Some v.
Proof.
  revert m. induction l as [|c r IH]; intros m Hv Hk.
  - by apply elem_of_nil in Hk.
  - simpl. destruct (decide (k ∈ map index r)) as [Hr|Hr].
    + apply IH; [|done]. intros c' Hc'. apply Hv. by right.
    + rewrite recordScore_other by done.
      apply elem_of_cons in Hk as [->|?]; [|done].
      unfold recordScore. rewrite lookup_insert_eq. f_equal. apply Hv; [by left|done].
Qed.

Lemma candidates_elem now items c :
  c ∈ candidates now items -> items !! index c = Some (item c).
Proof.
  unfold candidates, preScore. intros Hc.
  apply elem_of_lookup_imap in Hc as (i & x & -> & Hi). done.
Qed.

Lemma topCandidates_elem now items c :
  c ∈ topCandidates (candidates now items) -> c ∈ candidates now items.
Proof.
  unfold topCandidates, slice. intros Hc.
  apply (sublist_subseteq _ _ (sublist_take _ _)) in Hc.
  rewrite drop_0 in Hc. by rewrite sortDesc_Permutation in Hc.
Qed.

Lemma socialScoresOf_lookup now items k :
  socialScoresOf hackerNews reddit now items !! k
  = match items !! k with
    | Some x =>
        if decide (k ∈ map index (topCandidates (candidates now items)))
        then Some (getSocialScore hackerNews reddit (link x))
        else None
    | None => None
    end.
Proof.
  unfold socialScoresOf. fold (candidates now items).
  rewrite socialLoop_all by lia. rewrite drop_0.
  destruct (decide (k ∈ map index (topCandidates (candidates now items))))
    as [Hin|Hout].
  - assert (Hitem : ∀ c, c ∈ topCandidates (candidates now items) ->
                         index c = k -> items !! k = Some (item c)).
    { intros c Hc <-. by apply (candidates_elem now), topCandidates_elem. }
    pose proof Hin as Hin'.
    apply list_elem_of_fmap in Hin' as (c0 & Hk0 & Hc0).
    rewrite (Hitem c0 Hc0 (eq_sym Hk0)).
    apply recordScore_found; [|done].
    intros c Hc Hk. apply Hitem in Hc; [|done].
    rewrite (Hitem c0 Hc0 (eq_sym Hk0)) in Hc. congruence.
  - rewrite recordScore_other, lookup_empty by done. by destruct (items !! k).
Qed.

Lemma getSocialScore_failed url :
  hackerNews url = None -> reddit url = None ->
  getSocialScore hackerNews reddit url = 0%Z.
Proof.
  intros Hh Hr. unfold getSocialScore, checkHackerNews, checkReddit.
  by rewrite Hh, Hr.
Qed.

End SocialFacts.

Lemma enriched_lookup hackerNews reddit now items i e :
  enriched hackerNews reddit now items !! i = Some e ->
  ∃ x, items !! i = Some x
       ∧ socialScore (scoreBreakdown e)
         = default 0%Z (socialScoresOf hackerNews reddit now items !! i).
Proof.
  unfold enriched. rewrite list_lookup_imap.
  destruct (items !! i) as [x|]; [|done]. simpl. intros [= <-]. by exists x.
Qed.

(** C8. In [computeRelevance] the social look-ups are made for the first
    20 candidates in descending order of the pre-score (cross-feed +
    trending + recency) only; every other document gets social score 0.  A
    candidate among the 20 gets what [getSocialScore] returns for its link,
    which is 0 when both look-ups fail; this neither stops the other
    candidates from getting theirs nor the run from returning every
    document. *)
Theorem social_lookups_top20 (hackerNews reddit : list N -> option (list Hits))
    (now : Z) (items : list NewsItem) :
  let top := topCandidates (candidates now items) in
  let scored := enriched hackerNews reddit now items in
  length top <= 20
  ∧ (∀ c, c ∈ candidates now items ->
       items !! index c = Some (item c)
       ∧ localScore c
         = (default 0 (computeCrossFeedScores items !! index c)
            + default 0 (computeTrendingScores items !! index c)
            + default 0 (computeRecencyScores now items !! index c))%Z)
  ∧ (∀ c c', c ∈ top -> c' ∈ candidates now items -> c' ∉ top ->
       (localScore c' <= localScore c)%Z)
  ∧ (∀ i e, scored !! i = Some e -> i ∉ map index top ->
       socialScore (scoreBreakdown e) = 0%Z)
  ∧ (∀ i x e, items !! i = Some x -> scored !! i = Some e ->
       i ∈ map index top ->
       socialScore (scoreBreakdown e)
       = getSocialScore hackerNews reddit (link x)
       ∧ (hackerNews (link x) = None -> reddit (link x) = None ->
          socialScore (scoreBreakdown e) = 0%Z))
  ∧ computeRelevance hackerNews reddit now items ≡ₚ scored
  ∧ length (computeRelevance hackerNews reddit now items) = length items.
Proof.
  intros top scored.
  assert (Hperm : computeRelevance hackerNews reddit now items ≡ₚ scored).
  { unfold computeRelevance. destruct items as [|x r]; [done|].
    cbn [length Nat.eqb]. apply sortDesc_Permutation. }
  split; [|split; [|split; [|split; [|split; [|split]]]]].
  - subst top. unfold topCandidates, slice. rewrite length_take. lia.
  - intros c Hc. unfold candidates, preScore in Hc.
    apply elem_of_lookup_imap in Hc as (i & x & -> & Hi). done.
  - intros c c' Hc Hc' Hout. subst top. unfold topCandidates, slice in *.
    rewrite drop_0 in *. simpl in *.
    pose proof (sortDesc_sorted localScore (candidates now items)) as Hs.
    rewrite <- (take_drop 20 (sortDesc localScore (candidates now items))) in Hs.
    apply (StronglySorted_app_1_elem_of _ _ _ c c') in Hs; [done|done|].
    rewrite <- (sortDesc_Permutation localScore) in Hc'.
    rewrite <- (take_drop 20 (sortDesc localScore (candidates now items))) in Hc'.
    apply elem_of_app in Hc' as [?|?]; done.
  - intros i e He Hout. apply enriched_lookup in He as (x & Hx & ->).
    rewrite socialScoresOf_lookup, Hx. by rewrite decide_False.
  - intros i x e Hx He Hin. apply enriched_lookup in He as (x' & Hx' & ->).
    rewrite socialScoresOf_lookup, Hx. rewrite decide_True by done. simpl.
    split; [done|]. apply getSocialScore_failed.
  - done.
  - rewrite Hperm. subst scored. unfold enriched. apply length_imap.
Qed.

(** ** The pipeline on sample documents *)

Example significant_words :
  extractSignificantWords (js "Trump announces NEW tariffs on China imports — já!")
  = map js ["trump"; "announces"; "tariffs"; "china"; "imports"]%string.
Proof. vm_compute. reflexivity. Qed.

Example short_title_needs_jaccard :
  areSimilar (js "Trump tariffs")
             (js "Trump announces new tariffs on China imports") = false.
Proof. vm_compute. reflexivity. Qed.

Example long_titles_overlap :
  areSimilar (js "Senate passes sweeping climate bill")
             (js "Climate bill passes Senate after long debate") = true.
Proof. vm_compute. reflexivity. Qed.

Example three_reports_one_story :
  map title
    (fst (rankNews (caseMapping := latinCase) 3600000 Absent true
            [story "Senate passes sweeping climate bill" "Alpha" 70;
             story "Senate passes climate bill" "Beta" 90;
             story "Sweeping climate bill passes Senate" "Gamma" 80;
             story "Local team wins championship final" "Alpha" 10]
            10 24))
  = [js "Senate passes climate bill"; js "Local team wins championship final"].
Proof. vm_compute. reflexivity. Qed.

(** * Further properties of the code *)

(** ** The two passes keep a representative of every story *)

Section GreedyCover.

Context {A : Type} (dup : A -> A -> bool).

(** Whatever the selection meets is kept or is a duplicate of something
    kept from what came before it. *)
Lemma greedy_covers (l1 l2 : list A) (x : A) :
  x ∈ greedy dup [] (l1 ++ x :: l2)
  ∨ ∃ k, k ∈ greedy dup [] (l1 ++ x :: l2) ∧ k ∈ l1 ∧ dup x k = true.
Proof.
  rewrite greedy_app.
  change (greedy dup (greedy dup [] l1) (x :: l2))
    with (greedy dup (keepNew dup (greedy dup [] l1) x) l2).
  destruct (greedy_sublist dup [] l1) as (l1' & Hl1 & Hsub1). simpl in Hl1.
  destruct (greedy_sublist dup (keepNew dup (greedy dup [] l1) x) l2)
    as (l' & -> & _).
  unfold keepNew. destruct (existsb _ _) eqn:E.
  - right. apply existsb_exists in E as (k & Hk & Hdup).
    apply list_elem_of_In in Hk. exists k. split; [|split; [|done]].
    + apply elem_of_app. by left.
    + rewrite Hl1 in Hk. by apply (sublist_subseteq _ _ Hsub1).
  - left. rewrite !elem_of_app, list_elem_of_singleton. tauto.
Qed.

Lemma greedy_head (x : A) (l : list A) :
  ∃ rest, greedy dup [] (x :: l) = x :: rest.
Proof.
  destruct (greedy_sublist dup [x] l) as (l' & Hl' & _).
  exists l'. exact Hl'.
Qed.

End GreedyCover.

(** X1. An item of the input of [deduplicateBySimilarity] is returned, or is
    similar to a returned item that scores at least as much: of every group
    of similar items the pass keeps one of the best. *)
Theorem deduplicateBySimilarity_keeps_best (items : list NewsItem) (x : NewsItem) :
  x ∈ items ->
  x ∈ deduplicateBySimilarity items
  ∨ ∃ k, k ∈ deduplicateBySimilarity items
         ∧ areSimilar (title x) (title k) = true
         ∧ (relevanceScore x <= relevanceScore k)%Z.
Proof.
  intros Hx. rewrite deduplicateBySimilarity_greedy.
  rewrite <- (sortDesc_Permutation relevanceScore) in Hx.
  apply list_elem_of_split in Hx as (l1 & l2 & Hsplit).
  pose proof (sortDesc_sorted relevanceScore items) as Hsorted.
  rewrite Hsplit in *.
  destruct (greedy_covers similarItems l1 l2 x) as [?|(k & Hk & Hk1 & Hdup)];
    [by left|right].
  exists k. split; [done|]. split; [done|].
  apply (StronglySorted_app_1_elem_of _ _ _ k x) in Hsorted; [done|done|].
  by left.
Qed.

Lemma deduplicateBySimilarity_keeps_best_witness :
  story "Senate passes sweeping climate bill" "Alpha" 70
  ∈ deduplicateBySimilarity
      [story "Senate passes sweeping climate bill" "Alpha" 70;
       story "Senate passes climate bill" "Beta" 90]
  ∨ ∃ k, k ∈ deduplicateBySimilarity
               [story "Senate passes sweeping climate bill" "Alpha" 70;
                story "Senate passes climate bill" "Beta" 90]
         ∧ areSimilar
             (title (story "Senate passes sweeping climate bill" "Alpha" 70))
             (title k) = true
         ∧ (relevanceScore (story "Senate passes sweeping climate bill" "Alpha" 70)
            <= relevanceScore k)%Z.
Proof.
  exact (deduplicateBySimilarity_keeps_best _ _ (list_elem_of_here _ _)).
Defined.

(** The output of [deduplicateBySimilarity] is in descending order of
    score, holds items of the input only, each no more often than the input
    does, and for a non-empty input starts with an item of the highest
    score. *)
Theorem deduplicateBySimilarity_ranked (items : list NewsItem) :
  StronglySorted (descending relevanceScore) (deduplicateBySimilarity items)
  ∧ deduplicateBySimilarity items ⊆+ items
  ∧ (items ≠ [] ->
     ∃ top rest, deduplicateBySimilarity items = top :: rest
                 ∧ ∀ x, x ∈ items -> (relevanceScore x <= relevanceScore top)%Z).
Proof.
  split; [apply deduplicateBySimilarity_sorted|]. split.
  - rewrite deduplicateBySimilarity_greedy.
    destruct (greedy_sublist similarItems [] (sortDesc relevanceScore items))
      as (l' & -> & Hsub). simpl.
    transitivity (sortDesc relevanceScore items); [by apply sublist_submseteq|].
    apply Permutation_submseteq, sortDesc_Permutation.
  - intros Hne. rewrite deduplicateBySimilarity_greedy.
    pose proof (sortDesc_sorted relevanceScore items) as Hsorted.
    pose proof (sortDesc_Permutation relevanceScore items) as Hperm.
    destruct (sortDesc relevanceScore items) as [|top sorted].
    { apply Permutation_nil_l in Hperm. done. }
    destruct (greedy_head similarItems top sorted) as (rest & ->).
    exists top, rest. split; [done|]. intros x Hx.
    rewrite <- Hperm in Hx. apply StronglySorted_inv in Hsorted as [_ Htop].
    apply elem_of_cons in Hx as [->|Hx]; [lia|].
    rewrite Forall_forall in Htop. by apply Htop.
Qed.

(** X2. An item of the input of [finalDedup] is returned, or is a duplicate,
    by the test of the final pass, of a returned item that comes before it;
    the first item of the input is always returned first. *)
Theorem finalDedup_keeps_earliest (items : list NewsItem) :
  (∀ l1 x l2, items = l1 ++ x :: l2 ->
     x ∈ finalDedup items
     ∨ ∃ k, k ∈ finalDedup items ∧ k ∈ l1
            ∧ finalDuplicate (extractSignificantWords (title x))
                (extractSignificantWords (title k)) = true)
  ∧ (∀ x l, items = x :: l -> ∃ rest, finalDedup items = x :: rest).
Proof.
  split.
  - intros l1 x l2 ->. rewrite finalDedup_greedy.
    apply (greedy_covers finalDuplicateItems).
  - intros x l ->. rewrite finalDedup_greedy. apply greedy_head.
Qed.

(** ** The shape of the words the tokenizers return *)

Lemma isUpper_spec c :
  isUpper c = true
  <-> (65 <= c <= 90)%N ∨ ((192 <= c <= 222)%N ∧ c ≠ 215%N).
Proof.
  unfold isUpper.
  rewrite orb_true_iff, !andb_true_iff, !N.leb_le, negb_true_iff, N.eqb_neq.
  tauto.
Qed.

Lemma isUpper_false c :
  isUpper c = false
  <-> ¬ ((65 <= c <= 90)%N ∨ ((192 <= c <= 222)%N ∧ c ≠ 215%N)).
Proof. rewrite <- isUpper_spec. by destruct (isUpper c). Qed.

Lemma lowerUnit_lower c : Forall (fun d => isUpper d = false) (lowerUnit c).
Proof.
  unfold lowerUnit. destruct (isUpper c) eqn:Eu.
  - apply isUpper_spec in Eu. repeat constructor. apply isUpper_false. lia.
  - destruct (N.eqb_spec c 304); [by repeat constructor|].
    destruct (N.eqb_spec c 8490); by repeat constructor.
Qed.

Lemma toLowerCase_lower s : Forall (fun d => isUpper d = false) (toLowerCase s).
Proof.
  unfold toLowerCase. induction s as [|c r IH]; simpl; [constructor|].
  apply Forall_app. split; [apply lowerUnit_lower | exact IH].
Qed.

Lemma replaceClass_Forall (P : N -> Prop) cls s :
  P 32%N -> Forall (fun c => cls c = false -> P c) s ->
  Forall P (replaceClass cls s).
Proof.
  intros Hsp Hs. unfold replaceClass. apply Forall_fmap.
  eapply Forall_impl; [exact Hs|]. intros c Hc. simpl in *.
  destruct (cls c); [exact Hsp | by apply Hc].
Qed.

Lemma collapseFrom_Forall (P : N -> Prop) inRun s :
  P 32%N -> Forall (fun c => isSpace c = false -> P c) s ->
  Forall P (collapseFrom inRun s).
Proof.
  intros Hsp Hs. revert inRun.
  induction Hs as [|c r Hc _ IH]; intros inRun; simpl; [constructor|].
  destruct (isSpace c); [destruct inRun|]; auto.
Qed.

Lemma trimStart_elem c s : c ∈ trimStart s -> c ∈ s.
Proof.
  induction s as [|d r IH]; simpl; [done|].
  destruct (isSpace d); [|done]. intros Hc. right. by apply IH.
Qed.

Lemma trim_elem c s : c ∈ trim s -> c ∈ s.
Proof.
  unfold trim. rewrite !list_elem_of_In, <- in_rev, <- !list_elem_of_In.
  intros Hc. apply trimStart_elem in Hc.
  rewrite list_elem_of_In, <- in_rev, <- list_elem_of_In in Hc.
  by apply trimStart_elem.
Qed.

(** The pieces of a split hold units of the text, never the separator. *)
Lemma split_elem sep s w c :
  w ∈ split sep s -> c ∈ w -> c ∈ s ∧ c ≠ sep.
Proof.
  revert w. induction s as [|d r IH]; intros w; simpl.
  - intros Hw%list_elem_of_singleton Hc. subst. by apply elem_of_nil in Hc.
  - destruct (N.eqb_spec d sep) as [->|Hd].
    + intros [->|Hw]%elem_of_cons Hc; [by apply elem_of_nil in Hc|].
      destruct (IH w Hw Hc). split; [by right|done].
    + destruct (split sep r) as [|w0 ws] eqn:Esplit.
      * intros Hw%list_elem_of_singleton Hc. subst.
        apply list_elem_of_singleton in Hc as ->. split; [by left|done].
      * intros [->|Hw]%elem_of_cons Hc.
        -- apply elem_of_cons in Hc as [->|Hc]; [split; [by left|done]|].
           destruct (IH w0 (list_elem_of_here _ _) Hc). split; [by right|done].
        -- destruct (IH w (list_elem_of_further _ _ _ Hw) Hc).
           split; [by right|done].
Qed.

Lemma inAlphabet_wordUnit c :
  inAlphabet c = true -> isUpper c = false -> isSpace c = false -> wordUnit c.
Proof.
  unfold inAlphabet, wordUnit. intros Hc Hu Hs. rewrite Hu, Hs in Hc.
  rewrite orb_false_r, !orb_true_iff, !andb_true_iff, !N.leb_le,
    bool_decide_eq_true in Hc.
  tauto.
Qed.

(** After the replacements every unit is a space or a lower-case letter or
    digit of the alphabet. *)
Lemma alphabet_only s :
  Forall (fun d => isUpper d = false) s ->
  Forall (fun c => isSpace c = false -> wordUnit c)
    (replaceClass (fun c => negb (inAlphabet c)) s).
Proof.
  intros Hs. apply replaceClass_Forall; [done|].
  eapply Forall_impl; [exact Hs|]. intros c Hu. simpl.
  intros Ha%negb_false_iff Hsp. by apply inAlphabet_wordUnit.
Qed.

Lemma normalizeTitle_units title c :
  c ∈ normalizeTitle title -> c = 32%N ∨ wordUnit c.
Proof.
  unfold normalizeTitle. intros Hc%trim_elem. revert c Hc.
  apply Forall_forall. unfold collapseSpaces.
  apply (collapseFrom_Forall (fun c => c = 32%N ∨ wordUnit c)); [by left|].
  eapply Forall_impl; [apply alphabet_only|].
  - apply replaceClass_Forall; [done|].
    eapply Forall_impl; [apply toLowerCase_lower|]. done.
  - intros c Hc Hsp. right. by apply Hc.
Qed.

Lemma keyword_units text c :
  c ∈ collapseSpaces (replaceClass (fun c => negb (inAlphabet c)) (toLowerCase text)) ->
  c = 32%N ∨ wordUnit c.
Proof.
  revert c. apply Forall_forall. unfold collapseSpaces.
  apply (collapseFrom_Forall (fun c => c = 32%N ∨ wordUnit c)); [by left|].
  eapply Forall_impl; [apply alphabet_only, toLowerCase_lower|].
  intros c Hc Hsp. right. by apply Hc.
Qed.

Lemma kept_word (stop : list (list N)) (pieces : list (list N)) w :
  w ∈ List.filter (fun w => (2 <? length w) && negb (Set_has stop w)) pieces ->
  w ∈ pieces ∧ 2 < length w ∧ (w ∉ stop).
Proof.
  rewrite list_elem_of_In, filter_In, <- list_elem_of_In.
  intros [Hw Hkeep]. apply andb_true_iff in Hkeep as [Hlen Hstop].
  apply Nat.ltb_lt in Hlen. apply negb_true_iff in Hstop.
  split; [exact Hw|]. split; [exact Hlen|].
  intros Hin. apply Set_has_true in Hin. rewrite Hin in Hstop. discriminate.
Qed.

(** X3. Both tokenizers return words of more than two units, none of them a
    stop word of its list, made only of lower-case letters of the alphabet
    and digits: no space, no punctuation, no upper case. *)
Theorem tokenizer_word_shape :
  (∀ title w, w ∈ extractSignificantWords title ->
     2 < length w ∧ (w ∉ DEDUP_STOP_WORDS) ∧ Forall wordUnit w)
  ∧ (∀ text w, w ∈ extractKeywords text ->
       2 < length w ∧ (w ∉ STOP_WORDS) ∧ Forall wordUnit w).
Proof.
  split.
  - intros title w Hw. unfold extractSignificantWords in Hw.
    apply kept_word in Hw as (Hw & Hlen & Hstop).
    split; [exact Hlen|]. split; [exact Hstop|].
    apply Forall_forall. intros c Hc.
    destruct (split_elem _ _ _ _ Hw Hc) as [Hin Hne].
    destruct (normalizeTitle_units _ _ Hin) as [H32|Hunit]; [|exact Hunit].
    contradiction.
  - intros text w Hw. unfold extractKeywords, splitSpaces in Hw.
    apply kept_word in Hw as (Hw & Hlen & Hstop).
    split; [exact Hlen|]. split; [exact Hstop|].
    apply Forall_forall. intros c Hc.
    destruct (split_elem _ _ _ _ Hw Hc) as [Hin Hne].
    destruct (keyword_units _ _ Hin) as [H32|Hunit]; [|exact Hunit].
    contradiction.
Qed.

(** ** The two metrics *)

Lemma num_div (a n : nat) :
  n ≠ 0 -> (num a / num n == Z.of_nat a # Pos.of_nat n)%Q.
Proof.
  intros Hn. rewrite (Qmake_Qdiv (Z.of_nat a) (Pos.of_nat n)). unfold num.
  replace (Z.pos (Pos.of_nat n)) with (Z.of_nat n) by lia. reflexivity.
Qed.

Lemma ratio_bounds (i m u : nat) :
  i <= m -> m <= u -> m ≠ 0 ->
  (0 <= num i / num u)%Q ∧ (num i / num u <= num i / num m)%Q
  ∧ (num i / num m <= 1)%Q.
Proof.
  intros Him Hmu Hm. rewrite !num_div by lia.
  unfold Qle. simpl. split; [|split]; nia.
Qed.

(** X4. Both metrics lie between 0 and 1, and the Jaccard similarity of two
    word lists never exceeds their overlap coefficient. *)
Theorem similarity_metrics_bounded (wordsA wordsB : list (list N)) :
  (0 <= jaccardSimilarity wordsA wordsB)%Q
  ∧ (jaccardSimilarity wordsA wordsB <= overlapCoefficient wordsA wordsB)%Q
  ∧ (overlapCoefficient wordsA wordsB <= 1)%Q.
Proof.
  rewrite jaccardSimilarity_spec, overlapCoefficient_spec.
  unfold Jaccard, Overlap.
  set (X := list_to_set wordsA : gset (list N)).
  set (Y := list_to_set wordsB : gset (list N)).
  clearbody X Y.
  destruct (decide (X = ∅ ∨ Y = ∅)) as [_|Hne]; [by repeat split|].
  apply ratio_bounds.
  - assert (HX : size (X ∩ Y) <= size X).
    { apply subseteq_size. apply intersection_subseteq_l. }
    assert (HY : size (X ∩ Y) <= size Y).
    { apply subseteq_size. apply intersection_subseteq_r. }
    lia.
  - assert (HX : size X <= size (X ∪ Y)).
    { apply subseteq_size. apply union_subseteq_l. }
    lia.
  - assert (size X ≠ 0) by (rewrite size_zero_empty; tauto).
    assert (size Y ≠ 0) by (rewrite size_zero_empty; tauto). lia.
Qed.

(** The order of the two arguments does not matter: to either metric, to
    [areSimilar], or to the test of the final pass. *)
Theorem similarity_symmetric (titleA titleB : list N) (wordsA wordsB : list (list N)) :
  jaccardSimilarity wordsA wordsB = jaccardSimilarity wordsB wordsA
  ∧ overlapCoefficient wordsA wordsB = overlapCoefficient wordsB wordsA
  ∧ areSimilar titleA titleB = areSimilar titleB titleA
  ∧ finalDuplicate wordsA wordsB = finalDuplicate wordsB wordsA.
Proof.
  split; [|split; [|split]].
  - rewrite !jaccardSimilarity_spec. apply Jaccard_sym.
  - rewrite !overlapCoefficient_spec. apply Overlap_sym.
  - apply areSimilar_sym.
  - apply finalDuplicate_sym.
Qed.

(** ** Trending scores *)

Lemma bump_lookup (m : gmap (list N) nat) k kw :
  default 0 (bump m k !! kw)
  = default 0 (m !! kw) + (if decide (kw = k) then 1 else 0).
Proof.
  unfold bump. destruct (decide (kw = k)) as [->|Hne].
  - by rewrite lookup_insert_eq.
  - rewrite lookup_insert_ne by done. lia.
Qed.

(** Counting a list of distinct keywords adds one to each of them. *)
Lemma bump_all (kws : list (list N)) (m : gmap (list N) nat) kw :
  NoDup kws ->
  default 0 (foldl bump m kws !! kw)
  = default 0 (m !! kw) + (if bool_decide (kw ∈ kws) then 1 else 0).
Proof.
  intros Hnd. revert m. induction Hnd as [|k r Hk _ IH]; intros m; cbn [foldl].
  - rewrite bool_decide_false by apply not_elem_of_nil. lia.
  - rewrite IH, bump_lookup. destruct (decide (kw = k)) as [->|Hne].
    + rewrite (bool_decide_false _ Hk).
      rewrite bool_decide_true by apply list_elem_of_here. lia.
    + destruct (decide (kw ∈ r)) as [Hin|Hout].
      * rewrite !bool_decide_true; [lia|by right|done].
      * rewrite !bool_decide_false; [lia| |done].
        intros [?|?]%elem_of_cons; done.
Qed.

(** The first loop of [computeTrendingScores]: the table holds, for every
    keyword, the number of documents that have it. *)
Lemma keywordFreq_counts (items : list NewsItem)
    (freq : gmap (list N) nat) (kept : list (list (list N))) :
  ∃ freq',
    foldl (fun '(keywordFreq, itemKeywords) item =>
             let kws := Set_new (extractKeywords (title item ++ js " " ++ description item)) in
             (foldl bump keywordFreq kws, itemKeywords ++ [kws]))
          (freq, kept) items
    = (freq', kept ++ map documentKeywords items)
    ∧ ∀ kw, default 0 (freq' !! kw)
            = default 0 (freq !! kw) + documentFrequency items kw.
Proof.
  revert freq kept. induction items as [|item r IH]; intros freq kept.
  - exists freq. simpl. rewrite app_nil_r. split; [done|]. intros kw.
    unfold documentFrequency. simpl. lia.
  - cbn [foldl].
    destruct (IH (foldl bump freq (documentKeywords item))
                (kept ++ [documentKeywords item])) as (freq' & Hfold & Hcount).
    exists freq'. split.
    + unfold documentKeywords in Hfold at 1 2. rewrite Hfold.
      by rewrite <- app_assoc.
    + intros kw. rewrite Hcount.
      rewrite bump_all by apply Set_new_NoDup.
      unfold documentFrequency. simpl.
      destruct (bool_decide (kw ∈ documentKeywords item)); simpl; lia.
Qed.

Lemma documentFrequency_le items kw : documentFrequency items kw <= length items.
Proof. unfold documentFrequency. apply List.filter_length_le. Qed.

Lemma trending_test (freq : gmap (list N) nat) kw :
  kw ∈ dom (filter (fun kc : list N * nat => 3 <= kc.2) freq)
  <-> 3 <= default 0 (freq !! kw).
Proof.
  rewrite elem_of_dom. unfold is_Some.
  setoid_rewrite map_lookup_filter_Some. simpl.
  destruct (freq !! kw) as [c|]; simpl.
  - split; [intros (x & [= <-] & Hx); done | intros Hc; by exists c].
  - split; [intros (x & ? & _); done | lia].
Qed.

Lemma computeTrendingScores_lookup items i :
  computeTrendingScores items !! i
  = (fun item => Z.min (Z.of_nat (trendingHitsOf items item) * 5) 30)
      <$> items !! i.
Proof.
  unfold computeTrendingScores.
  destruct (keywordFreq_counts items ∅ []) as (freq' & Hfold & Hcount).
  match goal with
  | |- context [foldl ?F (∅, []) items] =>
      replace (foldl F (∅, []) items)
        with (freq', [] ++ map documentKeywords items)
        by (symmetry; exact Hfold)
  end.
  cbv beta iota zeta.
  etransitivity; [apply forEachIndexed_insert|].
  rewrite app_nil_l, list_lookup_fmap.
  destruct (items !! i) as [item|]; [|done]. simpl. do 3 f_equal.
  unfold trendingHitsOf. f_equal. f_equal. apply List.filter_ext. intros kw.
  apply bool_decide_ext. rewrite trending_test, Hcount, lookup_empty. done.
Qed.

(** X5. The trending score of a document is 5 points for each of its keywords
    (from title and description, each counted once) that at least three
    documents of the run have, with a cap of 30.  So it is a multiple of 5
    between 0 and 30, and it is 0 for every document of a run of fewer than
    three documents. *)
Theorem trending_score_counts (items : list NewsItem) (i : nat) :
  computeTrendingScores items !! i
  = (fun item => Z.min (Z.of_nat (trendingHitsOf items item) * 5) 30)
      <$> items !! i
  ∧ (∀ v, computeTrendingScores items !! i = Some v ->
          (0 <= v <= 30)%Z ∧ (v mod 5 = 0)%Z)
  ∧ (length items < 3 ->
     ∀ v, computeTrendingScores items !! i = Some v -> v = 0%Z).
Proof.
  split; [apply computeTrendingScores_lookup|]. split.
  - intros v. rewrite computeTrendingScores_lookup.
    destruct (items !! i) as [item|]; [|done]. simpl. intros [= <-].
    split; [lia|].
    destruct (Z.min_spec (Z.of_nat (trendingHitsOf items item) * 5) 30)
      as [[_ ->]|[_ ->]]; [apply Z.mod_mul; lia | reflexivity].
  - intros Hfew v. rewrite computeTrendingScores_lookup.
    destruct (items !! i) as [item|]; [|done]. simpl. intros [= <-].
    replace (trendingHitsOf items item) with 0; [reflexivity|].
    symmetry. unfold trendingHitsOf.
    rewrite (List.filter_ext _ (fun _ => false)); [by rewrite List.filter_false|].
    intros kw. apply bool_decide_false.
    pose proof (documentFrequency_le items kw). lia.
Qed.

(** ** Social scores and the scored output *)

Lemma bestHit_from (hits : list Hits) (init : Hits) :
  let best :=
    foldl (fun best hit => if (score best <? score hit)%Z then hit else best)
      init hits in
  (score init <= score best)%Z
  ∧ (∀ h, h ∈ hits -> (score h <= score best)%Z)
  ∧ (best = init ∨ best ∈ hits).
Proof.
  revert init. induction hits as [|h r IH]; intros init; simpl.
  - split; [lia|]. split; [|by left]. intros h Hh. by apply elem_of_nil in Hh.
  - destruct (IH (if (score init <? score h)%Z then h else init))
      as (Hinit & Hall & Hwho).
    destruct (Z.ltb_spec (score init) (score h)) as [Hlt|Hge].
    + split; [lia|]. split.
      * intros h' [->|Hh']%elem_of_cons; [done|by apply Hall].
      * right. destruct Hwho as [->|?]; [by left|by right].
    + split; [lia|]. split.
      * intros h' [->|Hh']%elem_of_cons; [lia|by apply Hall].
      * destruct Hwho as [->|?]; [by left|right; by right].
Qed.

(** X6. Of the hits of a provider the one with the most points counts, and it
    counts only when it has more than 0 points; the social score never
    exceeds 50, and is not negative when no hit has a negative number of
    comments. *)
Theorem social_score_bounded (hackerNews reddit : list N -> option (list Hits))
    (url : list N) :
  (∀ hits,
     (0 <= score (bestHit hits))%Z
     ∧ (∀ h, h ∈ hits -> (score h <= score (bestHit hits))%Z)
     ∧ (bestHit hits = mkHits 0 0 ∨ bestHit hits ∈ hits))
  ∧ (getSocialScore hackerNews reddit url <= 50)%Z
  ∧ ((∀ hits h, hackerNews url = Some hits ∨ reddit url = Some hits ->
               h ∈ hits -> (0 <= comments h)%Z) ->
     (0 <= getSocialScore hackerNews reddit url)%Z).
Proof.
  split; [|split].
  - intros hits. apply (bestHit_from hits (mkHits 0 0)).
  - unfold getSocialScore. lia.
  - intros Hcomments.
    assert (Hprov : ∀ answer,
               hackerNews url = answer ∨ reddit url = answer ->
               (0 <= score (checkProvider answer))%Z
               ∧ (0 <= comments (checkProvider answer))%Z).
    { intros [hits|] Hans; simpl; [|lia].
      destruct (bestHit_from hits (mkHits 0 0)) as (Hs & _ & Hwho).
      split; [exact Hs|]. fold (bestHit hits) in Hwho.
      destruct Hwho as [->|Hin]; [simpl; lia|].
      by apply (Hcomments hits). }
    unfold getSocialScore, checkHackerNews, checkReddit.
    destruct (Hprov (hackerNews url)) as [? ?]; [by left|].
    destruct (Hprov (reddit url)) as [? ?]; [by right|]. lia.
Qed.

(** X7. [computeRelevance] returns the documents in descending order of
    relevance.  Each one is a document of the input with its identity fields
    unchanged; its relevance is its total, which is the sum of the four
    sub-scores; the cross-feed score is 0, 30, 40 or 50, the trending score
    lies between 0 and 30, the recency score is not negative and the social
    score is at most 50. *)
Theorem computeRelevance_scored (hackerNews reddit : list N -> option (list Hits))
    (now : Z) (items : list NewsItem) :
  StronglySorted (descending relevanceScore)
    (computeRelevance hackerNews reddit now items)
  ∧ ∀ e, e ∈ computeRelevance hackerNews reddit now items ->
      let bd := scoreBreakdown e in
      relevanceScore e = totalScore bd
      ∧ totalScore bd
        = (crossFeedScore bd + trendingScore bd + Types.recencyScore bd
           + socialScore bd)%Z
      ∧ crossFeedScore bd ∈ [0; 30; 40; 50]%Z
      ∧ (0 <= trendingScore bd <= 30)%Z
      ∧ (0 <= Types.recencyScore bd)%Z
      ∧ (socialScore bd <= 50)%Z
      ∧ ∃ i x, items !! i = Some x
               ∧ title e = title x ∧ link e = link x ∧ source e = source x
               ∧ publishedAt e = publishedAt x
               ∧ description e = description x.
Proof.
  split.
  - unfold computeRelevance. destruct (length items =? 0); [constructor|].
    apply sortDesc_sorted.
  - intros e He.
    assert (Hin : e ∈ enriched hackerNews reddit now items).
    { unfold computeRelevance in He. destruct items as [|x r].
      - by apply elem_of_nil in He.
      - cbn [length Nat.eqb] in He. by rewrite sortDesc_Permutation in He. }
    unfold enriched in Hin.
    apply elem_of_lookup_imap in Hin as (i & x & -> & Hx).
    unfold enrich. cbn [scoreBreakdown relevanceScore totalScore crossFeedScore
                         trendingScore Types.recencyScore socialScore
                         title link source publishedAt description].
    rewrite computeCrossFeedScores_lookup, computeTrendingScores_lookup,
      computeRecencyScores_lookup, socialScoresOf_lookup, Hx.
    cbn [fmap option_fmap option_map default from_option id].
    split; [done|]. split; [lia|]. split; [|split; [|split; [|split]]].
    + rewrite crossFeedTier_cases.
      destruct (size _) as [|[|[|n]]]; set_solver.
    + lia.
    + apply recencyScore_nonneg.
    + destruct (decide _); simpl; [|lia]. unfold getSocialScore. lia.
    + exists i, x. done.
Qed.

(** ** The key of a link *)

Lemma lowerUnit_fixed d :
  isUpper d = false -> d ≠ 304%N -> d ≠ 8490%N -> lowerUnit d = [d].
Proof.
  intros Hu H1 H2. unfold lowerUnit. rewrite Hu.
  destruct (N.eqb_spec d 304); [done|]. by destruct (N.eqb_spec d 8490).
Qed.

Lemma lowerUnit_idem c : flat_map lowerUnit (lowerUnit c) = lowerUnit c.
Proof.
  unfold lowerUnit at 2 3. destruct (isUpper c) eqn:Eu.
  - apply isUpper_spec in Eu. simpl. rewrite app_nil_r.
    apply lowerUnit_fixed; [apply isUpper_false|..]; lia.
  - destruct (N.eqb_spec c 304); [reflexivity|].
    destruct (N.eqb_spec c 8490); [reflexivity|].
    simpl. rewrite app_nil_r. by apply lowerUnit_fixed.
Qed.

Lemma toLowerCase_idem s : toLowerCase (toLowerCase s) = toLowerCase s.
Proof.
  unfold toLowerCase. induction s as [|c r IH]; simpl; [done|].
  by rewrite flat_map_app, IH, lowerUnit_idem.
Qed.

Lemma toLowerCase_app s t : toLowerCase (s ++ t) = toLowerCase s ++ toLowerCase t.
Proof. apply flat_map_app. Qed.

(** Lower-casing a unit other than a slash gives no final slash. *)
Lemma lowerUnit_last c :
  c ≠ 47%N -> ∃ pre d, lowerUnit c = pre ++ [d] ∧ d ≠ 47%N.
Proof.
  intros Hc. unfold lowerUnit. destruct (isUpper c) eqn:Eu.
  - apply isUpper_spec in Eu. exists [], (c + 32)%N. split; [done|lia].
  - destruct (N.eqb_spec c 304); [by exists [105%N], 775%N|].
    destruct (N.eqb_spec c 8490); [by exists [], 107%N|].
    by exists [], c.
Qed.

Lemma stripTrailingSlashes_snoc u c :
  stripTrailingSlashes (u ++ [c])
  = if (c =? 47)%N then stripTrailingSlashes u else u ++ [c].
Proof.
  unfold stripTrailingSlashes. rewrite rev_unit. simpl.
  destruct (c =? 47)%N; [done|]. simpl. by rewrite rev_involutive.
Qed.

Lemma stripTrailingSlashes_idem u :
  stripTrailingSlashes (stripTrailingSlashes u) = stripTrailingSlashes u.
Proof.
  induction u as [|c u IH] using rev_ind; [done|].
  rewrite stripTrailingSlashes_snoc. destruct (c =? 47)%N eqn:E; [done|].
  by rewrite stripTrailingSlashes_snoc, E.
Qed.

Lemma stripTrailingSlashes_last u : last (stripTrailingSlashes u) ≠ Some 47%N.
Proof.
  induction u as [|c u IH] using rev_ind; [done|].
  rewrite stripTrailingSlashes_snoc. destruct (N.eqb_spec c 47); [done|].
  rewrite last_snoc. congruence.
Qed.

(** The two steps of [normalizeUrl] commute. *)
Lemma toLowerCase_strip u :
  toLowerCase (stripTrailingSlashes u) = stripTrailingSlashes (toLowerCase u).
Proof.
  induction u as [|c u IH] using rev_ind; [done|].
  rewrite stripTrailingSlashes_snoc, toLowerCase_app.
  destruct (N.eqb_spec c 47) as [->|Hc].
  - change (toLowerCase [47%N]) with [47%N].
    by rewrite stripTrailingSlashes_snoc.
  - rewrite toLowerCase_app.
    change (toLowerCase [c]) with (lowerUnit c ++ []). rewrite app_nil_r.
    destruct (lowerUnit_last c Hc) as (pre & d & -> & Hd).
    rewrite app_assoc, stripTrailingSlashes_snoc.
    by destruct (N.eqb_spec d 47).
Qed.

Lemma stripTrailingSlashes_slashes u n :
  stripTrailingSlashes (u ++ replicate n 47%N) = stripTrailingSlashes u.
Proof.
  induction n as [|n IH]; [by rewrite app_nil_r|].
  rewrite replicate_S_end, app_assoc, stripTrailingSlashes_snoc. exact IH.
Qed.

Lemma stripTrailingSlashes_split u :
  ∃ n, u = stripTrailingSlashes u ++ replicate n 47%N.
Proof.
  induction u as [|c u [n IH]] using rev_ind; [by exists 0|].
  rewrite stripTrailingSlashes_snoc. destruct (N.eqb_spec c 47) as [->|Hc].
  - exists (S n). rewrite replicate_S_end, app_assoc. by rewrite <- IH.
  - exists 0. by rewrite app_nil_r.
Qed.

(** X8. [normalizeUrl] applies the case mapping to the link without its
    trailing slashes: the link is the text that is mapped, which ends with
    no slash, followed by slashes only; so links that differ in trailing
    slashes have the same key, whatever the case mapping does.  On links of
    Basic Latin and Latin-1 characters, where the case mapping is
    [toLowerCase], the key is already normal, ends with no slash, is the
    same for links that differ in the case of their letters, and its two
    steps can be taken in either order. *)
Theorem normalizeUrl_key {caseMapping : CaseMapping} (url : list N) :
  (∃ n, url = stripTrailingSlashes url ++ replicate n 47%N)
  ∧ last (stripTrailingSlashes url) ≠ Some 47%N
  ∧ normalizeUrl url = String_toLowerCase (stripTrailingSlashes url)
  ∧ (∀ n, normalizeUrl (url ++ replicate n 47%N) = normalizeUrl url)
  ∧ (Forall (fun c => (c < 256)%N) url ->
     let key := normalizeUrl (caseMapping := latinCase) in
     Forall (fun c => (c < 256)%N) (key url)
     ∧ key (key url) = key url
     ∧ last (key url) ≠ Some 47%N
     ∧ key (toLowerCase url) = key url
     ∧ key url = stripTrailingSlashes (toLowerCase url)).
Proof.
  split; [apply stripTrailingSlashes_split|].
  split; [apply stripTrailingSlashes_last|].
  split; [reflexivity|]. split.
  - intros n. unfold normalizeUrl. by rewrite stripTrailingSlashes_slashes.
  - intros Hlatin key. subst key. unfold normalizeUrl, latinCase, String_toLowerCase.
    split; [|split; [|split; [|split]]].
    + rewrite toLowerCase_strip.
      assert (Hlow : Forall (fun c => (c < 256)%N) (toLowerCase url)).
      { unfold toLowerCase. clear -Hlatin.
        induction Hlatin as [|c r Hc _ IH]; simpl; [constructor|].
        apply Forall_app. split; [|exact IH].
        unfold lowerUnit. destruct (isUpper c) eqn:Eu.
        - apply isUpper_spec in Eu. apply Forall_singleton. lia.
        - destruct (N.eqb_spec c 304); [lia|].
          destruct (N.eqb_spec c 8490); [lia|]. by apply Forall_singleton. }
      revert Hlow. generalize (toLowerCase url). intros u Hu.
      induction u as [|c u IH] using rev_ind; [constructor|].
      apply Forall_app in Hu as [Hu Hc].
      rewrite stripTrailingSlashes_snoc. destruct (c =? 47)%N; [by apply IH|].
      by apply Forall_app.
    + by rewrite <- toLowerCase_strip, stripTrailingSlashes_idem, toLowerCase_idem.
    + rewrite toLowerCase_strip. apply stripTrailingSlashes_last.
    + by rewrite !toLowerCase_strip, toLowerCase_idem.
    + apply toLowerCase_strip.
Qed.

(** ** What a run of the ranker leaves behind *)

Lemma sublist_StronglySorted {A} (R : A -> A -> Prop) (l k : list A) :
  l `sublist_of` k -> StronglySorted R k -> StronglySorted R l.
Proof.
  intros Hsub. induction Hsub as [|x l k Hlk IH|x l k Hlk IH]; intros Hs.
  - constructor.
  - apply StronglySorted_inv in Hs as [Hk Hx].
    constructor; [by apply IH|].
    apply Forall_forall. intros y Hy.
    rewrite Forall_forall in Hx. apply Hx.
    by apply (sublist_subseteq _ _ Hlk).
  - apply StronglySorted_inv in Hs as [Hk _]. by apply IH.
Qed.

Lemma foldl_Set_add_map {A} (g : A -> list N) (l : list A) (s : list (list N)) :
  foldl (fun cache x => Set_add cache (g x)) s l = foldl Set_add s (map g l).
Proof. revert s. induction l as [|x r IH]; intros s; simpl; [done|apply IH]. Qed.

Lemma loadSentCache_NoDup now file : NoDup (loadSentCache now file).
Proof.
  unfold loadSentCache. destruct file as [| | |data]; try apply NoDup_nil_2.
  destruct (_ >? _)%Z; [apply NoDup_nil_2 | apply Set_new_NoDup].
Qed.

Lemma rankNews_cache {caseMapping : CaseMapping} now file items maxItems maxAgeHours :
  ∃ urls,
    snd (rankNews now file true items maxItems maxAgeHours)
    = Stored (mkSentCacheData urls now)
    ∧ NoDup urls
    ∧ ∀ k, k ∈ urls
           <-> k ∈ loadSentCache now file
               ∨ ∃ item, item ∈ fst (rankNews now file true items maxItems maxAgeHours)
                         ∧ k = normalizeUrl (link item).
Proof.
  unfold rankNews, saveSentCache. cbn [fst snd].
  eexists. split; [reflexivity|]. rewrite foldl_Set_add_map. split.
  - apply foldl_Set_add_NoDup, loadSentCache_NoDup.
  - intros k. rewrite foldl_Set_add_elem, list_elem_of_fmap.
    split; intros [?|(item & ? & ?)]; auto; right; by exists item.
Qed.

(** X9. [rankNews] records what it returns.  When the cache file can be
    written, the record it leaves has the time of the run and holds, once
    each, the links of the delivered set it loaded and the normalized links
    of the items it returns, and nothing else; when the write fails the file
    is as it was. *)
Theorem rankNews_marks_delivered {caseMapping : CaseMapping} (now : Z) (file : CacheFile)
    (items : list NewsItem) (maxItems maxAgeHours : Z) :
  snd (rankNews now file false items maxItems maxAgeHours) = file
  ∧ ∃ urls,
      snd (rankNews now file true items maxItems maxAgeHours)
      = Stored (mkSentCacheData urls now)
      ∧ NoDup urls
      ∧ ∀ k, k ∈ urls
             <-> k ∈ loadSentCache now file
                 ∨ ∃ item, item ∈ fst (rankNews now file true items maxItems maxAgeHours)
                           ∧ k = normalizeUrl (link item).
Proof. split; [reflexivity | apply rankNews_cache]. Qed.

(** X10. No item is delivered twice: a run that starts from the record an
    earlier run wrote, no more than 48 hours after it, returns no item with
    the normalized link of an item the earlier run returned, nor one that
    the earlier run already held as delivered. *)
Theorem rankNews_never_repeats {caseMapping : CaseMapping} (now later : Z) (file : CacheFile)
    (items items' : list NewsItem) (maxItems maxAgeHours maxItems' maxAgeHours' : Z)
    (writable' : bool) :
  (later - now <= 48 * 60 * 60 * 1000)%Z ->
  let first := rankNews now file true items maxItems maxAgeHours in
  let second := rankNews later (snd first) writable' items' maxItems' maxAgeHours' in
  Forall (fun b =>
            Forall (fun a => normalizeUrl (link a) ≠ normalizeUrl (link b))
              (fst first)
            ∧ normalizeUrl (link b) ∉ loadSentCache now file)
    (fst second).
Proof.
  intros Hsoon first second. apply Forall_forall. intros b Hb.
  destruct (rankNews_cache now file items maxItems maxAgeHours)
    as (urls & Hfile & _ & Hurls).
  fold first in Hfile, Hurls.
  apply rankNews_from_filtered in Hb as [_ Hfresh].
  assert (Hout : normalizeUrl (link b) ∉ urls).
  { intros Hin. apply not_false_iff_true in Hfresh. apply Hfresh.
    apply fresh_false. left. rewrite Hfile. unfold loadSentCache.
    cbn [timestamp Ranker.urls].
    destruct (Z.gtb_spec (later - now) (48 * 60 * 60 * 1000)) as [?|_]; [lia|].
    by apply Set_new_elem. }
  split.
  - apply Forall_forall. intros a Ha Heq. apply Hout, Hurls. right. by exists a.
  - intros Hold. apply Hout, Hurls. by left.
Qed.

Lemma rankNews_never_repeats_witness :
  Forall (fun b =>
            Forall (fun a => normalizeUrl (caseMapping := latinCase) (link a)
                             ≠ normalizeUrl (caseMapping := latinCase) (link b))
              (fst (rankNews (caseMapping := latinCase) 1700000000000 Absent true
                      [newsAt 1700000000000] 10 24))
            ∧ normalizeUrl (caseMapping := latinCase) (link b)
              ∉ loadSentCache 1700000000000 Absent)
    (fst (rankNews (caseMapping := latinCase) 1700003600000
            (snd (rankNews (caseMapping := latinCase) 1700000000000 Absent true
                    [newsAt 1700000000000] 10 24))
            true [newsAt 1700000000000; newsAt 1700003000000] 10 24)).
Proof.
  apply (rankNews_never_repeats (caseMapping := latinCase)
           1700000000000 1700003600000 Absent
           [newsAt 1700000000000]
           [newsAt 1700000000000; newsAt 1700003000000] 10 24 10 24 true).
  vm_compute. discriminate.
Defined.

(** X11. What [rankNews] returns is in descending order of relevance, is a
    selection from its input with no two similar titles, and has no item
    older than [maxAgeHours] and none with an empty link. *)
Theorem rankNews_ranked {caseMapping : CaseMapping} (now : Z) (file : CacheFile) (writable : bool)
    (items : list NewsItem) (maxItems maxAgeHours : Z) :
  let topItems := fst (rankNews now file writable items maxItems maxAgeHours) in
  StronglySorted (descending relevanceScore) topItems
  ∧ duplicateFree similarItems topItems
  ∧ topItems ⊆+ items
  ∧ ∀ item, item ∈ topItems ->
      (ageHours now item <= inject_Z maxAgeHours)%Q ∧ link item ≠ [].
Proof.
  intros topItems.
  set (filtered := List.filter (fresh (loadSentCache now file) now maxAgeHours) items).
  assert (Hsub : topItems `sublist_of` deduplicateBySimilarity filtered).
  { subst topItems. unfold rankNews. cbn [fst]. fold filtered.
    rewrite (sortDesc_fixed relevanceScore (deduplicateBySimilarity filtered))
      by apply deduplicateBySimilarity_sorted.
    apply diversifiedPick_bounds. }
  split; [|split; [|split]].
  - eapply sublist_descending; [exact Hsub|]. apply deduplicateBySimilarity_sorted.
  - eapply sublist_StronglySorted; [exact Hsub|].
    apply deduplicateBySimilarity_duplicateFree.
  - transitivity (deduplicateBySimilarity filtered); [by apply sublist_submseteq|].
    rewrite deduplicateBySimilarity_greedy.
    destruct (greedy_sublist similarItems [] (sortDesc relevanceScore filtered))
      as (l' & -> & Hl'). simpl.
    transitivity (sortDesc relevanceScore filtered); [by apply sublist_submseteq|].
    transitivity filtered; [apply Permutation_submseteq, sortDesc_Permutation|].
    apply sublist_submseteq. subst filtered.
    clear. induction items as [|x r IH]; simpl; [done|].
    destruct (fresh _ _ _ x); [by apply sublist_skip | by apply sublist_cons].
  - intros item Hin. apply rankNews_from_filtered in Hin as [_ Hfresh].
    apply not_false_iff_true in Hfresh. rewrite fresh_false in Hfresh.
    split.
    + apply Qnot_lt_le. tauto.
    + tauto.
Qed.

(** ** The diversified selection on its own *)

Lemma countSource_app s (l k : list NewsItem) :
  countSource s (l ++ k) = countSource s l + countSource s k.
Proof. unfold countSource. by rewrite List.filter_app, length_app. Qed.

Lemma countSource_cons s item (l : list NewsItem) :
  countSource s (item :: l)
  = (if decide (source item = s) then 1 else 0) + countSource s l.
Proof.
  unfold countSource. simpl.
  destruct (decide (source item = s)) as [H|H].
  - by rewrite bool_decide_true.
  - by rewrite bool_decide_false.
Qed.

Section PickLoopGreedy.

Variables (maxItems : Z) (maxPerSource : nat).

Lemma pickLoop_skips (sorted result : list NewsItem)
    (sourceCount : gmap (list N) nat) :
  (∀ s, default 0 (sourceCount !! s) = countSource s result) ->
  (∀ s, countSource s result <= maxPerSource) ->
  (Z.of_nat (length result) <= Z.max 0 maxItems)%Z ->
  ∀ x, x ∈ sorted ->
    let out := pickLoop maxItems maxPerSource sorted result sourceCount in
    x ∈ out ∨ (maxItems <= Z.of_nat (length out))%Z
    ∨ maxPerSource <= countSource (source x) out.
Proof.
  revert result sourceCount.
  induction sorted as [|item rest IH]; intros result sourceCount Hsc Hcap Hlen x Hx.
  { by apply elem_of_nil in Hx. }
  simpl. destruct (Z.of_nat (length result) >=? maxItems)%Z eqn:Efull.
  { right. left. rewrite Z.geb_leb in Efull. by apply Z.leb_le. }
  destruct (maxPerSource <=? default 0 (sourceCount !! source item)) eqn:Ecap.
  - apply elem_of_cons in Hx as [->|Hx]; [|by apply IH].
    right. right. apply Nat.leb_le in Ecap. rewrite Hsc in Ecap.
    destruct (pickLoop_bounds maxItems maxPerSource rest result sourceCount
                Hsc Hcap Hlen) as (_ & _ & l' & -> & _).
    rewrite countSource_app. lia.
  - rewrite Z.geb_leb in Efull. apply Z.leb_gt in Efull.
    apply Nat.leb_gt in Ecap. rewrite Hsc in Ecap.
    assert (Hsc' : ∀ s,
               default 0 (<[source item := default 0 (sourceCount !! source item) + 1]>
                            sourceCount !! s)
               = countSource s (result ++ [item])).
    { intros s. rewrite countSource_snoc.
      destruct (decide (source item = s)) as [<-|Hne].
      - rewrite lookup_insert_eq. simpl. by rewrite Hsc.
      - rewrite lookup_insert_ne by done. rewrite Hsc. lia. }
    assert (Hcap' : ∀ s, countSource s (result ++ [item]) <= maxPerSource).
    { intros s. rewrite countSource_snoc. specialize (Hcap s).
      destruct (decide (source item = s)) as [<-|Hne]; lia. }
    assert (Hlen' : (Z.of_nat (length (result ++ [item])) <= Z.max 0 maxItems)%Z).
    { rewrite length_app. simpl. lia. }
    apply elem_of_cons in Hx as [->|Hx]; [|by apply IH].
    left.
    destruct (pickLoop_bounds maxItems maxPerSource rest (result ++ [item]) _
                Hsc' Hcap' Hlen') as (_ & _ & l' & -> & _).
    rewrite !elem_of_app, list_elem_of_singleton. auto.
Qed.

Lemma pickLoop_take (sorted result : list NewsItem)
    (sourceCount : gmap (list N) nat) :
  (∀ s, default 0 (sourceCount !! s) = countSource s result) ->
  (∀ s, countSource s result + countSource s sorted <= maxPerSource) ->
  pickLoop maxItems maxPerSource sorted result sourceCount
  = result ++ take (Z.to_nat maxItems - length result) sorted.
Proof.
  revert result sourceCount.
  induction sorted as [|item rest IH]; intros result sourceCount Hsc Hcap.
  { simpl. by rewrite take_nil, app_nil_r. }
  simpl. destruct (Z.of_nat (length result) >=? maxItems)%Z eqn:Efull.
  { rewrite Z.geb_leb in Efull. apply Z.leb_le in Efull.
    replace (Z.to_nat maxItems - length result) with 0 by lia.
    by rewrite app_nil_r. }
  rewrite Z.geb_leb in Efull. apply Z.leb_gt in Efull.
  destruct (maxPerSource <=? default 0 (sourceCount !! source item)) eqn:Ecap.
  { apply Nat.leb_le in Ecap. rewrite Hsc in Ecap.
    specialize (Hcap (source item)). rewrite countSource_cons in Hcap.
    destruct (decide (source item = source item)); [lia|done]. }
  rewrite IH.
  - rewrite length_app. simpl.
    replace (Z.to_nat maxItems - length result)
      with (S (Z.to_nat maxItems - (length result + 1))) by lia.
    simpl. by rewrite <- app_assoc.
  - intros s. rewrite countSource_snoc.
    destruct (decide (source item = s)) as [<-|Hne].
    + rewrite lookup_insert_eq. simpl. by rewrite Hsc.
    + rewrite lookup_insert_ne by done. rewrite Hsc. lia.
  - intros s. specialize (Hcap s). rewrite countSource_snoc.
    rewrite countSource_cons in Hcap. lia.
Qed.

End PickLoopGreedy.

(** X12. [diversifiedPick] passes over an item for two reasons only: an item of
    [sorted] is in the result, unless the result is full (it has [maxItems]
    items or more) or the result already has [maxPerSource] items of the
    source of that item. *)
Theorem diversifiedPick_skips_only_capped (sorted : list NewsItem)
    (maxItems : Z) (maxPerSource : nat) (x : NewsItem) :
  x ∈ sorted ->
  let out := diversifiedPick sorted maxItems maxPerSource in
  x ∈ out
  ∨ (maxItems <= Z.of_nat (length out))%Z
  ∨ countSource (source x) out = maxPerSource.
Proof.
  intros Hx out.
  assert (H0 : ∀ s, default 0 ((∅ : gmap (list N) nat) !! s) = countSource s []).
  { intros s. by rewrite lookup_empty. }
  assert (H1 : ∀ s, countSource s [] <= maxPerSource).
  { intros s. unfold countSource. simpl. lia. }
  assert (H2 : (Z.of_nat (length (@nil NewsItem)) <= Z.max 0 maxItems)%Z).
  { simpl. lia. }
  destruct (pickLoop_skips maxItems maxPerSource sorted [] ∅ H0 H1 H2 x Hx)
    as [H|[H|H]].
  - by left.
  - right. by left.
  - right. right.
    destruct (diversifiedPick_bounds maxItems maxPerSource sorted) as (Hcap & _).
    specialize (Hcap (source x)). fold out in Hcap.
    unfold diversifiedPick in out. subst out. lia.
Qed.

Lemma diversifiedPick_skips_only_capped_witness :
  let out := diversifiedPick [newsAt 1700000000000; newsAt 1700003000000] 1 3 in
  newsAt 1700000000000 ∈ out
  ∨ (1 <= Z.of_nat (length out))%Z
  ∨ countSource (source (newsAt 1700000000000)) out = 3.
Proof.
  exact (diversifiedPick_skips_only_capped _ 1 3 _ (list_elem_of_here _ _)).
Defined.

(** X13. When no source has more than [maxPerSource] items in [sorted],
    [diversifiedPick] is [sorted.slice(0, maxItems)] for a non-negative
    [maxItems]: the first [maxItems] items, in order (none for a limit of
    zero or less). *)
Theorem diversifiedPick_uncapped (sorted : list NewsItem)
    (maxItems : Z) (maxPerSource : nat) :
  (∀ s, countSource s sorted <= maxPerSource) ->
  diversifiedPick sorted maxItems maxPerSource = take (Z.to_nat maxItems) sorted.
Proof.
  intros Hcap. unfold diversifiedPick. rewrite pickLoop_take.
  - simpl. by rewrite Nat.sub_0_r.
  - intros s. by rewrite lookup_empty.
  - intros s. unfold countSource at 1. simpl. apply Hcap.
Qed.

Lemma diversifiedPick_uncapped_witness :
  diversifiedPick [newsAt 1700000000000; newsAt 1700003000000] 1 3
  = take (Z.to_nat 1) [newsAt 1700000000000; newsAt 1700003000000].
Proof.
  apply (diversifiedPick_uncapped
           [newsAt 1700000000000; newsAt 1700003000000] 1 3).
  intros s. unfold countSource.
  etransitivity; [apply List.filter_length_le|]. simpl. lia.
Defined.

(** ** The selections built on the same three steps *)

Lemma filter_sublist {A} (f : A -> bool) (l : list A) :
  List.filter f l `sublist_of` l.
Proof.
  induction l as [|x r IH]; simpl; [done|].
  destruct (f x); [by apply sublist_skip | by apply sublist_cons].
Qed.

Lemma deduplicateBySimilarity_submseteq items :
  deduplicateBySimilarity items ⊆+ items.
Proof.
  rewrite deduplicateBySimilarity_greedy.
  destruct (greedy_sublist similarItems [] (sortDesc relevanceScore items))
    as (l' & -> & Hl'). simpl.
  transitivity (sortDesc relevanceScore items); [by apply sublist_submseteq|].
  apply Permutation_submseteq, sortDesc_Permutation.
Qed.

(** Filter, [deduplicateBySimilarity], sort, [diversifiedPick] with the
    default cap: the steps [rankNews], [getTopOfDay] and [sendMoneyNews]
    share. *)
Lemma picked_selection (keep : NewsItem -> bool) (items : list NewsItem)
    (maxItems : Z) :
  let out :=
    diversifiedPick
      (sortDesc relevanceScore (deduplicateBySimilarity (List.filter keep items)))
      maxItems 3 in
  (∀ s, countSource s out <= 3)
  ∧ (Z.of_nat (length out) <= Z.max 0 maxItems)%Z
  ∧ StronglySorted (descending relevanceScore) out
  ∧ duplicateFree similarItems out
  ∧ out ⊆+ items
  ∧ ∀ item, item ∈ out -> keep item = true.
Proof.
  intros out.
  set (filtered := List.filter keep items) in *.
  destruct (diversifiedPick_bounds maxItems 3
              (sortDesc relevanceScore (deduplicateBySimilarity filtered)))
    as (Hcap & Hlen & Hsub).
  fold out in Hcap, Hlen, Hsub.
  rewrite (sortDesc_fixed relevanceScore (deduplicateBySimilarity filtered)) in Hsub
    by apply deduplicateBySimilarity_sorted.
  assert (Hms : out ⊆+ filtered).
  { transitivity (deduplicateBySimilarity filtered); [by apply sublist_submseteq|].
    apply deduplicateBySimilarity_submseteq. }
  split; [exact Hcap|]. split; [exact Hlen|]. split; [|split; [|split]].
  - eapply sublist_descending; [exact Hsub|]. apply deduplicateBySimilarity_sorted.
  - eapply sublist_StronglySorted; [exact Hsub|].
    apply deduplicateBySimilarity_duplicateFree.
  - transitivity filtered; [exact Hms|].
    apply sublist_submseteq, filter_sublist.
  - intros item Hin. apply (elem_of_submseteq _ _ _ Hin) in Hms as Hin'.
    clear Hin. rename Hin' into Hin.
    subst filtered. apply list_elem_of_In, filter_In in Hin. tauto.
Qed.

(** X14. [getTopOfDay] returns at most [count] items (none for a count of zero
    or less) and at most three of a source, in descending order of
    relevance, no two of them with similar titles; all are items of the
    input that are at most 24 hours old and have a link. *)
Theorem getTopOfDay_selection (now : Z) (items : list NewsItem) (count : Z) :
  let top := getTopOfDay now items count in
  (∀ s, countSource s top <= 3)
  ∧ (Z.of_nat (length top) <= Z.max 0 count)%Z
  ∧ StronglySorted (descending relevanceScore) top
  ∧ duplicateFree similarItems top
  ∧ top ⊆+ items
  ∧ ∀ item, item ∈ top -> (ageHours now item <= 24)%Q ∧ link item ≠ [].
Proof.
  intros top.
  destruct (picked_selection
              (fun item => geq 24 (ageHours now item)
                           && negb (bool_decide (link item = [])))
              items count) as (H1 & H2 & H3 & H4 & H5 & H6).
  repeat (split; [assumption|]).
  intros item Hin. apply H6 in Hin.
  apply andb_true_iff in Hin as [Hage Hlink].
  apply geq_true in Hage. apply negb_true_iff, bool_decide_eq_false in Hlink.
  done.
Qed.

(** ** Formatting for Telegram *)

Lemma escapeUnit_cases (c : N) :
  (c = 38%N ∧ escapeUnit c = [38; 97; 109; 112; 59]%N)
  ∨ (c = 60%N ∧ escapeUnit c = [38; 108; 116; 59]%N)
  ∨ (c = 62%N ∧ escapeUnit c = [38; 103; 116; 59]%N)
  ∨ (c ≠ 38%N ∧ c ≠ 60%N ∧ c ≠ 62%N ∧ escapeUnit c = [c]).
Proof.
  unfold escapeUnit.
  destruct (N.eqb_spec c 38) as [->|H1]; [by left|].
  destruct (N.eqb_spec c 60) as [->|H2]; [right; by left|].
  destruct (N.eqb_spec c 62) as [->|H3]; [right; right; by left|].
  by repeat right.
Qed.

Lemma escapeHtml_cons (c : N) (text : list N) :
  Telegram.escapeHtml (c :: text) = escapeUnit c ++ Telegram.escapeHtml text.
Proof.
  unfold Telegram.escapeHtml, Telegram.replaceAll.
  change (flat_map ?f (c :: text)) with (f c ++ flat_map f text).
  rewrite !flat_map_app. f_equal.
  unfold escapeUnit.
  destruct (N.eqb_spec c 38) as [->|H1]; [reflexivity|].
  simpl. destruct (N.eqb_spec c 60) as [->|H2]; [reflexivity|].
  simpl. destruct (N.eqb_spec c 62) as [->|H3]; reflexivity.
Qed.

(** X15. [escapeHtml] is one pass that replaces [&], [<] and [>] by their
    entities: the text it returns has no [<] and no [>], is the text itself
    when that has none of the three characters, and is never shorter. *)
Theorem escapeHtml_escapes (text : list N) :
  Telegram.escapeHtml text = flat_map escapeUnit text
  ∧ Forall (fun c => c ≠ 60%N ∧ c ≠ 62%N) (Telegram.escapeHtml text)
  ∧ (Forall (fun c => c ≠ 38%N ∧ c ≠ 60%N ∧ c ≠ 62%N) text ->
     Telegram.escapeHtml text = text)
  ∧ length text <= length (Telegram.escapeHtml text).
Proof.
  induction text as [|c text (IH1 & IH2 & IH3 & IH4)].
  { repeat split; done. }
  rewrite escapeHtml_cons. split; [|split; [|split]].
  - simpl. by rewrite IH1.
  - apply Forall_app. split; [|exact IH2].
    destruct (escapeUnit_cases c) as [[_ ->]|[[_ ->]|[[_ ->]|(_ & H2 & H3 & ->)]]];
      repeat constructor; done.
  - intros Hclean. apply Forall_cons in Hclean as [(H1 & H2 & H3) Hclean].
    rewrite (IH3 Hclean).
    destruct (escapeUnit_cases c) as [[? _]|[[? _]|[[? _]|(_ & _ & _ & ->)]]];
      done.
  - rewrite length_app. simpl.
    destruct (escapeUnit_cases c) as [[_ ->]|[[_ ->]|[[_ ->]|(_ & _ & _ & ->)]]];
      simpl; lia.
Qed.

(** X16. [escapeHtml] loses nothing: two texts with the same escaped form are
    the same text. *)
Theorem escapeHtml_injective (a b : list N) :
  Telegram.escapeHtml a = Telegram.escapeHtml b -> a = b.
Proof.
  revert b. induction a as [|x a IH]; intros [|y b] H.
  - done.
  - rewrite escapeHtml_cons in H. simpl in H.
    destruct (escapeUnit_cases y) as [[_ E]|[[_ E]|[[_ E]|(_ & _ & _ & E)]]];
      rewrite E in H; discriminate.
  - rewrite escapeHtml_cons in H. simpl in H.
    destruct (escapeUnit_cases x) as [[_ E]|[[_ E]|[[_ E]|(_ & _ & _ & E)]]];
      rewrite E in H; discriminate.
  - rewrite !escapeHtml_cons in H.
    destruct (escapeUnit_cases x) as [[-> E]|[[-> E]|[[-> E]|(X1 & X2 & X3 & E)]]];
      destruct (escapeUnit_cases y) as [[-> F]|[[-> F]|[[-> F]|(Y1 & Y2 & Y3 & F)]]];
      rewrite ?E, ?F in H; simpl in H; injection H as H; subst;
      try discriminate; try congruence; f_equal; by apply IH.
Qed.

Lemma escapeHtml_injective_witness :
  js "Q&A" = js "Q&A".
Proof.
  apply (escapeHtml_injective (js "Q&A") (js "Q&A")). reflexivity.
Defined.

Lemma timeAgo_seconds (age : Z) :
  (age / 1000 / 60 = age / 60000
   ∧ age / 1000 / 60 / 60 = age / 3600000
   ∧ age / 1000 / 60 / 60 / 24 = age / 86400000)%Z.
Proof. rewrite !Z.div_div by lia. done. Qed.

(** X17. [timeAgo] prints the age in whole units, rounded down: in seconds
    below one minute, in minutes below one hour, in hours below one day, in
    days from there on.  A date in the future is printed as a negative
    number of seconds. *)
Theorem timeAgo_units (now date : Z) :
  let age := (now - date)%Z in
  Telegram.timeAgo now date
  = (if (age <? 60000)%Z
     then Telegram.Number_toString (age / 1000) ++ js "s atrás"
     else if (age <? 3600000)%Z
     then Telegram.Number_toString (age / 60000) ++ js "min atrás"
     else if (age <? 86400000)%Z
     then Telegram.Number_toString (age / 3600000) ++ js "h atrás"
     else Telegram.Number_toString (age / 86400000) ++ js "d atrás")
  ∧ ((age < 0)%Z ->
     (age / 1000 < 0)%Z
     ∧ Telegram.timeAgo now date
       = Telegram.Number_toString (age / 1000) ++ js "s atrás").
Proof.
  intros age. unfold Telegram.timeAgo. fold age.
  destruct (timeAgo_seconds age) as (E1 & E2 & E3).
  cbv zeta. rewrite E3, E2, E1.
  assert (H1 : (age / 1000 < 60 <-> age < 60000)%Z).
  { split; intros H.
    - apply Z.nle_gt. intros Hle.
      apply (Z.div_le_mono _ _ 1000) in Hle; [|lia].
      change (60000 / 1000)%Z with 60%Z in Hle. lia.
    - apply Z.div_lt_upper_bound; lia. }
  assert (H2 : (age / 60000 < 60 <-> age < 3600000)%Z).
  { split; intros H.
    - apply Z.nle_gt. intros Hle.
      apply (Z.div_le_mono _ _ 60000) in Hle; [|lia].
      change (3600000 / 60000)%Z with 60%Z in Hle. lia.
    - apply Z.div_lt_upper_bound; lia. }
  assert (H3 : (age / 3600000 < 24 <-> age < 86400000)%Z).
  { split; intros H.
    - apply Z.nle_gt. intros Hle.
      apply (Z.div_le_mono _ _ 3600000) in Hle; [|lia].
      change (86400000 / 3600000)%Z with 24%Z in Hle. lia.
    - apply Z.div_lt_upper_bound; lia. }
  split.
  - destruct (Z.ltb_spec (age / 1000) 60), (Z.ltb_spec age 60000); try lia; [done|].
    destruct (Z.ltb_spec (age / 60000) 60), (Z.ltb_spec age 3600000); try lia; [done|].
    destruct (Z.ltb_spec (age / 3600000) 24), (Z.ltb_spec age 86400000); try lia; done.
  - intros Hneg.
    assert (age / 1000 < 0)%Z by (apply Z.div_lt_upper_bound; lia).
    split; [done|].
    destruct (Z.ltb_spec (age / 1000) 60); [done|lia].
Qed.

Lemma concat_replicate_singleton (n : nat) (c : N) :
  concat (replicate n [c]) = replicate n c.
Proof. induction n as [|n IH]; simpl; [done|by rewrite IH]. Qed.

Lemma Math_round_fifths (m : Z) :
  Math_round (inject_Z m / inject_Z 100 * 5)%Q = ((m + 10) / 20)%Z.
Proof.
  unfold Math_round.
  transitivity (Qfloor ((m + 10) # 20)); [|reflexivity].
  apply Qfloor_comp.
  unfold Qeq, Qdiv, Qmult, Qinv, Qplus, inject_Z. simpl. lia.
Qed.

(** X18. [scoreBar(score, 100)] draws five cells, of which
    [floor((min(score, 100) + 10) / 20)] are full: one more for every 20
    points, from 10 points on, and all five from 90.  Below -10 the count
    is negative and [repeat] throws. *)
Theorem scoreBar_cells (score : Z) :
  let filled := ((Z.min score 100 + 10) / 20)%Z in
  ((score < -10)%Z -> Telegram.scoreBar score 100 = None)
  ∧ ((-10 <= score)%Z ->
     (0 <= filled <= 5)%Z
     ∧ Telegram.scoreBar score 100 = Some (barOf filled)
     ∧ length (barOf filled) = 5)
  ∧ ((0 <= score < 10)%Z -> filled = 0%Z)
  ∧ ((90 <= score)%Z -> filled = 5%Z).
Proof.
  intros filled. unfold Telegram.scoreBar.
  rewrite Math_round_fifths. fold filled. unfold Telegram.String_repeat.
  assert (Hjs1 : js "█" = [9608%N]) by reflexivity.
  assert (Hjs2 : js "░" = [9617%N]) by reflexivity.
  rewrite Hjs1, Hjs2, !concat_replicate_singleton.
  split; [|split; [|split]].
  - intros Hlow.
    assert (filled < 0)%Z by (apply Z.div_lt_upper_bound; lia).
    destruct (Z.ltb_spec filled 0); [done|lia].
  - intros Hlow.
    assert (0 <= filled)%Z by (apply Z.div_pos; lia).
    assert (filled <= 5)%Z.
    { apply Z.lt_succ_r. apply Z.div_lt_upper_bound; lia. }
    split; [lia|].
    destruct (Z.ltb_spec filled 0); [lia|].
    destruct (Z.ltb_spec (5 - filled) 0); [lia|].
    split; [done|].
    unfold barOf. rewrite length_app, !length_replicate. lia.
  - intros Hs. subst filled. apply Z.div_small. lia.
  - intros Hs. subst filled.
    assert (5 <= (Z.min score 100 + 10) / 20)%Z by (apply Z.div_le_lower_bound; lia).
    assert ((Z.min score 100 + 10) / 20 < 6)%Z by (apply Z.div_lt_upper_bound; lia).
    lia.
Qed.

Lemma safeSendFrom_spec (sendMessage : nat -> bool) (remaining i : nat) :
  let result := Telegram.safeSendFrom sendMessage remaining i in
  i < result.2 <= i + remaining + 1
  ∧ (∀ j, i <= j < result.2 - 1 -> sendMessage j = false)
  ∧ sendMessage (result.2 - 1) = result.1
  ∧ (result.1 = false -> result.2 = i + remaining + 1).
Proof.
  revert i. induction remaining as [|r IH]; intros i; simpl.
  - destruct (sendMessage i) eqn:E; simpl.
    + rewrite Nat.sub_0_r. repeat split; try lia; try done; intros j ?; lia.
    + rewrite Nat.sub_0_r. repeat split; try lia; try done; intros j ?; lia.
  - destruct (sendMessage i) eqn:E; simpl.
    + rewrite Nat.sub_0_r. repeat split; try lia; try done; intros j ?; lia.
    + destruct (IH (S i)) as (H1 & H2 & H3 & H4).
      split; [lia|]. split; [|split; [done|]].
      * intros j Hj. destruct (decide (j = i)) as [->|Hne]; [done|].
        apply H2. lia.
      * intros Hf. rewrite (H4 Hf). lia.
Qed.

(** X19. [safeSend] calls [bot.sendMessage] until a call succeeds, at most
    [retries + 1] times: it returns when one of the first [retries + 1]
    calls succeeds and throws otherwise; every call before the last one it
    makes has failed, and when it throws it has made all [retries + 1]. *)
Theorem safeSend_retries (sendMessage : nat -> bool) (retries : nat) :
  let result := Telegram.safeSend sendMessage retries in
  (result.1 = true <-> ∃ i, i <= retries ∧ sendMessage i = true)
  ∧ 1 <= result.2 <= retries + 1
  ∧ (∀ j, j < result.2 - 1 -> sendMessage j = false)
  ∧ sendMessage (result.2 - 1) = result.1
  ∧ (result.1 = false -> result.2 = retries + 1).
Proof.
  intros result.
  destruct (safeSendFrom_spec sendMessage retries 0) as (H1 & H2 & H3 & H4).
  fold (Telegram.safeSend sendMessage retries) in H1, H2, H3, H4.
  fold result in H1, H2, H3, H4.
  split; [|split; [lia|split; [|split; [done|]]]].
  - split.
    + intros Hok. exists (result.2 - 1). split; [lia|]. by rewrite H3.
    + intros (i & Hi & Hsend). destruct (result.1) eqn:E; [done|].
      specialize (H4 eq_refl).
      destruct (decide (i = result.2 - 1)) as [->|Hne]; [congruence|].
      rewrite H2 in Hsend; [done|lia].
  - intros j Hj. apply H2. lia.
  - intros Hf. rewrite (H4 Hf). lia.
Qed.

(** ** Cutting a long message *)

Lemma chunkStep_fold_sizes (entries : list (list N)) :
  Forall (fun e => length e <= 4000) entries ->
  ∀ chunks current,
    Forall (fun c => 0 < length c <= 4000) chunks ->
    length current <= 4000 ->
    let st := foldl Telegram.chunkStep (chunks, current) entries in
    Forall (fun c => 0 < length c <= 4000) st.1 ∧ length st.2 <= 4000.
Proof.
  induction 1 as [|entry entries Hentry _ IH]; intros chunks current Hchunks Hcur.
  { by split. }
  change (foldl Telegram.chunkStep (chunks, current) (entry :: entries))
    with (foldl Telegram.chunkStep (Telegram.chunkStep (chunks, current) entry) entries).
  unfold Telegram.chunkStep at 2.
  destruct (4000 <? length current + length entry) eqn:E.
  - apply Nat.ltb_lt in E. apply IH.
    + apply Forall_app. split; [done|]. apply Forall_singleton. lia.
    + simpl. lia.
  - apply Nat.ltb_ge in E. apply IH; [done|]. rewrite length_app. lia.
Qed.

Lemma chunkStep_fold_concat (entries : list (list N)) chunks current :
  let st := foldl Telegram.chunkStep (chunks, current) entries in
  concat st.1 ++ st.2 = concat chunks ++ current ++ concat entries.
Proof.
  revert chunks current.
  induction entries as [|entry entries IH]; intros chunks current.
  { simpl. by rewrite app_nil_r. }
  change (foldl Telegram.chunkStep (chunks, current) (entry :: entries))
    with (foldl Telegram.chunkStep (Telegram.chunkStep (chunks, current) entry) entries).
  unfold Telegram.chunkStep at 2.
  destruct (4000 <? length current + length entry) eqn:E.
  - cbv zeta. rewrite IH. rewrite concat_app. simpl.
    by rewrite !app_nil_r, <- !app_assoc.
  - cbv zeta. rewrite IH. simpl. by rewrite <- !app_assoc.
Qed.

(** X20. Nothing is lost when a long message is cut: the chunks, put together
    again, are the header followed by every entry, up to a last piece of
    white space only, which is not sent. *)
Theorem chunkMessage_reassembles (header : list N) (formatted : list (list N)) :
  ∃ tail, trim tail = []
          ∧ concat (Telegram.chunkMessage header formatted) ++ tail
            = header ++ concat (entriesOf formatted).
Proof.
  unfold Telegram.chunkMessage. fold (entriesOf formatted).
  pose proof (chunkStep_fold_concat (entriesOf formatted) [] header) as H.
  destruct (foldl Telegram.chunkStep ([], header) (entriesOf formatted))
    as [chunks current].
  simpl in H.
  destruct (decide (trim current = [])) as [Ht|Ht].
  - rewrite bool_decide_true by done. by exists current.
  - rewrite bool_decide_false by done. exists []. split; [done|].
    rewrite app_nil_r, concat_app. simpl. by rewrite app_nil_r.
Qed.

(** X21. When the header and every entry (a formatted item and its empty line)
    have at most 4000 code units, every chunk of a long message is
    non-empty and has at most 4000 code units, and every text that
    [sendNews] passes on has at most 4096. *)
Theorem news_messages_fit (header nothing : list N) (formatted : list (list N)) :
  length nothing <= 4096 ->
  length header <= 4000 ->
  Forall (fun f => length f + 2 <= 4000) formatted ->
  Forall (fun chunk => 0 < length chunk <= 4000)
    (Telegram.chunkMessage header formatted)
  ∧ Forall (fun message => length message <= 4096)
      (Telegram.newsMessages header nothing formatted).
Proof.
  intros Hnothing Hheader Hformatted.
  assert (Hchunks : Forall (fun chunk => 0 < length chunk <= 4000)
                      (Telegram.chunkMessage header formatted)).
  { unfold Telegram.chunkMessage. fold (entriesOf formatted).
    destruct (chunkStep_fold_sizes (entriesOf formatted)) with
      (chunks := @nil (list N)) (current := header) as [H1 H2].
    - unfold entriesOf. apply Forall_fmap.
      eapply Forall_impl; [exact Hformatted|].
      intros f Hf. simpl in Hf |- *. rewrite ?length_app. simpl. lia.
    - constructor.
    - exact Hheader.
    - destruct (foldl Telegram.chunkStep ([], header) (entriesOf formatted))
        as [chunks current].
      simpl in H1, H2.
      destruct (decide (trim current = [])) as [Ht|Ht].
      + by rewrite bool_decide_true.
      + rewrite bool_decide_false by done. apply Forall_app. split; [done|].
        apply Forall_singleton. split; [|done].
        destruct current; [done|simpl; lia]. }
  split; [exact Hchunks|].
  unfold Telegram.newsMessages.
  destruct (length formatted =? 0); [by apply Forall_singleton|].
  destruct (Nat.leb_spec (length (header ++ Telegram.join [10; 10]%N formatted)) 4096).
  - by apply Forall_singleton.
  - eapply Forall_impl; [exact Hchunks|]. intros chunk ?. simpl in *. lia.
Qed.

Lemma news_messages_fit_witness :
  Forall (fun chunk => 0 < length chunk <= 4000)
    (Telegram.chunkMessage (js "<b>Mais recentes</b>") [js "one"; js "two"])
  ∧ Forall (fun message => length message <= 4096)
      (Telegram.newsMessages (js "<b>Mais recentes</b>")
         (js "Nenhuma notícia recente encontrada.") [js "one"; js "two"]).
Proof.
  apply (news_messages_fit (js "<b>Mais recentes</b>")
           (js "Nenhuma notícia recente encontrada.") [js "one"; js "two"]).
  - vm_compute. lia.
  - vm_compute. lia.
  - repeat constructor; vm_compute; lia.
Defined.

(** ** The list of sources by category *)

Lemma Map_set_keys {V} (m : list (list N * V)) (k : list N) (v : V) :
  (Telegram.Map_set m k v).*1 = Set_add m.*1 k.
Proof.
  unfold Set_add, Set_has.
  induction m as [|e r IH]; [done|].
  cbn [Telegram.Map_set]. rewrite (fmap_cons fst e r).
  destruct (decide (e.1 = k)) as [He|He].
  - rewrite (bool_decide_true (e.1 = k)) by done.
    rewrite fmap_cons. cbn [fst].
    rewrite bool_decide_true; [by rewrite He|]. rewrite He. apply list_elem_of_here.
  - rewrite (bool_decide_false (e.1 = k)) by done.
    rewrite fmap_cons, IH.
    destruct (decide (k ∈ r.*1)) as [Hin|Hin].
    + rewrite !bool_decide_true; [done| |done]. by apply list_elem_of_further.
    + rewrite !bool_decide_false; [done| |done].
      intros [?|?]%elem_of_cons; [by apply He|done].
Qed.

Lemma Map_get_set {V} (m : list (list N * V)) (k k' : list N) (v : V) :
  Telegram.Map_get (Telegram.Map_set m k v) k'
  = if decide (k = k') then Some v else Telegram.Map_get m k'.
Proof.
  unfold Telegram.Map_get.
  induction m as [|e r IH]; simpl.
  - destruct (decide (k = k')) as [->|Hk].
    + by rewrite bool_decide_true.
    + by rewrite bool_decide_false.
  - destruct (decide (e.1 = k)) as [He|He].
    + rewrite (bool_decide_true (e.1 = k)) by done. simpl.
      destruct (decide (k = k')) as [->|Hk].
      * by rewrite bool_decide_true.
      * rewrite bool_decide_false by done.
        rewrite bool_decide_false by congruence. done.
    + rewrite (bool_decide_false (e.1 = k)) by done. simpl.
      destruct (decide (e.1 = k')) as [He'|He'].
      * rewrite bool_decide_true by done.
        destruct (decide (k = k')); [congruence|done].
      * rewrite bool_decide_false by done. exact IH.
Qed.

Lemma groupByCategory_snoc (sources : list Telegram.SourceEntry) s :
  Telegram.groupByCategory (sources ++ [s])
  = Telegram.Map_set (Telegram.groupByCategory sources) (Telegram.category s)
      (default [] (Telegram.Map_get (Telegram.groupByCategory sources)
                     (Telegram.category s))
       ++ [Telegram.name s]).
Proof. unfold Telegram.groupByCategory. by rewrite foldl_app. Qed.

Lemma namesIn_absent c (sources : list Telegram.SourceEntry) :
  c ∉ map Telegram.category sources -> namesIn c sources = [].
Proof.
  unfold namesIn. induction sources as [|s r IH]; simpl; [done|].
  intros Hc. rewrite not_elem_of_cons in Hc. destruct Hc as [Hne Hc].
  rewrite bool_decide_false by congruence. by apply IH.
Qed.

Lemma namesIn_snoc c (sources : list Telegram.SourceEntry) s :
  namesIn c (sources ++ [s])
  = namesIn c sources
    ++ (if bool_decide (Telegram.category s = c) then [Telegram.name s] else []).
Proof.
  unfold namesIn. rewrite List.filter_app, map_app. simpl.
  by destruct (bool_decide (Telegram.category s = c)).
Qed.

(** X22. [sendSourcesList] lists every category once, in the order in which the
    categories first occur among the sources, and under a category the
    names of its sources, in the order of the list. *)
Theorem groupByCategory_groups (sources : list Telegram.SourceEntry) :
  (Telegram.groupByCategory sources).*1
  = Set_new (map Telegram.category sources)
  ∧ ∀ c, Telegram.Map_get (Telegram.groupByCategory sources) c
         = if bool_decide (c ∈ map Telegram.category sources)
           then Some (namesIn c sources) else None.
Proof.
  induction sources as [|s sources [IHk IHg]] using rev_ind.
  { split; [done|]. intros c. rewrite bool_decide_false; [done|].
    apply not_elem_of_nil. }
  rewrite groupByCategory_snoc. split.
  - rewrite Map_set_keys, IHk. unfold Set_new.
    by rewrite map_app, foldl_app.
  - intros c. rewrite Map_get_set, map_app, namesIn_snoc. simpl.
    destruct (decide (Telegram.category s = c)) as [Hc|Hc].
    + rewrite (bool_decide_true (Telegram.category s = c)) by done.
      rewrite bool_decide_true
        by (rewrite elem_of_app, list_elem_of_singleton; auto).
      rewrite Hc, IHg.
      destruct (decide (c ∈ map Telegram.category sources)) as [Hin|Hin].
      * by rewrite bool_decide_true.
      * rewrite bool_decide_false by done. simpl.
        by rewrite namesIn_absent.
    + rewrite (bool_decide_false (Telegram.category s = c)) by done.
      rewrite app_nil_r, IHg.
      destruct (decide (c ∈ map Telegram.category sources)) as [Hin|Hin].
      * rewrite !bool_decide_true; [done| |done].
        rewrite elem_of_app. by left.
      * rewrite !bool_decide_false; [done| |done].
        rewrite elem_of_app, list_elem_of_singleton. intros [?|?]; congruence.
Qed.

(** ** One item for each link *)

Lemma seenStep_fold {caseMapping : CaseMapping} (items : list NewsItem) :
  ∀ seen kept,
    let st := foldl Fetcher.seenStep (seen, kept) items in
    st.1 = foldl Set_add seen (map linkKey items)
    ∧ (seen = map linkKey kept -> st.1 = map linkKey st.2)
    ∧ ∃ l', st.2 = kept ++ l' ∧ l' `sublist_of` items.
Proof.
  induction items as [|x r IH]; intros seen kept.
  { simpl. split; [done|]. split; [done|]. exists []. by rewrite app_nil_r. }
  change (foldl Fetcher.seenStep (seen, kept) (x :: r))
    with (foldl Fetcher.seenStep (Fetcher.seenStep (seen, kept) x) r).
  change (map linkKey (x :: r)) with (linkKey x :: map linkKey r).
  change (foldl Set_add seen (linkKey x :: map linkKey r))
    with (foldl Set_add (Set_add seen (linkKey x)) (map linkKey r)).
  unfold Fetcher.seenStep at 2. fold (normalizeUrl (link x)). fold (linkKey x).
  destruct (Set_has seen (linkKey x)) eqn:Ehas.
  - assert (Hadd : Set_add seen (linkKey x) = seen)
      by (unfold Set_add; by rewrite Ehas).
    rewrite Hadd.
    destruct (IH seen kept) as (H1 & H2 & l' & H3 & H4).
    split; [done|]. split; [done|]. exists l'. split; [done|].
    by apply sublist_cons.
  - assert (Hadd : Set_add seen (linkKey x) = seen ++ [linkKey x])
      by (unfold Set_add; by rewrite Ehas).
    rewrite Hadd.
    destruct (IH (seen ++ [linkKey x]) (kept ++ [x])) as (H1 & H2 & l' & H3 & H4).
    split; [done|]. split.
    + intros ->. apply H2. by rewrite map_app.
    + exists (x :: l'). rewrite H3, <- app_assoc. split; [done|].
      by apply sublist_skip.
Qed.

Lemma seenStep_fold_distinct {caseMapping : CaseMapping} (items : list NewsItem) :
  ∀ kept, NoDup (map linkKey (kept ++ items)) ->
    foldl Fetcher.seenStep (map linkKey kept, kept) items
    = (map linkKey (kept ++ items), kept ++ items).
Proof.
  induction items as [|x r IH]; intros kept Hnd.
  { simpl. by rewrite app_nil_r. }
  change (foldl Fetcher.seenStep (map linkKey kept, kept) (x :: r))
    with (foldl Fetcher.seenStep
            (Fetcher.seenStep (map linkKey kept, kept) x) r).
  unfold Fetcher.seenStep at 2. fold (normalizeUrl (link x)). fold (linkKey x).
  assert (Hnew : Set_has (map linkKey kept) (linkKey x) = false).
  { apply not_true_iff_false. rewrite Set_has_true. intros Hin.
    rewrite map_app in Hnd. apply NoDup_app in Hnd as (_ & Hdis & _).
    apply (Hdis _ Hin). simpl. apply list_elem_of_here. }
  rewrite Hnew. unfold Set_add. rewrite Hnew.
  replace (map linkKey kept ++ [linkKey x]) with (map linkKey (kept ++ [x]))
    by (by rewrite map_app).
  rewrite IH; rewrite <- app_assoc; done.
Qed.

Lemma deduplicateByUrl_keys {caseMapping : CaseMapping} (items : list NewsItem) :
  map linkKey (Fetcher.deduplicateByUrl items) = Set_new (map linkKey items)
  ∧ Fetcher.deduplicateByUrl items `sublist_of` items.
Proof.
  unfold Fetcher.deduplicateByUrl, Set_new.
  destruct (seenStep_fold items [] []) as (H1 & H2 & l' & H3 & H4).
  split.
  - rewrite <- H2 by done. exact H1.
  - by rewrite H3.
Qed.

Lemma deduplicateByUrl_distinct {caseMapping : CaseMapping} (items : list NewsItem) :
  NoDup (map linkKey items) -> Fetcher.deduplicateByUrl items = items.
Proof.
  intros Hnd. unfold Fetcher.deduplicateByUrl.
  pose proof (seenStep_fold_distinct items [] Hnd) as H.
  cbn [map app] in H. by rewrite H.
Qed.

(** X23. [deduplicateByUrl] keeps one item for each key, the key of a
    link being what [normalizeUrl] of the ranker makes of it (the link
    without its trailing slashes, in lower case as [toLowerCase] gives it):
    the result is a selection from the input in the order of the input,
    its keys are the distinct keys of the input in the order in which they
    first occur, and a second pass changes nothing. *)
Theorem deduplicateByUrl_one_per_link {caseMapping : CaseMapping} (items : list NewsItem) :
  let kept := Fetcher.deduplicateByUrl items in
  kept `sublist_of` items
  ∧ map linkKey kept = Set_new (map linkKey items)
  ∧ NoDup (map linkKey kept)
  ∧ (∀ x, x ∈ items -> ∃ y, y ∈ kept ∧ linkKey y = linkKey x)
  ∧ head kept = head items
  ∧ Fetcher.deduplicateByUrl kept = kept.
Proof.
  intros kept. destruct (deduplicateByUrl_keys items) as [Hkeys Hsub].
  fold kept in Hkeys, Hsub.
  assert (Hnd : NoDup (map linkKey kept)).
  { rewrite Hkeys. apply Set_new_NoDup. }
  split; [done|]. split; [done|]. split; [done|]. split; [|split].
  - intros x Hx.
    assert (Hin : linkKey x ∈ map linkKey kept).
    { rewrite Hkeys, Set_new_elem. apply list_elem_of_fmap. by exists x. }
    apply list_elem_of_fmap in Hin as (y & Hy & Hin). by exists y.
  - destruct items as [|x r]; [done|].
    subst kept. unfold Fetcher.deduplicateByUrl.
    change (foldl Fetcher.seenStep ([], []) (x :: r))
      with (foldl Fetcher.seenStep (Fetcher.seenStep ([], []) x) r).
    unfold Fetcher.seenStep at 2. rewrite Set_has_nil.
    destruct (seenStep_fold r (Set_add [] (String_toLowerCase (stripTrailingSlashes (link x))))
                ([] ++ [x])) as (_ & _ & l' & -> & _).
    done.
  - by apply deduplicateByUrl_distinct.
Qed.

Lemma elem_of_concat {A} (x : A) (ls : list (list A)) :
  x ∈ concat ls <-> ∃ l, x ∈ l ∧ l ∈ ls.
Proof.
  induction ls as [|l ls IH]; simpl.
  - split; [by intros ?%elem_of_nil|]. by intros (l & _ & ?%elem_of_nil).
  - rewrite elem_of_app, IH. split.
    + intros [Hx|(l' & Hx & Hl')].
      * exists l. split; [done|]. apply list_elem_of_here.
      * exists l'. split; [done|]. by apply list_elem_of_further.
    + intros (l' & Hx & [->|Hl']%elem_of_cons); [by left|].
      right. by exists l'.
Qed.

Lemma allItems_concat {A} (results : list (Settled (list A))) (acc : list A) :
  foldl (fun allItems result =>
           match result with
           | fulfilled value => allItems ++ value
           | rejected => allItems
           end) acc results
  = acc ++ concat (map valuesOf results).
Proof.
  revert acc. induction results as [|[value|] r IH]; intros acc; simpl.
  - by rewrite app_nil_r.
  - by rewrite IH, <- app_assoc.
  - by rewrite IH.
Qed.

(** X24. [fetchAll] returns items that a fetcher delivered, one for each link:
    every item comes from the fulfilled fetch of a source, made with the
    fetcher of the type of that source; every link that such a fetch
    delivered is the link of one item returned; and a source whose fetch is
    rejected changes nothing in what the others contribute. *)
Theorem fetchAll_collects {caseMapping : CaseMapping}
    (fetchRSS fetchReddit fetchHTTP : Fetcher.FeedSource -> Settled (list NewsItem))
    (sources : list Fetcher.FeedSource) :
  let fetched := Fetcher.fetchAll fetchRSS fetchReddit fetchHTTP sources in
  let outcome := fetcherOf fetchRSS fetchReddit fetchHTTP in
  NoDup (map linkKey fetched)
  ∧ (∀ x, x ∈ fetched ->
       ∃ source value, source ∈ sources ∧ outcome source = fulfilled value
                       ∧ x ∈ value)
  ∧ (∀ source value x,
       source ∈ sources -> outcome source = fulfilled value -> x ∈ value ->
       ∃ y, y ∈ fetched ∧ linkKey y = linkKey x)
  ∧ fetched
    = Fetcher.fetchAll fetchRSS fetchReddit fetchHTTP
        (List.filter (fun source =>
                        match outcome source with
                        | fulfilled _ => true
                        | rejected => false
                        end) sources).
Proof.
  intros fetched outcome.
  assert (Hall : ∀ l, Fetcher.fetchAll fetchRSS fetchReddit fetchHTTP l
                      = Fetcher.deduplicateByUrl
                          (concat (map valuesOf (map outcome l)))).
  { intros l. unfold Fetcher.fetchAll. by rewrite allItems_concat. }
  assert (Hmem : ∀ x, x ∈ concat (map valuesOf (map outcome sources))
                      <-> ∃ source value, source ∈ sources
                                          ∧ outcome source = fulfilled value
                                          ∧ x ∈ value).
  { intros x. rewrite elem_of_concat. split.
    - intros (l & Hx & Hl).
      apply list_elem_of_fmap in Hl as (result & -> & Hl).
      apply list_elem_of_fmap in Hl as (source & -> & Hl).
      destruct (outcome source) as [value|] eqn:E; [|by apply elem_of_nil in Hx].
      by exists source, value.
    - intros (source & value & Hs & E & Hx). exists value. split; [done|].
      apply list_elem_of_fmap. exists (outcome source). split; [by rewrite E|].
      apply list_elem_of_fmap. by exists source. }
  subst fetched. rewrite !Hall.
  destruct (deduplicateByUrl_keys (concat (map valuesOf (map outcome sources))))
    as [Hkeys Hsub].
  split; [|split; [|split]].
  - rewrite Hkeys. apply Set_new_NoDup.
  - intros x Hx. apply Hmem. by apply (sublist_subseteq _ _ Hsub).
  - intros source value x Hs E Hx.
    assert (Hin : linkKey x
                  ∈ map linkKey
                      (Fetcher.deduplicateByUrl
                         (concat (map valuesOf (map outcome sources))))).
    { rewrite Hkeys, Set_new_elem. apply list_elem_of_fmap. exists x.
      split; [done|]. apply Hmem. by exists source, value. }
    apply list_elem_of_fmap in Hin as (y & Hy & Hin). by exists y.
  - f_equal. clear. induction sources as [|s r IH]; simpl; [done|].
    destruct (outcome s) eqn:E; simpl; rewrite ?E; simpl; by rewrite IH.
Qed.

(** ** The two pipelines of the bot *)

Lemma finalDedup_sublist (items : list NewsItem) :
  finalDedup items `sublist_of` items.
Proof.
  rewrite finalDedup_greedy.
  by destruct (greedy_sublist finalDuplicateItems [] items) as (l' & -> & Hl').
Qed.

Lemma countSource_sublist s (l k : list NewsItem) :
  l `sublist_of` k -> countSource s l <= countSource s k.
Proof.
  induction 1 as [|x l k _ IH|x l k _ IH]; [done| |].
  - rewrite !countSource_cons. lia.
  - rewrite countSource_cons. lia.
Qed.

(** X25. [fetchLatest] returns at most 15 items, newest first, no two of them
    duplicates for the final pass; all are items of the input published
    within the last hour, none in the future, and have a link. *)
Theorem fetchLatest_selection (now : Z) (rawItems : list NewsItem) :
  let latest := Index.fetchLatest now rawItems in
  length latest <= 15
  ∧ StronglySorted (descending publishedAt) latest
  ∧ duplicateFree finalDuplicateItems latest
  ∧ latest ⊆+ rawItems
  ∧ ∀ item, item ∈ latest ->
      (0 <= ageHours now item <= 1)%Q ∧ link item ≠ [].
Proof.
  intros latest. unfold Index.fetchLatest in latest.
  set (keep := fun item =>
                 geq (inject_Z Index.LATEST_MAX_AGE_HOURS) (ageHours now item)
                 && geq (ageHours now item) 0
                 && negb (bool_decide (link item = []))) in *.
  set (recent := sortDesc publishedAt (List.filter keep rawItems)) in *.
  assert (Hsub : latest `sublist_of` finalDedup recent).
  { subst latest. unfold slice. rewrite drop_0. apply sublist_take. }
  assert (Hsub' : latest `sublist_of` recent).
  { etransitivity; [exact Hsub|]. apply finalDedup_sublist. }
  assert (Hms : latest ⊆+ List.filter keep rawItems).
  { transitivity recent; [by apply sublist_submseteq|].
    apply Permutation_submseteq, sortDesc_Permutation. }
  split; [|split; [|split; [|split]]].
  - subst latest. unfold slice, Index.LATEST_MAX_ITEMS.
    rewrite length_take. lia.
  - eapply sublist_descending; [exact Hsub'|]. apply sortDesc_sorted.
  - eapply sublist_StronglySorted; [exact Hsub|]. apply finalDedup_duplicateFree.
  - transitivity (List.filter keep rawItems); [exact Hms|].
    apply sublist_submseteq, filter_sublist.
  - intros item Hin. apply (elem_of_submseteq _ _ _ Hin) in Hms as Hin'.
    apply list_elem_of_In, filter_In in Hin' as [_ Hkeep].
    subst keep. simpl in Hkeep.
    apply andb_true_iff in Hkeep as [Hkeep Hlink].
    apply andb_true_iff in Hkeep as [Hold Hnew].
    apply geq_true in Hold, Hnew.
    apply negb_true_iff, bool_decide_eq_false in Hlink.
    done.
Qed.



(** X27. The record of [runTrendingPipeline] can hold more than what is
    returned: [rankNews] marks what it selects before the final pass of
    [finalDedup] runs, so an item that the final pass removes is recorded
    as delivered though no item with its link is returned. *)
Theorem runTrendingPipeline_marks_undelivered :
  ∃ (now : Z) (rawItems : list NewsItem) (x : NewsItem),
    let run := Index.runTrendingPipeline (caseMapping := latinCase)
                 (fun _ => None) (fun _ => None)
                 now Absent true 10 24 rawItems in
    x ∈ rawItems
    ∧ (∀ item, item ∈ run.1 -> link item ≠ link x)
    ∧ ∃ urls, run.2 = Stored (mkSentCacheData urls now)
              ∧ linkKey (caseMapping := latinCase) x ∈ urls.
Proof.
  exists 1000%Z,
    [story "alpha bravo charlie delta echo" "Wire One" 0;
     story "alpha bravo charlie foxtrot golf hotel india juliet kilo lima mike"
       "Wire Two" 0],
    (story "alpha bravo charlie foxtrot golf hotel india juliet kilo lima mike"
       "Wire Two" 0).
  intros run. split; [apply list_elem_of_further, list_elem_of_here|].
  remember run as result eqn:E. subst run. vm_compute in E. subst result.
  split.
  - intros item Hin. apply list_elem_of_singleton in Hin. subst item.
    vm_compute. discriminate.
  - eexists. split; [reflexivity|].
    vm_compute. apply list_elem_of_further, list_elem_of_here.
Qed.

Lemma filter_true {A} (l : list A) : List.filter (fun _ => true) l = l.
Proof. induction l as [|x r IH]; simpl; [done|by rewrite IH]. Qed.

Lemma sliceTo_sublist {A} (end_ : Z) (l : list A) :
  Index.sliceTo end_ l `sublist_of` l.
Proof. unfold Index.sliceTo. destruct (end_ <? 0)%Z; apply sublist_take. Qed.

(** X28. What [sendMoneyNews] sends: for a non-negative [count], at most
    [count] items; at most three of a source, in descending order of
    relevance, no two of them duplicates for either pass; all are items of
    the scored list. *)
Theorem selectNews_selection (scored : list NewsItem) (count : Z) :
  let result := Money.selectNews scored count in
  ((0 <= count)%Z -> Z.of_nat (length result) <= count)%Z
  ∧ (∀ s, countSource s result <= 3)
  ∧ StronglySorted (descending relevanceScore) result
  ∧ duplicateFree finalDuplicateItems result
  ∧ duplicateFree similarItems result
  ∧ result ⊆+ scored.
Proof.
  intros result. unfold Money.selectNews in result.
  set (diversified := diversifiedPick _ _ _) in result.
  destruct (picked_selection (fun _ => true) scored (count + 5))
    as (H1 & H2 & H3 & H4 & H5 & _).
  rewrite filter_true in H1, H2, H3, H4, H5. fold diversified in H1, H2, H3, H4, H5.
  assert (Hsub : result `sublist_of` finalDedup diversified)
    by apply sliceTo_sublist.
  assert (Hsub' : result `sublist_of` diversified).
  { etransitivity; [exact Hsub|]. apply finalDedup_sublist. }
  split; [|split; [|split; [|split; [|split]]]].
  - intros Hcount. subst result. unfold Index.sliceTo.
    destruct (Z.ltb_spec count 0); [lia|]. rewrite length_take. lia.
  - intros s. etransitivity; [by apply countSource_sublist|apply H1].
  - by eapply sublist_descending.
  - eapply sublist_StronglySorted; [exact Hsub|]. apply finalDedup_duplicateFree.
  - by eapply sublist_StronglySorted.
  - transitivity diversified; [by apply sublist_submseteq|done].
Qed.

(** ** The supervisor *)

Lemma afterCrashes_snoc (times : list Z) (now : Z) :
  Runner.afterCrashes (times ++ [now])
  = Runner.onExit now (Runner.afterCrashes times).
Proof. unfold Runner.afterCrashes. by rewrite foldl_app. Qed.

(** X29. Whatever the times of the crashes, the delay before a restart is
    between 3 and 60 seconds, and it is above 3 seconds only when the last
    five crashes or more were within 60 seconds of the last one.  The
    crashes remembered are crashes that happened, the last one among them,
    each less than 60 seconds before the last. *)
Theorem runner_delay_bounds (times : list Z) :
  let st := Runner.afterCrashes times in
  (Runner.MIN_RESTART_DELAY <= Runner.currentDelay st <= Runner.MAX_RESTART_DELAY)%Z
  ∧ ((Runner.MIN_RESTART_DELAY < Runner.currentDelay st)%Z ->
     5 <= length (Runner.crashTimestamps st))
  ∧ Runner.crashTimestamps st `sublist_of` times
  ∧ ∀ now, last times = Some now ->
      now ∈ Runner.crashTimestamps st
      ∧ Forall (fun t => (now - t < Runner.CRASH_WINDOW)%Z)
          (Runner.crashTimestamps st).
Proof.
  induction times as [|now times (IH1 & IH2 & IH3 & IH4)] using rev_ind.
  { simpl. unfold Runner.MIN_RESTART_DELAY, Runner.MAX_RESTART_DELAY.
    split; [lia|]. split; [lia|]. split; [done|]. intros now Hnow. done. }
  rewrite afterCrashes_snoc. cbv zeta.
  set (st := Runner.afterCrashes times) in *.
  unfold Runner.onExit.
  set (stamps := List.filter _ (Runner.crashTimestamps st ++ [now])).
  assert (Hsub : stamps `sublist_of` times ++ [now]).
  { etransitivity; [apply filter_sublist|]. by apply sublist_app. }
  assert (Hnow : now ∈ stamps).
  { subst stamps. apply list_elem_of_In, filter_In. split.
    - apply in_or_app. right. by left.
    - apply Z.ltb_lt. unfold Runner.CRASH_WINDOW. lia. }
  assert (Hwin : Forall (fun t => (now - t < Runner.CRASH_WINDOW)%Z) stamps).
  { apply Forall_forall. intros t Ht. subst stamps.
    apply list_elem_of_In, filter_In in Ht as [_ Ht]. by apply Z.ltb_lt. }
  unfold Runner.MIN_RESTART_DELAY, Runner.MAX_RESTART_DELAY,
    Runner.BACKOFF_MULTIPLIER, Runner.MAX_CRASHES_IN_WINDOW in *.
  destruct (Nat.leb_spec 5 (length stamps)); cbn [Runner.currentDelay Runner.crashTimestamps].
  - split; [lia|]. split; [done|]. split; [done|].
    intros now' Hlast. rewrite last_snoc in Hlast. injection Hlast as <-. done.
  - split; [lia|]. split; [lia|]. split; [done|].
    intros now' Hlast. rewrite last_snoc in Hlast. injection Hlast as <-. done.
Qed.

Lemma burstDelay_next (n : nat) :
  burstDelay (S n)
  = if 5 <=? S n then Z.min (burstDelay n * 2) 60000 else 3000%Z.
Proof.
  unfold burstDelay.
  destruct (Nat.ltb_spec (S n) 5), (Nat.leb_spec 5 (S n)); try lia.
  destruct (Nat.ltb_spec n 5).
  - assert (n = 4) as -> by lia. reflexivity.
  - replace (Z.of_nat (S n) - 4)%Z with (Z.succ (Z.of_nat n - 4)) by lia.
    rewrite Z.pow_succ_r by lia.
    assert (0 < 2 ^ (Z.of_nat n - 4))%Z by (apply Z.pow_pos_nonneg; lia).
    lia.
Qed.

(** X30. In a burst of crashes, all within 60 seconds of each other, every
    crash is remembered, the first four restarts come after 3 seconds, and
    from the fifth crash on the delay doubles with every crash, up to 60
    seconds: 6, 12, 24, 48, 60, 60, ... *)
Theorem runner_backoff (times : list Z) :
  burst times ->
  Runner.crashTimestamps (Runner.afterCrashes times) = times
  ∧ Runner.currentDelay (Runner.afterCrashes times) = burstDelay (length times).
Proof.
  induction times as [|now times IH] using rev_ind; intros Hburst.
  { done. }
  destruct IH as [IHs IHd].
  { intros t t' Ht Ht'. apply Hburst; apply elem_of_app; by left. }
  rewrite afterCrashes_snoc. unfold Runner.onExit. rewrite IHs, IHd.
  assert (Hall : List.filter (fun t => (now - t <? Runner.CRASH_WINDOW)%Z)
                   (times ++ [now]) = times ++ [now]).
  { apply forallb_filter_id. apply forallb_forall. intros t Ht.
    apply Z.ltb_lt. apply Hburst.
    - by apply list_elem_of_In.
    - apply elem_of_app. right. apply list_elem_of_here. }
  rewrite Hall, length_app. cbn [length]. rewrite Nat.add_1_r, burstDelay_next.
  unfold Runner.MAX_CRASHES_IN_WINDOW, Runner.BACKOFF_MULTIPLIER,
    Runner.MAX_RESTART_DELAY, Runner.MIN_RESTART_DELAY.
  by destruct (5 <=? S (length times)).
Qed.

Lemma runner_backoff_witness :
  Runner.crashTimestamps
    (Runner.afterCrashes [0; 4000; 8000; 12000; 16000; 20000; 24000]%Z)
  = [0; 4000; 8000; 12000; 16000; 20000; 24000]%Z
  ∧ Runner.currentDelay
      (Runner.afterCrashes [0; 4000; 8000; 12000; 16000; 20000; 24000]%Z)
    = burstDelay (length [0; 4000; 8000; 12000; 16000; 20000; 24000]%Z).
Proof.
  apply (runner_backoff [0; 4000; 8000; 12000; 16000; 20000; 24000]%Z).
  intros t t' Ht Ht'. unfold Runner.CRASH_WINDOW.
  assert (Hrange : ∀ u, u ∈ [0; 4000; 8000; 12000; 16000; 20000; 24000]%Z ->
                        (0 <= u <= 24000)%Z).
  { intros u Hu. repeat (apply elem_of_cons in Hu as [->|Hu]; [lia|]).
    by apply elem_of_nil in Hu. }
  apply Hrange in Ht, Ht'. lia.
Defined.
